(** * ShelfArc: the subagent delta engine ([.subagent/subagent_diff.py])

    A shallow embedding of the path normaliser, the safety guard, the
    worktree manager and the output stage of [subagent_diff.py], and the
    properties of the design document that can be settled on it.

    Python text is a sequence of Unicode code points; the external world
    (the file system, the [git] executable) is an explicit parameter. *)

From Stdlib Require Import DecimalString String Ascii NArith ZArith Bool List Lia.
Import ListNotations.
Local Open Scope string_scope.
Local Open Scope list_scope.

(* ------------------------------------------------------------------ *)
(** * Python text *)

Module Py.

(** A character is its code point; [str] is Python's immutable [str]. *)
Definition char := N.
Definition str := list char.

(** Text literals of the source, written as Rocq strings. *)
Definition lit (s : string) : str :=
  List.map N_of_ascii (list_ascii_of_string s).

Definition DQUOTE : char := 34%N.
Definition SQUOTE : char := 39%N.
Definition BACKSLASH : char := 92%N.
Definition SLASH : char := 47%N.
Definition PIPE : char := 124%N.
Definition LF : char := 10%N.
Definition CR : char := 13%N.

Fixpoint str_eqb (a b : str) : bool :=
  match a, b with
  | [], [] => true
  | x :: a', y :: b' => N.eqb x y && str_eqb a' b'
  | _, _ => false
  end.

(** Truthiness of a string: [if s:] holds for non-empty text. *)
Definition truthy (s : str) : bool :=
  match s with [] => false | _ :: _ => true end.

(** [str.isspace] on one character (CPython's [_PyUnicode_IsWhitespace]). *)
Definition isspace (c : char) : bool :=
  ((9 <=? c) && (c <=? 13) || (28 <=? c) && (c <=? 31) || (c =? 32)
   || (c =? 133) || (c =? 160) || (c =? 5760)
   || (8192 <=? c) && (c <=? 8202) || (c =? 8232) || (c =? 8233)
   || (c =? 8239) || (c =? 8287) || (c =? 12288))%N.

(** Line boundaries of [str.splitlines] ([_PyUnicode_IsLinebreak]). *)
Definition islinebreak (c : char) : bool :=
  ((10 <=? c) && (c <=? 13) || (28 <=? c) && (c <=? 30) || (c =? 133)
   || (c =? 8232) || (c =? 8233))%N.

Definition mem_char (c : char) (chars : str) : bool :=
  existsb (N.eqb c) chars.

Fixpoint lstrip_by (f : char -> bool) (s : str) : str :=
  match s with
  | [] => []
  | c :: r => if f c then lstrip_by f r else s
  end.

Fixpoint rstrip_by (f : char -> bool) (s : str) : str :=
  match s with
  | [] => []
  | c :: r =>
      match rstrip_by f r with
      | [] => if f c then [] else [c]
      | r' => c :: r'
      end
  end.

Definition strip_by (f : char -> bool) (s : str) : str :=
  rstrip_by f (lstrip_by f s).

(** [s.strip()], [s.lstrip()] *)
Definition strip : str -> str := strip_by isspace.
Definition lstrip : str -> str := lstrip_by isspace.
(** [s.strip(chars)], [s.rstrip(chars)] *)
Definition strip_chars (chars : str) : str -> str :=
  strip_by (fun c => mem_char c chars).
Definition rstrip_chars (chars : str) : str -> str :=
  rstrip_by (fun c => mem_char c chars).

(** [s.startswith(p)] and [s.endswith(p)] *)
Fixpoint startswith (s p : str) {struct p} : bool :=
  match p with
  | [] => true
  | a :: p' =>
      match s with
      | [] => false
      | b :: s' => N.eqb b a && startswith s' p'
      end
  end.

Definition endswith (s p : str) : bool := startswith (rev s) (rev p).

(** [s[n:]] *)
Definition slice_from (n : nat) (s : str) : str := skipn n s.
(** [s[:n]] *)
Definition slice_to (n : nat) (s : str) : str := firstn n s.
(** [s[1:-1]] *)
Definition slice_inner (s : str) : str := removelast (tl s).

(** [s.replace(old, new)] for a one-character [old], the only form the
    source uses. *)
Definition replace (old : char) (new : str) (s : str) : str :=
  flat_map (fun c => if N.eqb c old then new else [c]) s.

(** [sep.join(parts)] *)
Fixpoint join (sep : str) (parts : list str) : str :=
  match parts with
  | [] => []
  | [p] => p
  | p :: rest => p ++ sep ++ join sep rest
  end.

(** [sep in s] and [s.split(sep, 1)] for a one-character separator:
    [None] when the separator is absent. *)
Fixpoint split_once (sep : char) (s : str) : option (str * str) :=
  match s with
  | [] => None
  | c :: r =>
      if N.eqb c sep then Some ([], r)
      else match split_once sep r with
           | Some (a, b) => Some (c :: a, b)
           | None => None
           end
  end.

Definition contains_char (sep : char) (s : str) : bool := mem_char sep s.

(** [sub in s] for text. *)
Fixpoint contains (s sub : str) : bool :=
  startswith s sub ||
  match s with
  | [] => false
  | _ :: r => contains r sub
  end.

(** [s.splitlines()]: [cur] is the pending line, kept reversed. *)
Fixpoint splitlines_go (cur : str) (s : str) : list str :=
  match s with
  | [] => match cur with [] => [] | _ => [rev cur] end
  | c :: r =>
      if N.eqb c CR then
        match r with
        | c' :: r' =>
            if N.eqb c' LF then rev cur :: splitlines_go [] r'
            else rev cur :: splitlines_go [] r
        | [] => rev cur :: splitlines_go [] r
        end
      else if islinebreak c then rev cur :: splitlines_go [] r
      else splitlines_go (c :: cur) r
  end.

Definition splitlines (s : str) : list str := splitlines_go [] s.

End Py.
Import Py.

(* ------------------------------------------------------------------ *)
(** * [shlex.split] (POSIX mode, [whitespace_split], no comments) *)

Module Shlex.

Definition whitespace (c : char) : bool :=
  ((c =? 32) || (c =? 9) || (c =? 13) || (c =? 10))%N.
Definition quotes (c : char) : bool := N.eqb c SQUOTE || N.eqb c DQUOTE.
Definition escape (c : char) : bool := N.eqb c BACKSLASH.
Definition escapedquotes (c : char) : bool := N.eqb c DQUOTE.

(** The lexer's [state]: [' '], ['a'], a quote character, or the escape
    character together with the state it returns to ([escapedstate]). *)
Inductive escaped := EscWord | EscQuote (q : char).
Inductive state := Space | Word | Quote (q : char) | Escape (back : escaped).

Definition resume (e : escaped) : state :=
  match e with EscWord => Word | EscQuote q => Quote q end.

(** End of one [read_token]: the token is handed out unless it is empty
    and nothing was quoted. *)
Definition emit (quoted : bool) (token : str) (more : list str) : list str :=
  if truthy token || quoted then token :: more else more.

(** All tokens of the remaining input; [None] is [ValueError]. *)
Fixpoint read_tokens (st : state) (quoted : bool) (token : str)
         (input : str) : option (list str) :=
  match input with
  | [] =>
      match st with
      | Space | Word => Some (emit quoted token [])
      | Quote _ => None
      | Escape _ => None
      end
  | c :: rest =>
      match st with
      | Space =>
          if whitespace c then
            option_map (emit quoted token) (read_tokens Space false [] rest)
          else if escape c then read_tokens (Escape EscWord) quoted token rest
          else if quotes c then read_tokens (Quote c) quoted token rest
          else read_tokens Word quoted [c] rest
      | Word =>
          if whitespace c then
            option_map (emit quoted token) (read_tokens Space false [] rest)
          else if quotes c then read_tokens (Quote c) quoted token rest
          else if escape c then read_tokens (Escape EscWord) quoted token rest
          else read_tokens Word quoted (token ++ [c]) rest
      | Quote q =>
          if N.eqb c q then read_tokens Word true token rest
          else if escape c && escapedquotes q then
            read_tokens (Escape (EscQuote q)) true token rest
          else read_tokens (Quote q) true (token ++ [c]) rest
      | Escape back =>
          let token' :=
            match back with
            | EscQuote q =>
                if negb (N.eqb c BACKSLASH) && negb (N.eqb c q)
                then token ++ [BACKSLASH] else token
            | EscWord => token
            end in
          read_tokens (resume back) quoted (token' ++ [c]) rest
      end
  end.

Definition split (s : str) : option (list str) := read_tokens Space false [] s.

End Shlex.

(* ------------------------------------------------------------------ *)
(** * Pure paths ([pathlib.PurePosixPath]) *)

(** A parsed path: its root ([""], ["/"] or ["//"]) and its components. *)
Record Path := mkPath { root : str; tail : list str }.

Definition path_eqb (p q : Path) : bool :=
  str_eqb (root p) (root q) &&
  (fix eqs (a b : list str) : bool :=
     match a, b with
     | [], [] => true
     | x :: a', y :: b' => str_eqb x y && eqs a' b'
     | _, _ => false
     end) (tail p) (tail q).

(** [p.as_posix()], which is [str(p)] on POSIX. *)
Definition as_posix (p : Path) : str :=
  match tail p with
  | [] => if truthy (root p) then root p else lit "."
  | _ => root p ++ join (lit "/") (tail p)
  end.

(** [p.parent] *)
Definition parent (p : Path) : Path :=
  mkPath (root p) (removelast (tail p)).

(** [p.name] *)
Definition name (p : Path) : str := last (tail p) [].

(** [p / segment] for a single plain segment *)
Definition joinpath (p : Path) (segment : str) : Path :=
  mkPath (root p) (tail p ++ [segment]).

Fixpoint strip_parts (whole base : list str) {struct base}
  : option (list str) :=
  match base with
  | [] => Some whole
  | b :: base' =>
      match whole with
      | [] => None
      | w :: whole' => if str_eqb w b then strip_parts whole' base' else None
      end
  end.

(** [p.relative_to(other)]; [None] is [ValueError]. *)
Definition relative_to (p other : Path) : option Path :=
  if str_eqb (root p) (root other) then
    match strip_parts (tail p) (tail other) with
    | Some rest => Some (mkPath [] rest)
    | None => None
    end
  else None.

(* ------------------------------------------------------------------ *)
(** * PathNormalizer *)

(** Iteration order of the set literal [{pre, post}]: one element when the
    two strings are equal, otherwise an order fixed by the interpreter's
    string hashing, which the model takes as a parameter. *)
Definition set_iter (swapped : bool) (a b : str) : list str :=
  if str_eqb a b then [a] else if swapped then [b; a] else [a; b].

Section PathNormalizer.

Variable hash_order : bool.

(** One turn of the loop over [prefixes]. *)
Definition strip_root_prefix (value prefix : str) : str :=
  if startswith value (prefix ++ lit "/") then
    slice_from (length prefix + 1) value
  else if str_eqb value prefix then []
  else value.

Definition normalize_path_value (path : str) (pre_dir post_dir : Path) : str :=
  let value := replace BACKSLASH (lit "/") (strip_chars [DQUOTE] (strip path)) in
  let prefixes := set_iter hash_order (as_posix pre_dir) (as_posix post_dir) in
  let value := fold_left strip_root_prefix prefixes value in
  if startswith value (lit "pre/") then slice_from 4 value
  else if startswith value (lit "post/") then slice_from 5 value
  else value.

Definition is_excluded_path (path : str) : bool :=
  if negb (truthy path) then true
  else
    let cleaned := replace BACKSLASH (lit "/") (strip_chars [DQUOTE] (strip path)) in
    let cleaned :=
      if startswith cleaned (lit "./") then slice_from 2 cleaned else cleaned in
    let cleaned :=
      if startswith cleaned (lit "a/") || startswith cleaned (lit "b/")
      then slice_from 2 cleaned else cleaned in
    str_eqb cleaned (lit ".git") || startswith cleaned (lit ".git/").

Definition extract_normalized_path (token : str) (pre_dir post_dir : Path) : str :=
  let text := strip token in
  let text :=
    if startswith text [DQUOTE] && endswith text [DQUOTE]
    then slice_inner text else text in
  let text :=
    if startswith text (lit "a/") || startswith text (lit "b/")
    then slice_from 2 text else text in
  normalize_path_value text pre_dir post_dir.

(** The [for diff_prefix in ("a/", "b/")] loop with its [break]. *)
Definition split_diff_prefix (text : str) : str * str :=
  if startswith text (lit "a/") then (lit "a/", slice_from 2 text)
  else if startswith text (lit "b/") then (lit "b/", slice_from 2 text)
  else ([], text).

Definition normalize_diff_token (token : str) (pre_dir post_dir : Path) : str :=
  let text := strip token in
  let quoted := startswith text [DQUOTE] && endswith text [DQUOTE] in
  let text := if quoted then slice_inner text else text in
  let '(prefix, text) := split_diff_prefix text in
  let text := normalize_path_value text pre_dir post_dir in
  let normalized :=
    if truthy text then prefix ++ text else rstrip_chars (lit "/") prefix in
  if quoted then [DQUOTE] ++ normalized ++ [DQUOTE] else normalized.

(** The body of the loop of [normalize_name_output]: the lines a raw line
    contributes. *)
Definition name_line (line : str) (pre_dir post_dir : Path) : list str :=
  if negb (truthy (strip line)) then []
  else
    let normalized := normalize_path_value line pre_dir post_dir in
    if truthy normalized && negb (is_excluded_path normalized)
    then [normalized] else [].

Definition normalize_name_lines (lines : list str) (pre_dir post_dir : Path)
  : list str :=
  flat_map (fun line => name_line line pre_dir post_dir) lines.

Definition normalize_name_output (raw : str) (pre_dir post_dir : Path) : str :=
  join [LF] (normalize_name_lines (splitlines raw) pre_dir post_dir).

(** The body of the loop of [normalize_stat_output]. *)
Definition stat_line (line : str) (pre_dir post_dir : Path) : list str :=
  if negb (truthy (strip line)) then []
  else
    match split_once PIPE line with
    | Some (path_part, rest) =>
        let path_clean := normalize_path_value path_part pre_dir post_dir in
        if negb (truthy path_clean) || is_excluded_path path_clean then []
        else [path_clean ++ lit " | " ++ strip rest]
    | None => [lstrip line]
    end.

Definition normalize_stat_lines (lines : list str) (pre_dir post_dir : Path)
  : list str :=
  flat_map (fun line => stat_line line pre_dir post_dir) lines.

Definition normalize_stat_output (raw : str) (pre_dir post_dir : Path) : str :=
  join [LF] (normalize_stat_lines (splitlines raw) pre_dir post_dir).

Definition normalize_patch_metadata_line (line : str) (pre_dir post_dir : Path)
  : str :=
  if startswith line (lit "--- ") || startswith line (lit "+++ ") then
    let prefix := slice_to 4 line in
    let path_token := slice_from 4 line in
    if str_eqb (strip path_token) (lit "/dev/null") then line
    else prefix ++ normalize_diff_token path_token pre_dir post_dir
  else if startswith line (lit "rename from ") then
    lit "rename from " ++
    normalize_diff_token (slice_from 12 line) pre_dir post_dir
  else if startswith line (lit "rename to ") then
    lit "rename to " ++
    normalize_diff_token (slice_from 10 line) pre_dir post_dir
  else line.

(** The nested helper of [handle_diff_header]. *)
Definition quote_if_needed (value : str) : str :=
  if existsb isspace value then
    let escaped :=
      replace DQUOTE [BACKSLASH; DQUOTE]
        (replace BACKSLASH [BACKSLASH; BACKSLASH] value) in
    [DQUOTE] ++ escaped ++ [DQUOTE]
  else value.

(** [handle_diff_header]: the skip flag and the normalised header
    ([None] when the block is to be dropped). *)
Definition handle_diff_header (line : str) (pre_dir post_dir : Path)
  : bool * option str :=
  let prefix := lit "diff --git " in
  if negb (startswith line prefix) then (false, Some line)
  else
    let remainder := strip (slice_from (length prefix) line) in
    if negb (truthy remainder) then (false, Some line)
    else
      match Shlex.split remainder with
      | None => (false, Some line)
      | Some [t0; t1] =>
          let left_token := quote_if_needed t0 in
          let right_token := quote_if_needed t1 in
          let left_path := extract_normalized_path left_token pre_dir post_dir in
          let right_path := extract_normalized_path right_token pre_dir post_dir in
          if is_excluded_path left_path || is_excluded_path right_path
          then (true, None)
          else
            let left := normalize_diff_token left_token pre_dir post_dir in
            let right := normalize_diff_token right_token pre_dir post_dir in
            (false, Some (lit "diff --git " ++ left ++ lit " " ++ right))
      | Some _ => (false, Some line)
      end.

(** The loop of [normalize_patch_output], started with a given
    [skip_block]. *)
Fixpoint normalize_patch_lines (skip_block : bool) (lines : list str)
         (pre_dir post_dir : Path) : list str :=
  match lines with
  | [] => []
  | line :: rest =>
      if startswith line (lit "diff --git ") then
        let '(skip, normalized) := handle_diff_header line pre_dir post_dir in
        match normalized with
        | Some h =>
            if truthy h then h :: normalize_patch_lines skip rest pre_dir post_dir
            else normalize_patch_lines skip rest pre_dir post_dir
        | None => normalize_patch_lines skip rest pre_dir post_dir
        end
      else if skip_block then
        normalize_patch_lines skip_block rest pre_dir post_dir
      else
        normalize_patch_metadata_line line pre_dir post_dir
          :: normalize_patch_lines skip_block rest pre_dir post_dir
  end.

Definition normalize_patch_output (raw : str) (pre_dir post_dir : Path) : str :=
  join [LF] (normalize_patch_lines false (splitlines raw) pre_dir post_dir).

End PathNormalizer.

(* ------------------------------------------------------------------ *)
(** * SafetyGuard *)

Definition WORK_BASE_MARKER_NAME : str := lit ".subagent_work_base_marker".

(** The [Paths] named tuple. *)
Record Paths := mkPaths {
  output_dir : Path;
  pre_patch : Path;
  post_patch : Path;
  work_base : Path;
  work_base_parent : Path;
  work_marker : Path;
  pre_dir : Path;
  post_dir : Path;
  delta_file : Path;
  stat_file : Path;
  name_file : Path
}.

(** What the guard asks of the file system: [Path.resolve], [Path.exists]
    and [Path.is_dir]. *)
Record FileSystem := mkFS {
  resolve : Path -> Path;
  path_exists : Path -> bool;
  is_dir : Path -> bool
}.

Definition is_relative_to (path parent_ : Path) : bool :=
  match relative_to path parent_ with
  | Some _ => true
  | None => false
  end.

Definition is_top_level_path (fs : FileSystem) (path : Path) : bool :=
  let resolved := resolve fs path in
  path_eqb (parent resolved) resolved.

Definition is_safe_work_base_target (fs : FileSystem) (paths : Paths)
           (repo_root : Path) : bool :=
  let work_base := resolve fs (work_base paths) in
  if negb (path_exists fs work_base) || negb (is_dir fs work_base) then false
  else if is_top_level_path fs work_base then false
  else
    let repo_root_resolved := resolve fs repo_root in
    let expected_parent := resolve fs (work_base_parent paths) in
    if negb (is_relative_to work_base repo_root_resolved
             || is_relative_to work_base expected_parent) then false
    else if path_eqb work_base repo_root_resolved
            || path_eqb work_base expected_parent then false
    else
      let marker_exists := path_exists fs (work_marker paths) in
      let expected_name := contains (name work_base) (lit "subagent_") in
      marker_exists || expected_name.

Definition is_safe_worktree_dir (fs : FileSystem) (worktree_dir : Path)
           (paths : Paths) (repo_root : Path) : bool :=
  if negb (is_safe_work_base_target fs paths repo_root) then false
  else
    let worktree_resolved := resolve fs worktree_dir in
    let work_base := resolve fs (work_base paths) in
    if is_top_level_path fs worktree_resolved
       || path_eqb worktree_resolved work_base then false
    else is_relative_to worktree_resolved work_base.

(* ------------------------------------------------------------------ *)
(** * Effects: the [git] executable and file writes *)

Definition bytes := list N.

Inductive exn :=
| RuntimeError (msg : str)
| CalledProcessError (code : Z) (cmd : list str) (output err : str)
| ValueError
| OSError.

Inductive result (A : Type) :=
| Ok (a : A)
| Raise (e : exn).
Arguments Ok {A} a.
Arguments Raise {A} e.

(** What [subprocess.run] hands back. *)
Record CompletedProcess := mkCompleted {
  returncode : Z;
  stdout : bytes;
  stderr : bytes
}.

(** What the program does to the outside, in order. *)
Inductive event :=
| Git (cmd : list str) (cwd : str)
| WriteText (path : Path) (encoding : str) (data : str).

(** The outside: whether a process can be started at all (if not,
    [subprocess.run] raises [OSError]: no executable, no such working
    directory), how the [git] binary answers given everything done so far
    ([None]: it ran past the timeout), whether a write goes through, and
    the two decoders of [decode_bytes]. *)
Record World := mkWorld {
  cannot_start : list event -> list str -> str -> bool;
  subprocess_run : list event -> list str -> str -> option CompletedProcess;
  write_goes_through : list event -> Path -> bool;
  decode_utf8 : bytes -> option str;
  decode_locale : bytes -> str
}.

(** Computations that extend the log of events and return or raise. *)
Definition M (A : Type) : Type := list event -> result A * list event.

Definition ret {A} (a : A) : M A := fun log => (Ok a, log).
Definition raise {A} (e : exn) : M A := fun log => (Raise e, log).
Definition bind {A B} (m : M A) (k : A -> M B) : M B :=
  fun log =>
    match m log with
    | (Ok a, log') => k a log'
    | (Raise e, log') => (Raise e, log')
    end.
(** [try: m  except: h] *)
Definition try_except {A} (m : M A) (h : exn -> M A) : M A :=
  fun log =>
    match m log with
    | (Ok a, log') => (Ok a, log')
    | (Raise e, log') => h e log'
    end.

Notation "x <- m ;; k" := (bind m (fun x => k))
  (at level 61, m at next level, right associativity).
Notation "m ;;; k" := (bind m (fun _ => k))
  (at level 61, right associativity).

Section Engine.

Variable world : World.
Variable hash_order : bool.

Definition decode_bytes (data : bytes) : str :=
  match data with
  | [] => []
  | _ =>
      match decode_utf8 world data with
      | Some text => text
      | None => decode_locale world data
      end
  end.

(** [run_git] with its default timeout of 300 seconds. *)
Definition run_git (args : list str) (cwd : Path) (allow_exit_codes : list Z)
  : M str :=
  fun log =>
    let cmd := lit "git" :: args in
    let log' := log ++ [Git cmd (as_posix cwd)] in
    if cannot_start world log cmd (as_posix cwd) then (Raise OSError, log')
    else
      match subprocess_run world log cmd (as_posix cwd) with
      | None =>
          (Raise (RuntimeError
                    (lit "Git command timed out after 300s: "
                     ++ join (lit " ") cmd)), log')
      | Some res =>
          let out := decode_bytes (stdout res) in
          let err := decode_bytes (stderr res) in
          if existsb (Z.eqb (returncode res)) allow_exit_codes
          then (Ok (strip out), log')
          else (Raise (CalledProcessError (returncode res) cmd out err), log')
      end.

Definition write_text (path : Path) (content : str) : M unit :=
  fun log =>
    let data :=
      content ++
      (if truthy content && negb (endswith content [LF]) then [LF] else []) in
    let log' := log ++ [WriteText path (lit "utf-8") data] in
    if write_goes_through world log path then (Ok tt, log')
    else (Raise OSError, log').

Definition apply_patch (repo_root worktree_dir patch_path : Path) : M unit :=
  run_git [lit "worktree"; lit "add"; lit "--detach";
           as_posix worktree_dir; lit "HEAD"] repo_root [0%Z] ;;;
  try_except
    (run_git [lit "-C"; as_posix worktree_dir; lit "apply";
              lit "--whitespace=nowarn"; as_posix patch_path]
             repo_root [0%Z] ;;; ret tt)
    (fun exc =>
       match exc with
       | CalledProcessError _ _ _ err =>
           try_except
             (run_git [lit "worktree"; lit "remove"; lit "-f";
                       as_posix worktree_dir] repo_root [0%Z] ;;; ret tt)
             (fun exc' =>
                match exc' with
                | CalledProcessError _ _ _ _ => ret tt
                | _ => raise exc'
                end) ;;;
           raise (RuntimeError
                    (lit "Failed to apply patch: " ++ as_posix patch_path
                     ++ [LF] ++ lit "stderr: " ++ err))
       | _ => raise exc
       end).

(** [Path.relative_to] inside a computation. *)
Definition relative_to_M (p other : Path) : M Path :=
  match relative_to p other with
  | Some r => ret r
  | None => raise ValueError
  end.

Definition generate_outputs (paths : Paths) : M nat :=
  let diff_exit_codes := [0%Z; 1%Z] in
  pre_rel <- relative_to_M (pre_dir paths) (work_base paths) ;;
  post_rel <- relative_to_M (post_dir paths) (work_base paths) ;;
  names <- run_git [lit "diff"; lit "--no-index"; lit "--name-only";
                    as_posix pre_rel; as_posix post_rel]
                   (work_base paths) diff_exit_codes ;;
  stat <- run_git [lit "diff"; lit "--no-index"; lit "--stat";
                   lit "--stat-name-width=200";
                   as_posix pre_rel; as_posix post_rel]
                  (work_base paths) diff_exit_codes ;;
  let normalized_names :=
    normalize_name_output hash_order names (pre_dir paths) (post_dir paths) in
  write_text (name_file paths) normalized_names ;;;
  write_text (stat_file paths)
    (normalize_stat_output hash_order stat (pre_dir paths) (post_dir paths)) ;;;
  delta <- run_git [lit "diff"; lit "--no-index";
                    as_posix pre_rel; as_posix post_rel]
                   (work_base paths) diff_exit_codes ;;
  write_text (delta_file paths)
    (normalize_patch_output hash_order delta (pre_dir paths) (post_dir paths)) ;;;
  ret (if truthy normalized_names
       then List.length (splitlines normalized_names) else 0).

End Engine.

(* ------------------------------------------------------------------ *)
(** * Notions of the design document *)

(** A path in canonical form: repository-relative and unprefixed.  It has
    no surrounding blanks or double quotes, uses forward slashes only, does
    not lie under (or equal) a worktree root, and does not begin with the
    worktree-internal segments [pre/] or [post/]. *)
Definition is_canonical (pre_dir post_dir : Path) (p : str) : bool :=
  str_eqb (strip p) p
  && str_eqb (strip_chars [DQUOTE] p) p
  && negb (mem_char BACKSLASH p)
  && negb (startswith p (as_posix pre_dir ++ lit "/"))
  && negb (str_eqb p (as_posix pre_dir))
  && negb (startswith p (as_posix post_dir ++ lit "/"))
  && negb (str_eqb p (as_posix post_dir))
  && negb (startswith p (lit "pre/"))
  && negb (startswith p (lit "post/")).

(** The same without the demand on backslashes. *)
Definition is_settled (pre_dir post_dir : Path) (p : str) : bool :=
  str_eqb (strip p) p
  && str_eqb (strip_chars [DQUOTE] p) p
  && negb (startswith p (as_posix pre_dir ++ lit "/"))
  && negb (str_eqb p (as_posix pre_dir))
  && negb (startswith p (as_posix post_dir ++ lit "/"))
  && negb (str_eqb p (as_posix post_dir))
  && negb (startswith p (lit "pre/"))
  && negb (startswith p (lit "post/")).

(** A character the header tokeniser takes literally: no blank, no quote
    character, no backslash. *)
Definition plain_char (c : char) : bool :=
  negb (isspace c) && negb (Shlex.quotes c) && negb (Shlex.escape c).

(** Non-empty text of plain characters. *)
Definition is_plain (t : str) : bool := truthy t && forallb plain_char t.

(** What may precede the canonical path [p] in a header token: the
    diff-convention prefix [a/] or [b/], or nothing when [p] cannot be
    mistaken for a prefixed path. *)
Definition is_diff_lead_for (d p : str) : bool :=
  str_eqb d (lit "a/") || str_eqb d (lit "b/")
  || (str_eqb d [] && negb (startswith p (lit "a/"))
      && negb (startswith p (lit "b/"))).

(** The leading prefixes [is_excluded_path] looks through. *)
Definition is_exclusion_lead (d : str) : bool :=
  str_eqb d [] || str_eqb d (lit "./") || str_eqb d (lit "a/")
  || str_eqb d (lit "b/") || str_eqb d (lit "./a/") || str_eqb d (lit "./b/").

(** The version-control metadata directory or something below it. *)
Definition is_git_path (g : str) : bool :=
  str_eqb g (lit ".git") || startswith g (lit ".git/").

(** What follows a block: the end of the text or the next header. *)
Definition at_block_boundary (rest : list str) : Prop :=
  match rest with
  | [] => True
  | h :: _ => startswith h (lit "diff --git ") = true
  end.

(** A line is blank when nothing is left after trimming. *)
Definition is_blank (line : str) : bool := negb (truthy (strip line)).

(** The events that are writes by the program itself. *)
Definition is_write (e : event) : bool :=
  match e with WriteText _ _ _ => true | Git _ _ => false end.

(** The three command lines of [apply_patch], as [subprocess.run] sees
    them. *)
Definition git_worktree_add (worktree_dir : Path) : list str :=
  [lit "git"; lit "worktree"; lit "add"; lit "--detach";
   as_posix worktree_dir; lit "HEAD"].
Definition git_apply (worktree_dir patch_path : Path) : list str :=
  [lit "git"; lit "-C"; as_posix worktree_dir; lit "apply";
   lit "--whitespace=nowarn"; as_posix patch_path].
Definition git_worktree_remove (worktree_dir : Path) : list str :=
  [lit "git"; lit "worktree"; lit "remove"; lit "-f"; as_posix worktree_dir].

(** The message of the error raised for a refused patch. *)
Definition apply_error_message (patch_path : Path) (err : str) : str :=
  lit "Failed to apply patch: " ++ as_posix patch_path
  ++ [LF] ++ lit "stderr: " ++ err.

(** What [write_text] hands to the file for a given content. *)
Definition written (content : str) : str :=
  content ++
  (if truthy content && negb (endswith content [LF]) then [LF] else []).

(** An artifact ends with a newline unless its content is empty, and then
    it is empty. *)
Definition newline_terminated (content : str) : Prop :=
  (content = [] -> written content = [])
  /\ (content <> [] ->
      endswith (written content) [LF] = true
      /\ (written content = content \/ written content = content ++ [LF])).

(** ** Sample data *)

Module Sample.

Definition tmp : Path := mkPath (lit "/") [lit "tmp"].
Definition repo : Path := mkPath (lit "/") [lit "repo"].
Definition scratch : Path := mkPath (lit "/") [lit "tmp"; lit "subagent_repo_janitor_7"].
Definition pre : Path := joinpath scratch (lit "pre").
Definition post : Path := joinpath scratch (lit "post").
Definition out : Path := joinpath repo (lit ".subagent").

Definition paths : Paths :=
  {| output_dir := out;
     pre_patch := joinpath out (lit "pre_janitor.patch");
     post_patch := joinpath out (lit "post_janitor.patch");
     work_base := scratch;
     work_base_parent := tmp;
     work_marker := joinpath scratch WORK_BASE_MARKER_NAME;
     pre_dir := pre;
     post_dir := post;
     delta_file := joinpath out (lit "delta_janitor.patch");
     stat_file := joinpath out (lit "delta_stat_janitor.txt");
     name_file := joinpath out (lit "delta_files_janitor.txt") |}.

(** A file system without links in which the scratch area and its marker
    exist. *)
Definition fs : FileSystem :=
  {| resolve := fun p => p;
     path_exists := fun p =>
       path_eqb p scratch || path_eqb p (work_marker paths)
       || path_eqb p tmp || path_eqb p repo;
     is_dir := fun p =>
       path_eqb p scratch || path_eqb p tmp || path_eqb p repo |}.

Definition ascii_bytes (s : string) : bytes := lit s.

Definition decode_ascii (b : bytes) : option str :=
  if forallb (fun c => N.ltb c 128) b then Some b else None.

(** A [git] that finds no difference and prints nothing. *)
Definition quiet : World :=
  {| cannot_start := fun _ _ _ => false;
     subprocess_run := fun _ _ _ => Some (mkCompleted 0 [] []);
     write_goes_through := fun _ _ => true;
     decode_utf8 := decode_ascii;
     decode_locale := fun b => b |}.

(** A [git] whose [apply] is refused and whose cleanup then succeeds
    ([hang] false) or runs past the timeout ([hang] true). *)
Definition refusing (hang : bool) : World :=
  {| cannot_start := fun _ _ _ => false;
     subprocess_run := fun log _ _ =>
       match List.length log with
       | 0 => Some (mkCompleted 0 [] [])
       | 1 => Some (mkCompleted 1 [] (ascii_bytes "error: patch failed"))
       | _ => if hang then None else Some (mkCompleted 0 [] [])
       end;
     write_goes_through := fun _ _ => true;
     decode_utf8 := decode_ascii;
     decode_locale := fun b => b |}.

(** A [git] whose first answer, to [git diff --name-only], reports three
    changed paths, one of them under the version-control metadata
    directory, with the exit status 1 of a difference found. *)
Definition busy : World :=
  {| cannot_start := fun _ _ _ => false;
     subprocess_run := fun log _ _ =>
       match List.length log with
       | 0 => Some (mkCompleted 1
                      (ascii_bytes "post/src/b.txt" ++ [LF]
                       ++ ascii_bytes "pre/.git/index" ++ [LF]
                       ++ ascii_bytes "post/docs/read me.md" ++ [LF]) [])
       | _ => Some (mkCompleted 0 [] [])
       end;
     write_goes_through := fun _ _ => true;
     decode_utf8 := decode_ascii;
     decode_locale := fun b => b |}.

(** A raw full patch whose first block touches version-control
    metadata. *)
Definition metadata_header : str := lit "diff --git a/pre/.git/x b/post/.git/x".
Definition metadata_body : list str :=
  [lit "index 1..2 100644"; lit "--- a/pre/.git/x"; lit "+++ b/post/.git/x"].
Definition source_block : list str :=
  [lit "diff --git a/pre/s b/post/s"; lit "--- a/pre/s"; lit "+++ /dev/null"].
Definition raw_patch : str :=
  join [LF] (metadata_header :: metadata_body ++ source_block).

End Sample.

(* ------------------------------------------------------------------ *)
(** * The worktree layout *)

(** What the text of every child of [base] begins with: [str(base / s)]
    is this followed by [s]. *)
Definition child_stem (base : Path) : str :=
  root base ++
  match tail base with
  | [] => []
  | _ => join (lit "/") (tail base) ++ lit "/"
  end.

(** A scratch area as [build_paths] leaves it: absolute, and with no
    backslash in its text. *)
Definition is_plain_base (base : Path) : bool :=
  startswith (root base) (lit "/") && negb (mem_char BACKSLASH (child_stem base)).



(** Text without a line boundary of [str.splitlines]. *)
Definition is_one_line (s : str) : bool :=
  forallb (fun c => negb (islinebreak c)) s.

(** A computation that only adds to the log of events. *)
Definition extends_log {A : Type} (m : M A) : Prop :=
  forall log, exists added, snd (m log) = log ++ added.

(* ------------------------------------------------------------------ *)
(** * Headers that name canonical paths *)

(** A character without a meaning of its own to the header tokeniser:
    no quote character and no backslash. *)
Definition simple_char (c : char) : bool :=
  negb (Shlex.quotes c) && negb (Shlex.escape c).

(** What the tokeniser makes of text of such characters, with [token]
    begun: its words, cut at the tokeniser's blanks. *)
Fixpoint words_go (token : str) (s : str) : list str :=
  match s with
  | [] => Shlex.emit false token []
  | c :: r =>
      if Shlex.whitespace c then Shlex.emit false token (words_go [] r)
      else words_go (token ++ [c]) r
  end.

(** The two ways in which a header names a path [p] behind the diff
    prefix [d]: bare, or inside double quotes. *)
Inductive side :=
| Bare (d p : str)
| Quoted (d p : str).

Definition side_text (s : side) : str :=
  match s with
  | Bare d p => d ++ p
  | Quoted d p => [DQUOTE] ++ (d ++ p) ++ [DQUOTE]
  end.

Definition side_path (s : side) : str :=
  match s with Bare _ p => p | Quoted _ p => p end.

Definition side_lead (s : side) : str :=
  match s with Bare d _ => d | Quoted d _ => d end.

(** A character of a bare path that survives the round trip: no quote
    character, no backslash, and if it is white space at all, then one of
    the four blanks of the tokeniser. *)
Definition bare_char (c : char) : bool :=
  simple_char c && (negb (isspace c) || Shlex.whitespace c).

(** A character of a path inside double quotes that needs no escape. *)
Definition quoted_char (c : char) : bool :=
  negb (N.eqb c DQUOTE) && negb (Shlex.escape c).

(** The sides of a header that [handle_diff_header] hands back as they
    are: a canonical path that is not excluded, behind a diff prefix,
    written bare without quote characters, backslashes or white space
    other than the tokeniser's blanks, or written inside double quotes,
    holding white space and no double quote or backslash. *)
Definition is_stable_side (pre_dir post_dir : Path) (s : side) : bool :=
  is_diff_lead_for (side_lead s) (side_path s)
  && is_canonical pre_dir post_dir (side_path s)
  && negb (is_excluded_path (side_path s))
  && match s with
     | Bare _ p => forallb bare_char p
     | Quoted _ p => existsb isspace p && forallb quoted_char p
     end.

(** The tokens that a side contributes to the header. *)
Definition side_tokens (s : side) : list str :=
  match s with
  | Bare d p => words_go [] (d ++ p)
  | Quoted d p => [d ++ p]
  end.

(* ------------------------------------------------------------------ *)
(** * The host: the file system and the process around the engine *)

(** [str(n)] for a natural number. *)
Definition decimal (n : nat) : str :=
  lit (NilZero.string_of_uint (Nat.to_uint n)).

(** [s.split("/")] *)
Fixpoint split_slash (cur : str) (s : str) : list str :=
  match s with
  | [] => [rev cur]
  | c :: r =>
      if N.eqb c SLASH then rev cur :: split_slash [] r
      else split_slash (c :: cur) r
  end.

(** [Path(text)]: the root is ["/"], or ["//"] for exactly two leading
    slashes; empty components and ["."] are dropped. *)
Definition parse_path (text : str) : Path :=
  let rel := lstrip_by (fun c => N.eqb c SLASH) text in
  let slashes := List.length text - List.length rel in
  let root :=
    match slashes with
    | 0 => []
    | 2 => lit "//"
    | _ => lit "/"
    end in
  mkPath root
    (filter (fun x => truthy x && negb (str_eqb x (lit ".")))
            (split_slash [] rel)).

(** [p / text] *)
Definition div (p : Path) (text : str) : Path :=
  let q := parse_path text in
  if truthy (root q) then q else mkPath (root p) (tail p ++ tail q).

(** [p.is_absolute()] *)
Definition is_absolute (p : Path) : bool := truthy (root p).

(** What the program does to the outside, one level up: the events of
    the engine, and removing a tree, making a directory and printing. *)
Inductive action :=
| Did (e : event)
| Rmtree (path : Path)
| Mkdir (path : Path)
| Print (line : str).

Inductive failure :=
| Exn (e : exn)
| FileNotFoundError (msg : str).

Inductive outcome (A : Type) :=
| Done (a : A)
| Failed (f : failure).
Arguments Done {A} a.
Arguments Failed {A} f.

(** The questions the program puts to the file system: [Path.cwd],
    [tempfile.gettempdir], [Path.resolve], [Path.exists], and the two
    guards, each of which resolves and tests several paths. *)
Inductive inquiry :=
| AskCwd
| AskTempDir
| AskResolve (path : Path)
| AskExists (path : Path)
| AskSafeBase (paths : Paths) (repo_root : Path)
| AskSafeWorktree (worktree_dir : Path) (paths : Paths) (repo_root : Path).

(** The outside as the whole program meets it.  Every answer may depend
    on all that has been done so far.  [host_refuses] tells whether a
    question to the file system raises instead of answering ([OSError]
    for a path that cannot be read, [RuntimeError] for a loop of links),
    and [host_files] is what it answers otherwise. *)
Record Host := mkHost {
  host_refuses : list action -> inquiry -> option exn;
  host_cannot_start : list action -> list str -> str -> bool;
  host_run : list action -> list str -> str -> option CompletedProcess;
  host_write : list action -> Path -> bool;
  host_utf8 : bytes -> option str;
  host_locale : bytes -> str;
  host_files : list action -> FileSystem;
  host_rmtree : list action -> Path -> bool;
  host_mkdir : list action -> Path -> bool;
  host_print : list action -> str -> bool;
  host_cwd : Path;
  host_tmp : str;
  host_pid : nat
}.

(** The engine's view of the outside after [done]. *)
Definition world_at (h : Host) (done : list action) : World :=
  {| cannot_start := fun log =>
       host_cannot_start h (done ++ List.map Did log);
     subprocess_run := fun log => host_run h (done ++ List.map Did log);
     write_goes_through := fun log => host_write h (done ++ List.map Did log);
     decode_utf8 := host_utf8 h;
     decode_locale := host_locale h |}.

Definition H (A : Type) : Type := list action -> outcome A * list action.

Definition hret {A} (a : A) : H A := fun done => (Done a, done).
Definition hraise {A} (f : failure) : H A := fun done => (Failed f, done).
Definition hbind {A B} (m : H A) (k : A -> H B) : H B :=
  fun done =>
    match m done with
    | (Done a, done') => k a done'
    | (Failed f, done') => (Failed f, done')
    end.

Notation "x <~ m ;; k" := (hbind m (fun x => k))
  (at level 61, m at next level, right associativity).
Notation "m ~>> k" := (hbind m (fun _ => k))
  (at level 61, right associativity).

(** An engine computation run by the host. *)
Definition engine {A} (h : Host) (m : World -> M A) : H A :=
  fun done =>
    match m (world_at h done) [] with
    | (Ok a, log) => (Done a, done ++ List.map Did log)
    | (Raise e, log) => (Failed (Exn e), done ++ List.map Did log)
    end.

(** A question to the file system as it is now ([resolve], [exists],
    [is_dir]): it raises, or answers from the files; it changes
    nothing. *)
Definition look {A} (h : Host) (q : inquiry) (f : FileSystem -> A) : H A :=
  fun done =>
    match host_refuses h done q with
    | Some e => (Failed (Exn e), done)
    | None => (Done (f (host_files h done)), done)
    end.

(** [try: m  except Exception: pass] *)
Definition swallow (m : H unit) : H unit :=
  fun done =>
    match m done with
    | (Done a, done') => (Done a, done')
    | (Failed _, done') => (Done tt, done')
    end.

(** [try: m  finally: c] *)
Definition finally {A} (m : H A) (c : H unit) : H A :=
  fun done =>
    match m done with
    | (r, done') =>
        match c done' with
        | (Done _, done'') => (r, done'')
        | (Failed f, done'') => (Failed f, done'')
        end
    end.

(** [shutil.rmtree(path)] *)
Definition rmtree (h : Host) (path : Path) : H unit :=
  fun done =>
    if host_rmtree h done path then (Done tt, done ++ [Rmtree path])
    else (Failed (Exn OSError), done ++ [Rmtree path]).

(** [path.mkdir(parents=True, exist_ok=True)] *)
Definition mkdir (h : Host) (path : Path) : H unit :=
  fun done =>
    if host_mkdir h done path then (Done tt, done ++ [Mkdir path])
    else (Failed (Exn OSError), done ++ [Mkdir path]).

(** [print(line)]; it raises when the standard output cannot take the
    line. *)
Definition print (h : Host) (line : str) : H unit :=
  fun done =>
    if host_print h done line then (Done tt, done ++ [Print line])
    else (Failed (Exn OSError), done ++ [Print line]).

(** The parsed command line ([parse_args]). *)
Record Args := mkArgs {
  subagent : str;
  arg_repo_root : str;
  arg_output_dir : str;
  arg_work_base : str;
  arg_pre_patch : str;
  arg_post_patch : str;
  keep_worktrees : bool
}.

Section Program.

Variable host : Host.
Variable hash_order : bool.

Definition ensure_repo_root (repo_root : option Path) : H Path :=
  match repo_root with
  | Some given => look host (AskResolve given) (fun fs => resolve fs given)
  | None =>
      cwd <~ look host AskCwd (fun _ => host_cwd host) ;;
      top <~ engine host (fun w =>
               run_git w [lit "rev-parse"; lit "--show-toplevel"]
                       cwd [0%Z]) ;;
      if negb (truthy top) then
        hraise (Exn (RuntimeError (lit "Could not resolve repo root.")))
      else look host (AskResolve (parse_path top))
             (fun fs => resolve fs (parse_path top))
  end.

Definition remove_worktree (repo_root worktree_dir : Path) : H unit :=
  present <~ look host (AskExists worktree_dir)
               (fun fs => path_exists fs worktree_dir) ;;
  if present then
    engine host (fun w =>
      run_git w [lit "worktree"; lit "remove"; lit "-f";
                 as_posix worktree_dir] repo_root [0%Z; 128%Z]) ~>>
    hret tt
  else hret tt.

Definition build_paths (args : Args) (repo_root : Path) : H Paths :=
  output_dir <~ look host (AskResolve (div repo_root (arg_output_dir args)))
                  (fun fs => resolve fs (div repo_root (arg_output_dir args))) ;;
  mkdir host output_dir ~>>
  pre_patch <~ (if truthy (arg_pre_patch args)
                then look host (AskResolve (parse_path (arg_pre_patch args)))
                       (fun fs => resolve fs (parse_path (arg_pre_patch args)))
                else hret (div output_dir
                             (lit "pre_" ++ subagent args ++ lit ".patch"))) ;;
  post_patch <~ (if truthy (arg_post_patch args)
                 then look host (AskResolve (parse_path (arg_post_patch args)))
                        (fun fs => resolve fs (parse_path (arg_post_patch args)))
                 else hret (div output_dir
                              (lit "post_" ++ subagent args ++ lit ".patch"))) ;;
  work_base <~ (if truthy (arg_work_base args) then
                  let given := parse_path (arg_work_base args) in
                  if negb (is_absolute given)
                  then look host
                         (AskResolve (div repo_root (arg_work_base args)))
                         (fun fs =>
                            resolve fs (div repo_root (arg_work_base args)))
                  else look host (AskResolve given)
                         (fun fs => resolve fs given)
                else
                  tmp <~ look host AskTempDir (fun _ => host_tmp host) ;;
                  let temp_root := parse_path tmp in
                  let fresh :=
                    div temp_root
                      (lit "subagent_" ++ name repo_root ++ lit "_"
                       ++ subagent args ++ lit "_"
                       ++ decimal (host_pid host)) in
                  look host (AskResolve fresh) (fun fs => resolve fs fresh)) ;;
  let pre_dir := div work_base (lit "pre") in
  let post_dir := div work_base (lit "post") in
  work_base_parent <~ (if truthy (arg_work_base args)
                       then look host (AskResolve (parent work_base))
                              (fun fs => resolve fs (parent work_base))
                       else
                         tmp <~ look host AskTempDir
                                  (fun _ => host_tmp host) ;;
                         look host (AskResolve (parse_path tmp))
                           (fun fs => resolve fs (parse_path tmp))) ;;
  let work_marker := div work_base WORK_BASE_MARKER_NAME in
  let delta_file :=
    div output_dir (lit "delta_" ++ subagent args ++ lit ".patch") in
  let stat_file :=
    div output_dir (lit "delta_stat_" ++ subagent args ++ lit ".txt") in
  let name_file :=
    div output_dir (lit "delta_files_" ++ subagent args ++ lit ".txt") in
  hret {| output_dir := output_dir;
          pre_patch := pre_patch;
          post_patch := post_patch;
          work_base := work_base;
          work_base_parent := work_base_parent;
          work_marker := work_marker;
          pre_dir := pre_dir;
          post_dir := post_dir;
          delta_file := delta_file;
          stat_file := stat_file;
          name_file := name_file |}.

Definition ensure_patches_exist (paths : Paths) : H unit :=
  pre_there <~ look host (AskExists (pre_patch paths))
                 (fun fs => path_exists fs (pre_patch paths)) ;;
  if negb pre_there then
    hraise (FileNotFoundError
              (lit "Missing pre patch: " ++ as_posix (pre_patch paths)))
  else
    post_there <~ look host (AskExists (post_patch paths))
                    (fun fs => path_exists fs (post_patch paths)) ;;
    if negb post_there then
      hraise (FileNotFoundError
                (lit "Missing post patch: " ++ as_posix (post_patch paths)))
    else hret tt.

Definition prepare_work_base (paths : Paths) (repo_root : Path) : H unit :=
  (there <~ look host (AskExists (work_base paths))
              (fun fs => path_exists fs (work_base paths)) ;;
   if there then
     safe <~ look host (AskSafeBase paths repo_root)
               (fun fs => is_safe_work_base_target fs paths repo_root) ;;
     if negb safe then
       hraise (Exn (RuntimeError
                      (lit "Refusing to delete unsafe work_base: "
                       ++ as_posix (work_base paths)
                       ++ lit " (marker missing or outside expected parent).")))
     else rmtree host (work_base paths)
   else hret tt) ~>>
  mkdir host (work_base paths) ~>>
  engine host (fun w =>
    write_text w (work_marker paths) (lit "created-by=subagent_diff.py")).

Definition print_summary (agent : str) (files_changed : nat) (paths : Paths)
  : H unit :=
  print host (lit "Subagent: " ++ agent) ~>>
  print host (lit "Files changed: " ++ decimal files_changed) ~>>
  print host (lit "Saved: " ++ as_posix (name_file paths)) ~>>
  print host (lit "Saved: " ++ as_posix (stat_file paths)) ~>>
  print host (lit "Saved: " ++ as_posix (delta_file paths)).

(** One turn of the loop of [cleanup] over the two worktrees: the guard
    is asked outside the [try], the removal runs inside it. *)
Definition cleanup_worktree (repo_root : Path) (paths : Paths)
           (worktree : Path) : H unit :=
  safe <~ look host (AskSafeWorktree worktree paths repo_root)
            (fun fs => is_safe_worktree_dir fs worktree paths repo_root) ;;
  if negb safe then hret tt
  else swallow (remove_worktree repo_root worktree).

Definition cleanup (repo_root : Path) (paths : Paths) (keep : bool) : H unit :=
  if keep then hret tt
  else
    cleanup_worktree repo_root paths (pre_dir paths) ~>>
    cleanup_worktree repo_root paths (post_dir paths) ~>>
    swallow
      (safe <~ look host (AskSafeBase paths repo_root)
                 (fun fs => is_safe_work_base_target fs paths repo_root) ;;
       if safe then rmtree host (work_base paths) else hret tt).

(** [main], given the parsed command line. *)
Definition main (args : Args) : H nat :=
  repo_root <~ ensure_repo_root
                 (if truthy (arg_repo_root args)
                  then Some (parse_path (arg_repo_root args)) else None) ;;
  paths <~ build_paths args repo_root ;;
  ensure_patches_exist paths ~>>
  prepare_work_base paths repo_root ~>>
  finally
    (engine host (fun w =>
       apply_patch w repo_root (pre_dir paths) (pre_patch paths)) ~>>
     engine host (fun w =>
       apply_patch w repo_root (post_dir paths) (post_patch paths)) ~>>
     files_changed <~ engine host (fun w =>
                        generate_outputs w hash_order paths) ;;
     print_summary (subagent args) files_changed paths)
    (cleanup repo_root paths (keep_worktrees args)) ~>>
  hret 0.

End Program.

(* ------------------------------------------------------------------ *)
(** * What the host-level functions may do *)

(** Every removal of a tree among [added], carried out after [done], is
    allowed by [ok] in the state in which it is carried out. *)
Fixpoint removals_allowed (ok : list action -> Path -> Prop)
         (done added : list action) : Prop :=
  match added with
  | [] => True
  | a :: rest =>
      match a with
      | Rmtree p => ok done p
      | _ => True
      end
      /\ removals_allowed ok (done ++ [a]) rest
  end.

(** A computation that only adds actions, with every removal allowed. *)
Definition keeps_to {A : Type} (ok : list action -> Path -> Prop) (m : H A)
  : Prop :=
  forall done, exists added,
    snd (m done) = done ++ added /\ removals_allowed ok done added.

(** Removing the scratch area of [paths], and only while the guard
    answers and accepts it. *)
Definition scratch_removal (h : Host) (paths : Paths) (repo_root : Path)
  : list action -> Path -> Prop :=
  fun done p =>
    p = work_base paths
    /\ host_refuses h done (AskSafeBase paths repo_root) = None
    /\ is_safe_work_base_target (host_files h done) paths repo_root = true.

(** Every action among [added], carried out after [done], is allowed by
    [ok] in the state in which it is carried out. *)
Fixpoint actions_allowed (ok : list action -> action -> Prop)
         (done added : list action) : Prop :=
  match added with
  | [] => True
  | a :: rest => ok done a /\ actions_allowed ok (done ++ [a]) rest
  end.

(** A computation that only adds actions, each of them allowed. *)
Definition does_only {A : Type} (ok : list action -> action -> Prop) (m : H A)
  : Prop :=
  forall done, exists added,
    snd (m done) = done ++ added /\ actions_allowed ok done added.

(** What [cleanup] may do.  It may remove the scratch area as a tree while
    [is_safe_work_base_target] answers and accepts it.  It may have [git]
    drop one of the two worktrees, from the repository root, while
    [is_safe_worktree_dir] answers and accepts that worktree and the
    worktree exists.  Nothing else. *)
Definition cleanup_action (h : Host) (paths : Paths) (repo_root : Path)
  : list action -> action -> Prop :=
  fun done a =>
    match a with
    | Rmtree p => scratch_removal h paths repo_root done p
    | Did (Git cmd cwd) =>
        cwd = as_posix repo_root
        /\ exists worktree,
            (worktree = pre_dir paths \/ worktree = post_dir paths)
            /\ cmd = git_worktree_remove worktree
            /\ host_refuses h done (AskSafeWorktree worktree paths repo_root)
               = None
            /\ is_safe_worktree_dir (host_files h done) worktree paths repo_root
               = true
            /\ host_refuses h done (AskExists worktree) = None
            /\ path_exists (host_files h done) worktree = true
    | _ => False
    end.

(** A [git] command line that drops a worktree. *)
Definition is_worktree_removal (cmd : list str) : bool :=
  match cmd with
  | _ :: a :: b :: _ => str_eqb a (lit "worktree") && str_eqb b (lit "remove")
  | _ => false
  end.

(** What [main] may remove once it has its paths.  It may remove the
    scratch area as a tree while [is_safe_work_base_target] answers and
    accepts it.  It may have [git] drop a worktree, from the repository
    root, if it is one of the two worktrees of its paths. *)
Definition main_action (h : Host) (paths : Paths) (repo_root : Path)
  : list action -> action -> Prop :=
  fun done a =>
    match a with
    | Rmtree p => scratch_removal h paths repo_root done p
    | Did (Git cmd cwd) =>
        is_worktree_removal cmd = true ->
        cwd = as_posix repo_root
        /\ (cmd = git_worktree_remove (pre_dir paths)
            \/ cmd = git_worktree_remove (post_dir paths))
    | _ => True
    end.

(** No tree is removed and no worktree is dropped. *)
Definition no_removal_action : list action -> action -> Prop :=
  fun _ a =>
    match a with
    | Rmtree _ => False
    | Did (Git cmd _) => is_worktree_removal cmd = false
    | _ => True
    end.

(** The events that drop no worktree but [worktree]. *)
Definition drops_only (repo_root worktree : Path) (e : event) : Prop :=
  match e with
  | Git cmd cwd =>
      is_worktree_removal cmd = true ->
      cwd = as_posix repo_root /\ cmd = git_worktree_remove worktree
  | WriteText _ _ _ => True
  end.

(** An engine computation that only adds events, each of them allowed. *)
Definition emits_only {A : Type} (ok : event -> Prop) (m : M A) : Prop :=
  forall log, exists added, snd (m log) = log ++ added /\ Forall ok added.

(** The actions that leave no text behind: no file is written and
    nothing is printed. *)
Definition is_silent (a : action) : bool :=
  match a with
  | Did (WriteText _ _ _) => false
  | Print _ => false
  | _ => true
  end.

(** A computation that only adds actions, all of them silent. *)
Definition stays_silent {A : Type} (m : H A) : Prop :=
  forall done, exists added,
    snd (m done) = done ++ added /\ forallb is_silent added = true.

(** ** A sample host *)

Module Demo.

Definition args : Args :=
  {| subagent := lit "janitor";
     arg_repo_root := lit "/repo";
     arg_output_dir := lit ".subagent";
     arg_work_base := [];
     arg_pre_patch := [];
     arg_post_patch := [];
     keep_worktrees := false |}.

(** The sample file system with both patch files in place. *)
Definition fs : FileSystem :=
  {| resolve := fun p => p;
     path_exists := fun p =>
       path_exists Sample.fs p
       || path_eqb p (pre_patch Sample.paths)
       || path_eqb p (post_patch Sample.paths)
       || path_eqb p Sample.pre || path_eqb p Sample.post;
     is_dir := fun p =>
       is_dir Sample.fs p || path_eqb p Sample.pre || path_eqb p Sample.post |}.

Definition same_command (a b : list str) : bool :=
  path_eqb (mkPath [] a) (mkPath [] b).

(** A host whose [git] refuses the post patch and accepts all else. *)
Definition host : Host :=
  {| host_refuses := fun _ _ => None;
     host_cannot_start := fun _ _ _ => false;
     host_run := fun _ cmd _ =>
       if same_command cmd (git_apply Sample.post (post_patch Sample.paths))
       then Some (mkCompleted 1 [] (Sample.ascii_bytes "error: patch does not apply"))
       else Some (mkCompleted 0 [] []);
     host_write := fun _ _ => true;
     host_utf8 := Sample.decode_ascii;
     host_locale := fun b => b;
     host_files := fun _ => fs;
     host_rmtree := fun _ _ => true;
     host_mkdir := fun _ _ => true;
     host_print := fun _ _ => true;
     host_cwd := Sample.repo;
     host_tmp := lit "/tmp";
     host_pid := 7 |}.

(** The same without the pre patch. *)
Definition bare : Host :=
  {| host_refuses := host_refuses host;
     host_cannot_start := host_cannot_start host;
     host_run := host_run host;
     host_write := host_write host;
     host_utf8 := host_utf8 host;
     host_locale := host_locale host;
     host_files := fun _ => Sample.fs;
     host_rmtree := host_rmtree host;
     host_mkdir := host_mkdir host;
     host_print := host_print host;
     host_cwd := host_cwd host;
     host_tmp := host_tmp host;
     host_pid := host_pid host |}.

(** The sample host on which the guard of the worktrees cannot read the
    scratch area: [is_safe_worktree_dir] raises. *)
Definition locked : Host :=
  {| host_refuses := fun _ q =>
       match q with
       | AskSafeWorktree _ _ _ => Some OSError
       | _ => None
       end;
     host_cannot_start := host_cannot_start host;
     host_run := host_run host;
     host_write := host_write host;
     host_utf8 := host_utf8 host;
     host_locale := host_locale host;
     host_files := host_files host;
     host_rmtree := host_rmtree host;
     host_mkdir := host_mkdir host;
     host_print := host_print host;
     host_cwd := host_cwd host;
     host_tmp := host_tmp host;
     host_pid := host_pid host |}.

End Demo.

(* ------------------------------------------------------------------ *)
(** * Facts about text *)

Lemma str_eqb_eq (a b : str) : str_eqb a b = true <-> a = b.
Proof.
  revert b; induction a as [|x a IH]; intros [|y b]; simpl; split;
    try congruence; try reflexivity.
  - intros H. apply andb_true_iff in H as [Hx Hr].
    apply N.eqb_eq in Hx. apply IH in Hr. congruence.
  - intros H. injection H as -> ->.
    rewrite N.eqb_refl. simpl. now apply IH.
Qed.

Lemma str_eqb_refl (a : str) : str_eqb a a = true.
Proof. now apply str_eqb_eq. Qed.

Lemma str_eqb_neq (a b : str) : str_eqb a b = false <-> a <> b.
Proof.
  split.
  - intros H E. apply str_eqb_eq in E. congruence.
  - intros H. destruct (str_eqb a b) eqn:E; [|reflexivity].
    apply str_eqb_eq in E. contradiction.
Qed.

Lemma startswith_iff (s p : str) :
  startswith s p = true <-> exists t, s = p ++ t.
Proof.
  revert s; induction p as [|a p IH]; intros s; simpl.
  - split; [intros _; now exists s | reflexivity].
  - destruct s as [|b s].
    + split; [discriminate | intros [t Ht]; discriminate].
    + rewrite andb_true_iff, N.eqb_eq, IH. split.
      * intros [-> [t ->]]. now exists t.
      * intros [t Ht]. injection Ht as -> ->. split; [reflexivity | now exists t].
Qed.

Lemma startswith_app (p t : str) : startswith (p ++ t) p = true.
Proof. apply startswith_iff. now exists t. Qed.

Lemma slice_from_app (p t : str) : slice_from (List.length p) (p ++ t) = t.
Proof. unfold slice_from. induction p; simpl; auto. Qed.

Lemma lstrip_by_keep (f : char -> bool) (c : char) (s : str) :
  f c = false -> lstrip_by f (c :: s) = c :: s.
Proof. intros H. simpl. now rewrite H. Qed.

Lemma rstrip_by_keep (f : char -> bool) (c : char) (s : str) :
  f c = false -> rstrip_by f (c :: s) = c :: rstrip_by f s.
Proof. intros H. simpl. destruct (rstrip_by f s); [now rewrite H | reflexivity]. Qed.

Lemma rstrip_by_cons (f : char -> bool) (x : char) (s : str) :
  rstrip_by f s <> [] -> rstrip_by f (x :: s) = x :: rstrip_by f s.
Proof. intros H. simpl. destruct (rstrip_by f s); [contradiction | reflexivity]. Qed.

(** Stripping on the right never reaches past a character that stays. *)
Lemma rstrip_by_app_keep (f : char -> bool) (h : str) (c : char) (t : str) :
  f c = false -> rstrip_by f (h ++ c :: t) = h ++ c :: rstrip_by f t.
Proof.
  intros H. induction h as [|x h IH].
  - now apply rstrip_by_keep.
  - change ((x :: h) ++ c :: t) with (x :: (h ++ c :: t)).
    rewrite rstrip_by_cons; rewrite IH; [reflexivity|].
    destruct h; discriminate.
Qed.

Lemma rstrip_by_none (f : char -> bool) (s : str) :
  forallb (fun c => negb (f c)) s = true -> rstrip_by f s = s.
Proof.
  induction s as [|c s IH]; simpl; [reflexivity|].
  intros H. apply andb_true_iff in H as [Hc Hs].
  apply negb_true_iff in Hc. rewrite (IH Hs).
  destruct s; [now rewrite Hc | reflexivity].
Qed.

Lemma lstrip_by_none (f : char -> bool) (s : str) :
  forallb (fun c => negb (f c)) s = true -> lstrip_by f s = s.
Proof.
  destruct s as [|c s]; simpl; [reflexivity|].
  intros H. apply andb_true_iff in H as [Hc _].
  apply negb_true_iff in Hc. now rewrite Hc.
Qed.

Lemma strip_by_none (f : char -> bool) (s : str) :
  forallb (fun c => negb (f c)) s = true -> strip_by f s = s.
Proof.
  intros H. unfold strip_by. rewrite (lstrip_by_none f s H).
  now apply rstrip_by_none.
Qed.

Lemma In_lstrip_by (f : char -> bool) (c : char) (s : str) :
  In c (lstrip_by f s) -> In c s.
Proof.
  induction s as [|x s IH]; simpl; [tauto|].
  destruct (f x); simpl; tauto.
Qed.

Lemma In_rstrip_by (f : char -> bool) (c : char) (s : str) :
  In c (rstrip_by f s) -> In c s.
Proof.
  induction s as [|x s IH]; simpl; [tauto|].
  destruct (rstrip_by f s) as [|y r].
  - destruct (f x); simpl; tauto.
  - intros [->|H]; [now left | right; now apply IH].
Qed.

Lemma In_strip_by (f : char -> bool) (c : char) (s : str) :
  In c (strip_by f s) -> In c s.
Proof.
  unfold strip_by. intros H. apply In_rstrip_by in H.
  now apply In_lstrip_by in H.
Qed.

Lemma In_slice_from (n : nat) (c : char) (s : str) :
  In c (slice_from n s) -> In c s.
Proof.
  unfold slice_from. revert s; induction n as [|n IH]; intros s; simpl; [tauto|].
  destruct s; simpl; [tauto|]. intros H. right. now apply IH.
Qed.

Lemma replace_absent (old : char) (new s : str) :
  ~ In old s -> replace old new s = s.
Proof.
  unfold replace. induction s as [|c s IH]; simpl; [reflexivity|].
  intros H. destruct (N.eqb_spec c old) as [->|Hne].
  - exfalso. apply H. now left.
  - simpl. f_equal. apply IH. intros Hin. apply H. now right.
Qed.

Lemma replace_removes (old : char) (new s : str) :
  ~ In old new -> ~ In old (replace old new s).
Proof.
  intros Hnew. unfold replace. induction s as [|c s IH]; simpl; [tauto|].
  intros H. apply in_app_or in H as [H|H]; [|tauto].
  destruct (N.eqb_spec c old) as [->|Hne]; [tauto|].
  destruct H as [H|[]]. congruence.
Qed.

Lemma mem_char_In (c : char) (s : str) : mem_char c s = true <-> In c s.
Proof.
  unfold mem_char. rewrite existsb_exists. split.
  - intros [x [Hx E]]. apply N.eqb_eq in E. now subst.
  - intros H. exists c. split; [assumption | apply N.eqb_refl].
Qed.

Lemma path_eqb_eq (p q : Path) : path_eqb p q = true <-> p = q.
Proof.
  destruct p as [rp tp], q as [rq tq]. unfold path_eqb. simpl.
  rewrite andb_true_iff, str_eqb_eq.
  assert (L : forall a b,
    (fix eqs (a b : list str) : bool :=
       match a, b with
       | [], [] => true
       | x :: a', y :: b' => str_eqb x y && eqs a' b'
       | _, _ => false
       end) a b = true <-> a = b).
  { induction a as [|x a IH]; intros [|y b]; split; try congruence;
      try reflexivity; try discriminate.
    - intros H. apply andb_true_iff in H as [Hx Hr].
      apply str_eqb_eq in Hx. apply IH in Hr. congruence.
    - intros H. injection H as -> ->. apply andb_true_iff. split;
        [apply str_eqb_refl | now apply IH]. }
  rewrite L. split; [intros [-> ->]; reflexivity | intros H; now injection H].
Qed.

(* ------------------------------------------------------------------ *)
(** * SafetyGuard: properties *)

Lemma strip_parts_iff (whole base : list str) (rest : list str) :
  strip_parts whole base = Some rest <-> whole = base ++ rest.
Proof.
  revert whole; induction base as [|b base IH]; intros whole; simpl.
  - split; [intros H; now injection H | intros ->; reflexivity].
  - destruct whole as [|w whole]; [split; discriminate|].
    destruct (str_eqb w b) eqn:E.
    + apply str_eqb_eq in E. subst w. rewrite IH. split; [now intros -> |].
      intros H. simpl in H. now injection H.
    + apply str_eqb_neq in E. split; [discriminate|].
      intros H. simpl in H. injection H as H _. contradiction.
Qed.

Lemma strip_parts_refl (parts : list str) : strip_parts parts parts = Some [].
Proof. apply strip_parts_iff. now rewrite app_nil_r. Qed.

Lemma is_relative_to_iff (path parent_ : Path) :
  is_relative_to path parent_ = true <->
  root path = root parent_ /\ exists rest, tail path = tail parent_ ++ rest.
Proof.
  unfold is_relative_to, relative_to.
  destruct (str_eqb (root path) (root parent_)) eqn:E.
  - apply str_eqb_eq in E.
    destruct (strip_parts (tail path) (tail parent_)) as [rest|] eqn:S.
    + apply strip_parts_iff in S. split; [intros _|reflexivity].
      split; [assumption | now exists rest].
    + split; [discriminate|]. intros [_ [rest Hrest]].
      apply strip_parts_iff in Hrest. congruence.
  - apply str_eqb_neq in E. split; [discriminate | intros [H _]; contradiction].
Qed.

(** C9 (as the code has it).  [is_relative_to path parent] holds exactly
    when [parent]'s root and components are a leading part of [path]'s; the
    containment is not strict, since every path is relative to itself; and
    the answer is false exactly when [Path.relative_to] raises
    [ValueError]. *)
Theorem is_relative_to_reflexive_containment (path parent_ : Path) :
  (is_relative_to path parent_ = true <->
   root path = root parent_ /\ exists rest, tail path = tail parent_ ++ rest)
  /\ is_relative_to path path = true
  /\ (is_relative_to path parent_ = false <-> relative_to path parent_ = None).
Proof.
  split; [apply is_relative_to_iff|]. split.
  - apply is_relative_to_iff. split; [reflexivity|].
    exists []. now rewrite app_nil_r.
  - unfold is_relative_to. destruct (relative_to path parent_);
      split; congruence.
Qed.

(** C9 fails as stated: the scratch parent [/tmp] is relative to itself. *)
Lemma is_relative_to_not_strict :
  Sample.tmp = Sample.tmp /\ is_relative_to Sample.tmp Sample.tmp = true.
Proof. split; reflexivity. Qed.

(** C1.  [is_safe_work_base_target] answers true exactly when the resolved
    scratch path exists, is a directory, is no file-system root, lies in
    the resolved repository root or in the resolved scratch parent, equals
    neither, and the marker exists or the directory name carries
    [subagent_].  So it refuses a file-system root, the repository root
    itself, and a directory with neither marker nor name, wherever it
    lies. *)
Theorem is_safe_work_base_target_conditions
        (fs : FileSystem) (paths : Paths) (repo_root : Path) :
  let scratch := resolve fs (work_base paths) in
  let repo := resolve fs repo_root in
  let expected := resolve fs (work_base_parent paths) in
  (is_safe_work_base_target fs paths repo_root = true <->
     path_exists fs scratch = true
     /\ is_dir fs scratch = true
     /\ is_top_level_path fs scratch = false
     /\ (is_relative_to scratch repo = true
         \/ is_relative_to scratch expected = true)
     /\ scratch <> repo
     /\ scratch <> expected
     /\ (path_exists fs (work_marker paths) = true
         \/ contains (name scratch) (lit "subagent_") = true))
  /\ (is_top_level_path fs scratch = true ->
      is_safe_work_base_target fs paths repo_root = false)
  /\ (scratch = repo -> is_safe_work_base_target fs paths repo_root = false)
  /\ (path_exists fs (work_marker paths) = false ->
      contains (name scratch) (lit "subagent_") = false ->
      is_safe_work_base_target fs paths repo_root = false).
Proof.
  intros scratch repo expected.
  assert (Main : is_safe_work_base_target fs paths repo_root = true <->
     path_exists fs scratch = true
     /\ is_dir fs scratch = true
     /\ is_top_level_path fs scratch = false
     /\ (is_relative_to scratch repo = true
         \/ is_relative_to scratch expected = true)
     /\ scratch <> repo
     /\ scratch <> expected
     /\ (path_exists fs (work_marker paths) = true
         \/ contains (name scratch) (lit "subagent_") = true)).
  { unfold is_safe_work_base_target.
    fold scratch. fold repo. fold expected.
    destruct (path_exists fs scratch); simpl;
      [| split; [discriminate | intros [H _]; discriminate]].
    destruct (is_dir fs scratch); simpl;
      [| split; [discriminate | intros [_ [H _]]; discriminate]].
    destruct (is_top_level_path fs scratch); simpl;
      [split; [discriminate | intros [_ [_ [H _]]]; discriminate] |].
    destruct (is_relative_to scratch repo || is_relative_to scratch expected)
      eqn:Hin; simpl.
    2:{ apply orb_false_iff in Hin as [H1 H2]. split; [discriminate|].
        intros [_ [_ [_ [[H|H] _]]]]; congruence. }
    apply orb_true_iff in Hin.
    destruct (path_eqb scratch repo) eqn:E1; simpl.
    { apply path_eqb_eq in E1. split; [discriminate|].
      intros [_ [_ [_ [_ [H _]]]]]. contradiction. }
    destruct (path_eqb scratch expected) eqn:E2; simpl.
    { apply path_eqb_eq in E2. split; [discriminate|].
      intros [_ [_ [_ [_ [_ [H _]]]]]]. contradiction. }
    assert (N1 : scratch <> repo)
      by (intros E; apply path_eqb_eq in E; congruence).
    assert (N2 : scratch <> expected)
      by (intros E; apply path_eqb_eq in E; congruence).
    rewrite orb_true_iff. split.
    - intros H. repeat split; assumption.
    - intros [_ [_ [_ [_ [_ [_ H]]]]]]. exact H. }
  split; [exact Main|].
  split; [|split].
  - intros Htop.
    destruct (is_safe_work_base_target fs paths repo_root) eqn:S; [|reflexivity].
    destruct (proj1 Main eq_refl) as [_ [_ [H _]]]. congruence.
  - intros Heq.
    destruct (is_safe_work_base_target fs paths repo_root) eqn:S; [|reflexivity].
    destruct (proj1 Main eq_refl) as [_ [_ [_ [_ [H _]]]]]. contradiction.
  - intros Hm Hn.
    destruct (is_safe_work_base_target fs paths repo_root) eqn:S; [|reflexivity].
    destruct (proj1 Main eq_refl) as [_ [_ [_ [_ [_ [_ [H|H]]]]]]]; congruence.
Qed.

(** The guard accepts the sample scratch area, and for the reasons of the
    theorem. *)
Lemma is_safe_work_base_target_conditions_witness :
  is_safe_work_base_target Sample.fs Sample.paths Sample.repo = true
  /\ path_exists Sample.fs Sample.scratch = true
  /\ is_relative_to Sample.scratch Sample.tmp = true
  /\ Sample.scratch <> Sample.tmp.
Proof.
  pose proof (proj1 (proj1 (is_safe_work_base_target_conditions
                              Sample.fs Sample.paths Sample.repo))
                    eq_refl) as H.
  split; [reflexivity|].
  destruct H as [H1 [_ [_ [_ [_ [H2 _]]]]]].
  split; [exact H1|]. split; [reflexivity | exact H2].
Defined.

(* ------------------------------------------------------------------ *)
(** * The line-oriented drivers *)

Lemma split_once_absent (sep : char) (s : str) :
  contains_char sep s = false -> split_once sep s = None.
Proof.
  unfold contains_char, mem_char. induction s as [|c s IH]; simpl;
    [reflexivity|].
  intros H. apply orb_false_iff in H as [Hc Hs].
  rewrite N.eqb_sym in Hc. rewrite Hc, (IH Hs). reflexivity.
Qed.

Lemma stat_line_plain (ho : bool) (line : str) (pre post : Path) :
  contains_char PIPE line = false ->
  is_blank line = false ->
  stat_line ho line pre post = [lstrip line].
Proof.
  intros Hp Hb. unfold stat_line. unfold is_blank in Hb. rewrite Hb.
  now rewrite (split_once_absent PIPE line Hp).
Qed.

(** C10 (as the code has it).  A line of the raw stat output that has no
    ['|'] and is not blank is kept, with only its leading blanks removed:
    it is never dropped and never path-normalised, whatever its text. *)
Theorem normalize_stat_output_keeps_unseparated_line
        (ho : bool) (raw : str) (pre post : Path)
        (before : list str) (line : str) (after : list str) :
  splitlines raw = before ++ line :: after ->
  contains_char PIPE line = false ->
  is_blank line = false ->
  normalize_stat_output ho raw pre post =
  join [LF] (normalize_stat_lines ho before pre post
             ++ lstrip line :: normalize_stat_lines ho after pre post).
Proof.
  intros Hraw Hp Hb. unfold normalize_stat_output. rewrite Hraw.
  unfold normalize_stat_lines. rewrite flat_map_app. simpl.
  now rewrite (stat_line_plain ho line pre post Hp Hb).
Qed.

Lemma normalize_stat_output_keeps_unseparated_line_witness :
  normalize_stat_output false
    (lit " pre/a.txt | 2 +-" ++ [LF] ++
     lit " 1 file changed, 1 insertion(+), 1 deletion(-) in /tmp/subagent_repo_janitor_7/pre")
    Sample.pre Sample.post =
  lit "a.txt | 2 +-" ++ [LF] ++
  lit "1 file changed, 1 insertion(+), 1 deletion(-) in /tmp/subagent_repo_janitor_7/pre".
Proof.
  rewrite (@normalize_stat_output_keeps_unseparated_line false _
             Sample.pre Sample.post
             [lit " pre/a.txt | 2 +-"]
             (lit " 1 file changed, 1 insertion(+), 1 deletion(-) in /tmp/subagent_repo_janitor_7/pre")
             []); reflexivity.
Defined.

(** C10 fails as stated on a blank line: it has no ['|'], yet it is
    dropped rather than kept with its leading blanks removed. *)
Lemma normalize_stat_output_drops_blank_line :
  let raw := lit " pre/a.txt | 2 +-" ++ [LF] ++ lit "   " ++ [LF]
             ++ lit " 1 file changed" in
  splitlines raw = [lit " pre/a.txt | 2 +-"; lit "   "; lit " 1 file changed"]
  /\ contains_char PIPE (lit "   ") = false
  /\ normalize_stat_output false raw Sample.pre Sample.post
     = join [LF] [lit "a.txt | 2 +-"; lit "1 file changed"]
  /\ normalize_stat_output false raw Sample.pre Sample.post
     <> join [LF] [lit "a.txt | 2 +-"; lstrip (lit "   "); lit "1 file changed"].
Proof.
  repeat split; try reflexivity. vm_compute. discriminate.
Qed.

Lemma shlex_split_nil_tokens : Shlex.split [] = Some [].
Proof. reflexivity. Qed.

(** A header with two tokens, one of them excluded, starts a dropped
    block. *)
Lemma handle_diff_header_drop (ho : bool) (hdr : str) (pre post : Path)
      (t0 t1 : str) :
  startswith hdr (lit "diff --git ") = true ->
  Shlex.split (strip (slice_from 11 hdr)) = Some [t0; t1] ->
  is_excluded_path (extract_normalized_path ho (quote_if_needed t0) pre post)
  || is_excluded_path (extract_normalized_path ho (quote_if_needed t1) pre post)
  = true ->
  handle_diff_header ho hdr pre post = (true, None).
Proof.
  intros Hh Hs He. unfold handle_diff_header. rewrite Hh.
  change (List.length (lit "diff --git ")) with 11.
  set (remainder := strip (slice_from 11 hdr)) in *.
  destruct remainder as [|c r].
  - rewrite shlex_split_nil_tokens in Hs. discriminate.
  - rewrite Hs. cbv beta iota zeta. rewrite He. reflexivity.
Qed.

Lemma skipped_body (ho : bool) (body rest : list str) (pre post : Path) :
  Forall (fun l => startswith l (lit "diff --git ") = false) body ->
  normalize_patch_lines ho true (body ++ rest) pre post
  = normalize_patch_lines ho true rest pre post.
Proof.
  induction 1 as [|l body Hl _ IH]; [reflexivity|].
  simpl app. cbn [normalize_patch_lines]. rewrite Hl. cbv iota. exact IH.
Qed.

Lemma skip_flag_forgotten (ho : bool) (s s' : bool) (rest : list str)
      (pre post : Path) :
  at_block_boundary rest ->
  normalize_patch_lines ho s rest pre post
  = normalize_patch_lines ho s' rest pre post.
Proof.
  destruct rest as [|h r]; [reflexivity|]. simpl. intros H.
  cbn [normalize_patch_lines]. now rewrite H.
Qed.

Lemma dropped_block_lines (ho : bool) (pre post : Path)
      (before : list str) (hdr : str) (body rest : list str) (s : bool) :
  startswith hdr (lit "diff --git ") = true ->
  handle_diff_header ho hdr pre post = (true, None) ->
  Forall (fun l => startswith l (lit "diff --git ") = false) body ->
  at_block_boundary rest ->
  normalize_patch_lines ho s (before ++ hdr :: body ++ rest) pre post
  = normalize_patch_lines ho s (before ++ rest) pre post.
Proof.
  intros Hh Hd Hb Hr. revert s.
  induction before as [|l before IH]; intros s.
  - simpl app. cbn [normalize_patch_lines]. rewrite Hh, Hd.
    rewrite (skipped_body ho body rest pre post Hb).
    now apply skip_flag_forgotten.
  - simpl app. cbn [normalize_patch_lines].
    destruct (startswith l (lit "diff --git ")).
    + destruct (handle_diff_header ho l pre post) as [skip [h|]].
      * destruct (truthy h); now rewrite IH.
      * apply IH.
    + destruct s; now rewrite IH.
Qed.

(** C2.  In [normalize_patch_output], a ['diff --git '] header that splits
    into two tokens, the canonical bare path of one of which is excluded,
    is left out of the result together with every line after it up to, and
    not including, the next ['diff --git '] header (or the end). *)
Theorem normalize_patch_output_drops_excluded_block
        (ho : bool) (raw : str) (pre post : Path)
        (before : list str) (hdr : str) (body rest : list str)
        (t0 t1 : str) :
  splitlines raw = before ++ hdr :: body ++ rest ->
  startswith hdr (lit "diff --git ") = true ->
  Shlex.split (strip (slice_from 11 hdr)) = Some [t0; t1] ->
  is_excluded_path (extract_normalized_path ho (quote_if_needed t0) pre post)
  || is_excluded_path (extract_normalized_path ho (quote_if_needed t1) pre post)
  = true ->
  Forall (fun l => startswith l (lit "diff --git ") = false) body ->
  at_block_boundary rest ->
  normalize_patch_output ho raw pre post
  = join [LF] (normalize_patch_lines ho false (before ++ rest) pre post).
Proof.
  intros Hraw Hh Hs He Hb Hr. unfold normalize_patch_output. rewrite Hraw.
  f_equal. apply dropped_block_lines; try assumption.
  now apply handle_diff_header_drop with t0 t1.
Qed.

Lemma normalize_patch_output_drops_excluded_block_witness :
  normalize_patch_output false Sample.raw_patch Sample.pre Sample.post
  = join [LF] [lit "diff --git a/s b/s"; lit "--- a/s"; lit "+++ /dev/null"].
Proof.
  rewrite (@normalize_patch_output_drops_excluded_block false Sample.raw_patch
             Sample.pre Sample.post [] Sample.metadata_header
             Sample.metadata_body Sample.source_block
             (lit "a/pre/.git/x") (lit "b/post/.git/x")).
  - reflexivity.
  - reflexivity.
  - reflexivity.
  - reflexivity.
  - reflexivity.
  - repeat constructor.
  - reflexivity.
Defined.

(* ------------------------------------------------------------------ *)
(** * [normalize_path_value] *)

Lemma strip_root_prefix_id (value prefix : str) :
  startswith value (prefix ++ lit "/") = false ->
  str_eqb value prefix = false ->
  strip_root_prefix value prefix = value.
Proof. intros H1 H2. unfold strip_root_prefix. now rewrite H1, H2. Qed.

Lemma In_strip_root_prefix (c : char) (value prefix : str) :
  In c (strip_root_prefix value prefix) -> In c value.
Proof.
  unfold strip_root_prefix.
  destruct (startswith value (prefix ++ lit "/")).
  - apply In_slice_from.
  - destruct (str_eqb value prefix); [intros [] | tauto].
Qed.

Lemma In_fold_strip_root_prefix (c : char) (prefixes : list str) (value : str) :
  In c (fold_left strip_root_prefix prefixes value) -> In c value.
Proof.
  revert value; induction prefixes as [|p ps IH]; intros value; simpl;
    [tauto|].
  intros H. apply IH in H. now apply In_strip_root_prefix in H.
Qed.

(** The result of [normalize_path_value] holds no backslash. *)
Lemma normalize_path_value_no_backslash (ho : bool) (path : str)
      (pre post : Path) :
  ~ In BACKSLASH (normalize_path_value ho path pre post).
Proof.
  unfold normalize_path_value. intros H.
  assert (H' : In BACKSLASH
                 (fold_left strip_root_prefix
                    (set_iter ho (as_posix pre) (as_posix post))
                    (replace BACKSLASH (lit "/")
                       (strip_chars [DQUOTE] (strip path))))).
  { destruct (startswith _ (lit "pre/")); [now apply In_slice_from in H|].
    destruct (startswith _ (lit "post/")); [now apply In_slice_from in H|].
    exact H. }
  apply In_fold_strip_root_prefix in H'. revert H'.
  apply replace_removes. simpl. intros [E|[]]. discriminate.
Qed.

(** A path that the stages of [normalize_path_value] each leave alone. *)
Lemma normalize_path_value_fixed (ho : bool) (p : str) (pre post : Path) :
  ~ In BACKSLASH p ->
  is_settled pre post p = true ->
  normalize_path_value ho p pre post = p.
Proof.
  intros Hb H. unfold is_settled in H.
  repeat (apply andb_true_iff in H as [H ?]).
  repeat match goal with
         | E : negb _ = true |- _ => apply negb_true_iff in E
         | E : str_eqb _ _ = true |- _ => apply str_eqb_eq in E
         end.
  unfold normalize_path_value.
  replace (strip p) with p by congruence.
  replace (strip_chars [DQUOTE] p) with p by congruence.
  rewrite (replace_absent BACKSLASH (lit "/") p Hb).
  assert (F : fold_left strip_root_prefix
                (set_iter ho (as_posix pre) (as_posix post)) p = p).
  { unfold set_iter.
    destruct (str_eqb (as_posix pre) (as_posix post)); [|destruct ho];
      simpl; repeat rewrite strip_root_prefix_id; auto. }
  rewrite F.
  repeat match goal with
         | E : startswith p _ = false |- _ => rewrite E
         end.
  reflexivity.
Qed.

Lemma is_canonical_settled (pre post : Path) (p : str) :
  is_canonical pre post p = true ->
  ~ In BACKSLASH p /\ is_settled pre post p = true.
Proof.
  unfold is_canonical, is_settled. intros H.
  repeat (apply andb_true_iff in H as [H ?]).
  split.
  - intros Hin. apply mem_char_In in Hin.
    match goal with E : negb (mem_char _ _) = true |- _ =>
      apply negb_true_iff in E; congruence end.
  - repeat (apply andb_true_iff; split); assumption.
Qed.

(* ------------------------------------------------------------------ *)
(** * Headers whose tokens are plain *)

(** The blanks of the tokeniser are blanks of [str.isspace]. *)
Lemma shlex_whitespace_isspace (c : char) :
  Shlex.whitespace c = true -> isspace c = true.
Proof.
  unfold Shlex.whitespace. intros H.
  repeat (apply orb_true_iff in H as [H|H]);
    apply N.eqb_eq in H; subst c; reflexivity.
Qed.

Lemma plain_char_classes (c : char) :
  plain_char c = true ->
  isspace c = false /\ Shlex.whitespace c = false
  /\ Shlex.quotes c = false /\ Shlex.escape c = false.
Proof.
  unfold plain_char. intros H.
  apply andb_true_iff in H as [H He]. apply andb_true_iff in H as [Hs Hq].
  apply negb_true_iff in He, Hs, Hq. repeat split; try assumption.
  destruct (Shlex.whitespace c) eqn:W; [|reflexivity].
  rewrite (shlex_whitespace_isspace c W) in Hs. discriminate.
Qed.

Lemma is_plain_cons (t : str) :
  is_plain t = true ->
  exists c r, t = c :: r /\ plain_char c = true /\ forallb plain_char r = true.
Proof.
  unfold is_plain. destruct t as [|c r]; simpl; [discriminate|].
  intros H. apply andb_true_iff in H as [Hc Hr]. now exists c, r.
Qed.

Lemma plain_not_space (t : str) :
  forallb plain_char t = true ->
  forallb (fun c => negb (isspace c)) t = true.
Proof.
  induction t as [|c t IH]; simpl; [reflexivity|].
  intros H. apply andb_true_iff in H as [Hc Ht].
  destruct (plain_char_classes c Hc) as [Hs _]. now rewrite Hs, IH.
Qed.

Lemma plain_no_space (t : str) :
  forallb plain_char t = true -> existsb isspace t = false.
Proof.
  induction t as [|c t IH]; simpl; [reflexivity|].
  intros H. apply andb_true_iff in H as [Hc Ht].
  destruct (plain_char_classes c Hc) as [Hs _]. now rewrite Hs, IH.
Qed.

Lemma rstrip_by_app_fixed (f : char -> bool) (a b : str) :
  b <> [] -> rstrip_by f b = b -> rstrip_by f (a ++ b) = a ++ b.
Proof.
  intros Hne Hb. induction a as [|x a IH]; [exact Hb|].
  simpl app. rewrite rstrip_by_cons; rewrite IH; [reflexivity|].
  destruct a, b; simpl; congruence.
Qed.

Lemma is_plain_lead (d p : str) :
  is_diff_lead_for d p = true -> is_plain p = true -> is_plain (d ++ p) = true.
Proof.
  unfold is_diff_lead_for. intros Hd Hp.
  assert (Hp' : forallb plain_char p = true).
  { unfold is_plain in Hp. now apply andb_true_iff in Hp as [_ Hp]. }
  apply orb_true_iff in Hd as [Hd|Hd]; [apply orb_true_iff in Hd as [Hd|Hd]|].
  - apply str_eqb_eq in Hd. subst d. unfold is_plain.
    rewrite forallb_app, Hp'. reflexivity.
  - apply str_eqb_eq in Hd. subst d. unfold is_plain.
    rewrite forallb_app, Hp'. reflexivity.
  - apply andb_true_iff in Hd as [Hd _]. apply andb_true_iff in Hd as [Hd _].
    apply str_eqb_eq in Hd. now subst d.
Qed.

Lemma split_diff_prefix_lead (d p : str) :
  is_diff_lead_for d p = true -> split_diff_prefix (d ++ p) = (d, p).
Proof.
  unfold is_diff_lead_for. intros Hd.
  apply orb_true_iff in Hd as [Hd|Hd]; [apply orb_true_iff in Hd as [Hd|Hd]|].
  - apply str_eqb_eq in Hd. now subst d.
  - apply str_eqb_eq in Hd. now subst d.
  - apply andb_true_iff in Hd as [Hd Hb]. apply andb_true_iff in Hd as [Hd Ha].
    apply str_eqb_eq in Hd. subst d. apply negb_true_iff in Ha, Hb.
    unfold split_diff_prefix. simpl app. now rewrite Ha, Hb.
Qed.

Lemma plain_not_quoted (t : str) :
  is_plain t = true -> startswith t [DQUOTE] = false.
Proof.
  intros H. destruct (is_plain_cons t H) as [c [r [-> [Hc _]]]].
  destruct (plain_char_classes c Hc) as [_ [_ [Hq _]]].
  unfold Shlex.quotes in Hq. apply orb_false_iff in Hq as [_ Hq].
  simpl. now rewrite Hq.
Qed.

Lemma strip_plain (t : str) : is_plain t = true -> strip t = t.
Proof.
  unfold is_plain. intros H. apply andb_true_iff in H as [_ H].
  apply strip_by_none. now apply plain_not_space.
Qed.

Lemma quote_if_needed_plain (t : str) :
  is_plain t = true -> quote_if_needed t = t.
Proof.
  unfold is_plain. intros H. apply andb_true_iff in H as [_ H].
  unfold quote_if_needed. now rewrite (plain_no_space t H).
Qed.

(** A plain token made of a diff prefix and a canonical path is returned
    as it is, and its bare path is the canonical path. *)
Lemma plain_token_normal (ho : bool) (d p : str) (pre post : Path) :
  is_diff_lead_for d p = true ->
  is_plain p = true ->
  is_canonical pre post p = true ->
  normalize_diff_token ho (d ++ p) pre post = d ++ p
  /\ extract_normalized_path ho (d ++ p) pre post = p.
Proof.
  intros Hd Hp Hc.
  pose proof (is_plain_lead d p Hd Hp) as Ht.
  destruct (is_canonical_settled pre post p Hc) as [Hb Hs].
  pose proof (normalize_path_value_fixed ho p pre post Hb Hs) as Hn.
  pose proof (split_diff_prefix_lead d p Hd) as Hsp.
  split.
  - unfold normalize_diff_token.
    rewrite (strip_plain _ Ht), (plain_not_quoted _ Ht). simpl andb. cbv iota.
    rewrite Hsp, Hn.
    destruct (is_plain_cons p Hp) as [c [r [-> _]]]. reflexivity.
  - unfold extract_normalized_path.
    rewrite (strip_plain _ Ht), (plain_not_quoted _ Ht). simpl andb. cbv iota.
    unfold split_diff_prefix in Hsp.
    set (sa := startswith (d ++ p) (lit "a/")) in *.
    set (sb := startswith (d ++ p) (lit "b/")) in *.
    set (cut := slice_from 2 (d ++ p)) in *.
    destruct sa, sb; simpl orb; cbv iota; injection Hsp as _ E;
      rewrite E; exact Hn.
Qed.

(* ------------------------------------------------------------------ *)
(** * [is_excluded_path] *)

Lemma replace_app (old : char) (new a b : str) :
  replace old new (a ++ b) = replace old new a ++ replace old new b.
Proof. unfold replace. apply flat_map_app. Qed.

(** Cleaning a path keeps a head that begins and ends with characters
    that are neither blank nor a double quote and that holds no
    backslash. *)
Lemma cleaned_keeps_head (x : char) (h : str) (c : char) (rest : str) :
  isspace x = false -> N.eqb x DQUOTE = false ->
  isspace c = false -> N.eqb c DQUOTE = false ->
  ~ In BACKSLASH (x :: h ++ [c]) ->
  exists rest',
    replace BACKSLASH (lit "/")
      (strip_chars [DQUOTE] (strip (x :: h ++ c :: rest)))
    = x :: h ++ c :: rest'.
Proof.
  intros Hx Hxq Hc Hcq Hb.
  assert (Q : forall y, N.eqb y DQUOTE = false ->
                        (fun c0 => mem_char c0 [DQUOTE]) y = false).
  { intros y Hy. unfold mem_char. simpl. now rewrite Hy. }
  unfold strip, strip_chars, strip_by.
  rewrite (lstrip_by_keep isspace x _ Hx).
  change (x :: h ++ c :: rest) with ((x :: h) ++ c :: rest).
  rewrite (rstrip_by_app_keep isspace (x :: h) c rest Hc).
  change ((x :: h) ++ c :: rstrip_by isspace rest)
    with (x :: (h ++ c :: rstrip_by isspace rest)).
  rewrite (lstrip_by_keep _ x _ (Q x Hxq)).
  change (x :: (h ++ c :: rstrip_by isspace rest))
    with ((x :: h) ++ c :: rstrip_by isspace rest).
  rewrite (rstrip_by_app_keep _ (x :: h) c _ (Q c Hcq)).
  set (t := rstrip_by _ (rstrip_by isspace rest)).
  exists (replace BACKSLASH (lit "/") t).
  replace ((x :: h) ++ c :: t) with ((x :: h ++ [c]) ++ t)
    by (simpl; now rewrite <- app_assoc).
  rewrite replace_app, (replace_absent BACKSLASH (lit "/") _ Hb).
  simpl. now rewrite <- app_assoc.
Qed.

Lemma is_excluded_path_cleaned (path d t : str) :
  truthy path = true ->
  is_exclusion_lead d = true ->
  replace BACKSLASH (lit "/") (strip_chars [DQUOTE] (strip path))
  = d ++ lit ".git/" ++ t ->
  is_excluded_path path = true.
Proof.
  intros Hp Hd E. unfold is_excluded_path. rewrite Hp, E.
  unfold is_exclusion_lead in Hd.
  repeat (apply orb_true_iff in Hd as [Hd|Hd]);
    apply str_eqb_eq in Hd; subst d; reflexivity.
Qed.

Lemma is_excluded_path_under_git (d rest : str) :
  is_exclusion_lead d = true ->
  is_excluded_path (d ++ lit ".git/" ++ rest) = true.
Proof.
  intros Hd.
  assert (B : forall s, mem_char BACKSLASH s = false -> ~ In BACKSLASH s).
  { intros s H Hin. apply mem_char_In in Hin. congruence. }
  assert (K : exists t,
             replace BACKSLASH (lit "/")
               (strip_chars [DQUOTE] (strip (d ++ lit ".git/" ++ rest)))
             = d ++ lit ".git/" ++ t).
  { pose proof Hd as Hd'. unfold is_exclusion_lead in Hd'.
    repeat (apply orb_true_iff in Hd' as [Hd'|Hd']);
      apply str_eqb_eq in Hd'; subst d.
    - apply (cleaned_keeps_head 46%N (lit "git") 47%N rest);
        try reflexivity. now apply B.
    - apply (cleaned_keeps_head 46%N (lit "/.git") 47%N rest);
        try reflexivity. now apply B.
    - apply (cleaned_keeps_head 97%N (lit "/.git") 47%N rest);
        try reflexivity. now apply B.
    - apply (cleaned_keeps_head 98%N (lit "/.git") 47%N rest);
        try reflexivity. now apply B.
    - apply (cleaned_keeps_head 46%N (lit "/a/.git") 47%N rest);
        try reflexivity. now apply B.
    - apply (cleaned_keeps_head 46%N (lit "/b/.git") 47%N rest);
        try reflexivity. now apply B. }
  destruct K as [t E].
  apply is_excluded_path_cleaned with d t; try assumption.
  unfold is_exclusion_lead in Hd.
  repeat (apply orb_true_iff in Hd as [Hd|Hd]);
    apply str_eqb_eq in Hd; subst d; reflexivity.
Qed.

(** C5 (as the code has it).  [is_excluded_path] is true for the empty
    path and for every path equal to or nested under [.git], also behind a
    leading [./], [a/] or [b/] ([./] may come before [a/] or [b/]).  It
    looks through no other prefix. *)
Theorem is_excluded_path_git_metadata (d g : str) :
  is_exclusion_lead d = true ->
  is_git_path g = true ->
  is_excluded_path [] = true /\ is_excluded_path (d ++ g) = true.
Proof.
  intros Hd Hg. split; [reflexivity|].
  unfold is_git_path in Hg. apply orb_true_iff in Hg as [Hg|Hg].
  - apply str_eqb_eq in Hg. subst g. unfold is_exclusion_lead in Hd.
    repeat (apply orb_true_iff in Hd as [Hd|Hd]);
      apply str_eqb_eq in Hd; subst d; reflexivity.
  - apply startswith_iff in Hg as [rest ->].
    now apply is_excluded_path_under_git.
Qed.

Lemma is_excluded_path_git_metadata_witness :
  is_excluded_path [] = true
  /\ is_excluded_path (lit "./b/.git/hooks/pre-commit ") = true.
Proof.
  apply (is_excluded_path_git_metadata (lit "./b/")
           (lit ".git/hooks/pre-commit ")); reflexivity.
Defined.

(** C5 fails as stated: behind a worktree root, or behind the
    worktree-internal [pre/], a path under [.git] is not excluded. *)
Lemma is_excluded_path_keeps_worktree_prefix :
  as_posix Sample.pre = lit "/tmp/subagent_repo_janitor_7/pre"
  /\ is_git_path (lit ".git/config") = true
  /\ is_excluded_path (as_posix Sample.pre ++ lit "/" ++ lit ".git/config")
     = false
  /\ is_excluded_path (lit "pre/" ++ lit ".git/config") = false.
Proof. repeat split; reflexivity. Qed.

(* ------------------------------------------------------------------ *)
(** * [normalize_diff_token] and [quote_if_needed] *)



Lemma normalize_diff_token_unfold (ho : bool) (token : str) (pre post : Path) :
  let text := strip token in
  let quoted := startswith text [DQUOTE] && endswith text [DQUOTE] in
  let inner := if quoted then slice_inner text else text in
  let lead := fst (split_diff_prefix inner) in
  let canon :=
    normalize_path_value ho (snd (split_diff_prefix inner)) pre post in
  let body :=
    if truthy canon then lead ++ canon else rstrip_chars (lit "/") lead in
  normalize_diff_token ho token pre post
  = if quoted then [DQUOTE] ++ body ++ [DQUOTE] else body.
Proof.
  unfold normalize_diff_token.
  destruct (split_diff_prefix
              (if startswith (strip token) [DQUOTE]
                  && endswith (strip token) [DQUOTE]
               then slice_inner (strip token) else strip token)); reflexivity.
Qed.

(** Text wrapped in double quotes is a quoted token. *)
Lemma wrapped_is_quoted (escaped : str) :
  let token := [DQUOTE] ++ escaped ++ [DQUOTE] in
  strip token = token
  /\ startswith token [DQUOTE] && endswith token [DQUOTE] = true.
Proof.
  intros token. split.
  - unfold strip, strip_by, token.
    change ([DQUOTE] ++ escaped ++ [DQUOTE])
      with (DQUOTE :: (escaped ++ [DQUOTE])).
    rewrite (lstrip_by_keep isspace DQUOTE _ eq_refl).
    change (DQUOTE :: (escaped ++ [DQUOTE]))
      with ((DQUOTE :: escaped) ++ DQUOTE :: []).
    now rewrite (rstrip_by_app_keep isspace (DQUOTE :: escaped) DQUOTE []
                   eq_refl).
  - unfold endswith, token. rewrite app_assoc, rev_app_distr. reflexivity.
Qed.




(* ------------------------------------------------------------------ *)
(** * WorktreeManager: [apply_patch] *)

Lemma exit_code_allowed (code : Z) :
  existsb (Z.eqb code) [0%Z] = true <-> code = 0%Z.
Proof.
  simpl. rewrite orb_false_r. apply Z.eqb_eq.
Qed.

Lemma exit_code_refused (code : Z) :
  code <> 0%Z -> existsb (Z.eqb code) [0%Z] = false.
Proof.
  intros H. destruct (existsb (Z.eqb code) [0%Z]) eqn:E; [|reflexivity].
  apply exit_code_allowed in E. contradiction.
Qed.

(** Whatever [git] answers, [apply_patch] only runs [git]: it writes no
    file itself. *)
Lemma apply_patch_only_runs_git (world : World)
      (repo_root worktree_dir patch_path : Path) (log : list event) :
  exists added,
    snd (apply_patch world repo_root worktree_dir patch_path log)
    = log ++ added
    /\ existsb is_write added = false.
Proof.
  unfold apply_patch, bind, try_except, run_git, ret, raise.
  repeat match goal with
         | |- context [match ?x with _ => _ end] =>
             match x with
             | cannot_start _ _ _ _ => destruct x
             | subprocess_run _ _ _ _ => destruct x
             | existsb _ _ => destruct x
             end
         end;
    simpl snd;
    repeat rewrite <- app_assoc; simpl app;
    eexists; (split; [reflexivity | reflexivity]).
Qed.

(** X24.  When [git apply] comes back with a refused exit status, and the
    cleanup command is started and comes back at all, [apply_patch] has
    run [git worktree remove -f] on that worktree after the failed
    [apply], ignoring the exit status of the cleanup, and then raises the
    apply error whose message carries the standard error text of
    [git apply].  In every case [apply_patch] only runs [git]; it never
    writes the patch file. *)
Theorem apply_patch_failure_cleans_up_then_raises
        (world : World) (repo_root worktree_dir patch_path : Path)
        (log : list event) (added applied removed : CompletedProcess) :
  let cwd := as_posix repo_root in
  let log1 := log ++ [Git (git_worktree_add worktree_dir) cwd] in
  let log2 := log1 ++ [Git (git_apply worktree_dir patch_path) cwd] in
  cannot_start world log (git_worktree_add worktree_dir) cwd = false ->
  subprocess_run world log (git_worktree_add worktree_dir) cwd = Some added ->
  returncode added = 0%Z ->
  cannot_start world log1 (git_apply worktree_dir patch_path) cwd = false ->
  subprocess_run world log1 (git_apply worktree_dir patch_path) cwd
  = Some applied ->
  returncode applied <> 0%Z ->
  cannot_start world log2 (git_worktree_remove worktree_dir) cwd = false ->
  subprocess_run world log2 (git_worktree_remove worktree_dir) cwd
  = Some removed ->
  apply_patch world repo_root worktree_dir patch_path log
  = (Raise (RuntimeError
              (apply_error_message patch_path
                 (decode_bytes world (stderr applied)))),
     log ++ [Git (git_worktree_add worktree_dir) cwd;
             Git (git_apply worktree_dir patch_path) cwd;
             Git (git_worktree_remove worktree_dir) cwd])
  /\ (forall log', exists added',
        snd (apply_patch world repo_root worktree_dir patch_path log')
        = log' ++ added'
        /\ existsb is_write added' = false).
Proof.
  intros cwd log1 log2 Sadd Hadd Hok Sapply Happly Hbad Srm Hrm.
  split; [|intros log'; apply apply_patch_only_runs_git].
  unfold apply_patch, bind, try_except, run_git, ret, raise.
  fold cwd.
  change (lit "git" :: [lit "worktree"; lit "add"; lit "--detach";
                        as_posix worktree_dir; lit "HEAD"])
    with (git_worktree_add worktree_dir).
  rewrite Sadd, Hadd. rewrite (proj2 (exit_code_allowed _) Hok).
  fold log1.
  change (lit "git" :: [lit "-C"; as_posix worktree_dir; lit "apply";
                        lit "--whitespace=nowarn"; as_posix patch_path])
    with (git_apply worktree_dir patch_path).
  rewrite Sapply, Happly. rewrite (exit_code_refused _ Hbad).
  fold log2.
  change (lit "git" :: [lit "worktree"; lit "remove"; lit "-f";
                        as_posix worktree_dir])
    with (git_worktree_remove worktree_dir).
  rewrite Srm, Hrm.
  unfold log2, log1.
  destruct (existsb (Z.eqb (returncode removed)) [0%Z]);
    repeat rewrite <- app_assoc; reflexivity.
Qed.

Lemma apply_patch_failure_cleans_up_then_raises_witness :
  apply_patch (Sample.refusing false) Sample.repo Sample.pre
    (pre_patch Sample.paths) []
  = (Raise (RuntimeError
              (lit "Failed to apply patch: /repo/.subagent/pre_janitor.patch"
               ++ [LF] ++ lit "stderr: error: patch failed")),
     [Git (git_worktree_add Sample.pre) (lit "/repo");
      Git (git_apply Sample.pre (pre_patch Sample.paths)) (lit "/repo");
      Git (git_worktree_remove Sample.pre) (lit "/repo")]).
Proof.
  refine (proj1 (apply_patch_failure_cleans_up_then_raises
                  (Sample.refusing false) Sample.repo Sample.pre
                  (pre_patch Sample.paths) []
                  (mkCompleted 0 [] [])
                  (mkCompleted 1 [] (Sample.ascii_bytes "error: patch failed"))
                  (mkCompleted 0 [] [])
                  _ _ _ _ _ _ _ _));
    try reflexivity. simpl. discriminate.
Defined.

(** C7, a defect of the code.  The cleanup in [apply_patch] is meant to
    be best effort, and the apply error with the diagnostic of [git] is
    meant to follow it; but only [CalledProcessError] is caught around the
    cleanup.  Here [git apply] is refused with the diagnostic
    [error: patch failed] and the cleanup [git worktree remove -f] then
    runs past the timeout: the error that leaves [apply_patch] is the
    timeout error of the cleanup, and its message does not hold the
    diagnostic. *)
Lemma apply_patch_cleanup_timeout_hides_apply_error :
  let log1 := [Git (git_worktree_add Sample.pre) (lit "/repo")] in
  subprocess_run (Sample.refusing true) log1
    (git_apply Sample.pre (pre_patch Sample.paths)) (lit "/repo")
  = Some (mkCompleted 1 [] (Sample.ascii_bytes "error: patch failed"))
  /\ fst (apply_patch (Sample.refusing true) Sample.repo Sample.pre
            (pre_patch Sample.paths) [])
     = Raise (RuntimeError
                (lit "Git command timed out after 300s: git worktree remove -f /tmp/subagent_repo_janitor_7/pre"))
  /\ contains
       (lit "Git command timed out after 300s: git worktree remove -f /tmp/subagent_repo_janitor_7/pre")
       (lit "error: patch failed")
     = false.
Proof. repeat split; reflexivity. Qed.

(* ------------------------------------------------------------------ *)
(** * DeltaEngine: [generate_outputs] *)

Lemma bind_ok {A B : Type} (m : M A) (k : A -> M B)
      (log log' : list event) (b : B) :
  bind m k log = (Ok b, log') ->
  exists a log1, m log = (Ok a, log1) /\ k a log1 = (Ok b, log').
Proof.
  unfold bind. destruct (m log) as [[a|e] log1]; [|discriminate].
  intros H. now exists a, log1.
Qed.

Lemma relative_to_M_ok (p other : Path) (log log' : list event) (r : Path) :
  relative_to_M p other log = (Ok r, log') ->
  relative_to p other = Some r /\ log' = log.
Proof.
  unfold relative_to_M. destruct (relative_to p other) as [r'|].
  - unfold ret. intros H. injection H as -> ->. now split.
  - unfold raise. discriminate.
Qed.

Lemma run_git_ok (world : World) (args : list str) (cwd : Path)
      (allow : list Z) (log log' : list event) (out : str) :
  run_git world args cwd allow log = (Ok out, log') ->
  log' = log ++ [Git (lit "git" :: args) (as_posix cwd)].
Proof.
  unfold run_git.
  destruct (cannot_start world log (lit "git" :: args) (as_posix cwd));
    [discriminate|].
  destruct (subprocess_run world log (lit "git" :: args) (as_posix cwd));
    [|discriminate].
  destruct (existsb _ allow); [|discriminate].
  intros H. now injection H.
Qed.

Lemma write_text_ok (world : World) (path : Path) (content : str)
      (log log' : list event) (u : unit) :
  write_text world path content log = (Ok u, log') ->
  log' = log ++ [WriteText path (lit "utf-8") (written content)].
Proof.
  unfold write_text. destruct (write_goes_through world log path);
    [|discriminate].
  intros H. now injection H.
Qed.

Lemma endswith_newline_added (content : str) :
  endswith (content ++ [LF]) [LF] = true.
Proof. unfold endswith. rewrite rev_app_distr. reflexivity. Qed.

Lemma written_newline_terminated (content : str) : newline_terminated content.
Proof.
  unfold newline_terminated, written. split.
  - intros ->. reflexivity.
  - intros Hne. destruct content as [|c r]; [contradiction|].
    simpl truthy. simpl andb.
    destruct (endswith (c :: r) [LF]) eqn:E; simpl negb; cbv iota.
    + rewrite app_nil_r. split; [exact E | now left].
    + split; [apply endswith_newline_added | now right].
Qed.

(** C8 (as the code has it).  A run of [generate_outputs] that returns
    has written exactly the name list, the stat summary and the full
    patch, in that order and each as UTF-8 text; an artifact whose
    normalised content is not empty ends with a newline (added when the
    content lacks it), and an artifact whose content is empty is written
    empty, without a newline.  The count returned is the number of lines
    of the name list, 0 when it is empty. *)
Theorem generate_outputs_artifacts
        (world : World) (ho : bool) (paths : Paths)
        (log log' : list event) (count : nat) :
  generate_outputs world ho paths log = (Ok count, log') ->
  exists (names stat delta : str) (g1 g2 g3 : list str),
    let cwd := as_posix (work_base paths) in
    let name_list :=
      normalize_name_output ho names (pre_dir paths) (post_dir paths) in
    let stat_summary :=
      normalize_stat_output ho stat (pre_dir paths) (post_dir paths) in
    let full_patch :=
      normalize_patch_output ho delta (pre_dir paths) (post_dir paths) in
    log' = log ++ [Git g1 cwd; Git g2 cwd;
                   WriteText (name_file paths) (lit "utf-8") (written name_list);
                   WriteText (stat_file paths) (lit "utf-8") (written stat_summary);
                   Git g3 cwd;
                   WriteText (delta_file paths) (lit "utf-8") (written full_patch)]
    /\ newline_terminated name_list
    /\ newline_terminated stat_summary
    /\ newline_terminated full_patch
    /\ count = (if truthy name_list
                then List.length (splitlines name_list) else 0).
Proof.
  unfold generate_outputs. intros H.
  apply bind_ok in H as [pre_rel [l1 [H1 H]]].
  apply relative_to_M_ok in H1 as [_ ->].
  apply bind_ok in H as [post_rel [l2 [H2 H]]].
  apply relative_to_M_ok in H2 as [_ ->].
  apply bind_ok in H as [names [l3 [H3 H]]].
  apply run_git_ok in H3. subst l3.
  apply bind_ok in H as [stat [l4 [H4 H]]].
  apply run_git_ok in H4. subst l4.
  apply bind_ok in H as [u1 [l5 [H5 H]]].
  apply write_text_ok in H5. subst l5.
  apply bind_ok in H as [u2 [l6 [H6 H]]].
  apply write_text_ok in H6. subst l6.
  apply bind_ok in H as [delta [l7 [H7 H]]].
  apply run_git_ok in H7. subst l7.
  apply bind_ok in H as [u3 [l8 [H8 H]]].
  apply write_text_ok in H8. subst l8.
  unfold ret in H. injection H as Hc Hl.
  exists names, stat, delta.
  eexists; eexists; eexists. cbv zeta.
  split; [|split; [|split; [|split]]].
  - rewrite <- Hl. repeat rewrite <- app_assoc. reflexivity.
  - apply written_newline_terminated.
  - apply written_newline_terminated.
  - apply written_newline_terminated.
  - now rewrite <- Hc.
Qed.

Lemma generate_outputs_artifacts_witness :
  exists (names stat delta : str) (g1 g2 g3 : list str),
    snd (generate_outputs Sample.quiet false Sample.paths [])
    = [Git g1 (lit "/tmp/subagent_repo_janitor_7");
       Git g2 (lit "/tmp/subagent_repo_janitor_7");
       WriteText (name_file Sample.paths) (lit "utf-8")
         (written (normalize_name_output false names Sample.pre Sample.post));
       WriteText (stat_file Sample.paths) (lit "utf-8")
         (written (normalize_stat_output false stat Sample.pre Sample.post));
       Git g3 (lit "/tmp/subagent_repo_janitor_7");
       WriteText (delta_file Sample.paths) (lit "utf-8")
         (written (normalize_patch_output false delta Sample.pre Sample.post))].
Proof.
  destruct (generate_outputs_artifacts Sample.quiet false Sample.paths []
              (snd (generate_outputs Sample.quiet false Sample.paths []))
              0 eq_refl)
    as [names [stat [delta [g1 [g2 [g3 [H _]]]]]]].
  exists names, stat, delta, g1, g2, g3. exact H.
Defined.

(** C8 fails as stated when nothing differs: the run returns 0 and all
    three artifacts are written empty, with no trailing newline. *)
Lemma generate_outputs_writes_empty_artifacts :
  generate_outputs Sample.quiet false Sample.paths []
  = (Ok 0,
     [Git [lit "git"; lit "diff"; lit "--no-index"; lit "--name-only";
           lit "pre"; lit "post"] (lit "/tmp/subagent_repo_janitor_7");
      Git [lit "git"; lit "diff"; lit "--no-index"; lit "--stat";
           lit "--stat-name-width=200"; lit "pre"; lit "post"]
          (lit "/tmp/subagent_repo_janitor_7");
      WriteText (name_file Sample.paths) (lit "utf-8") [];
      WriteText (stat_file Sample.paths) (lit "utf-8") [];
      Git [lit "git"; lit "diff"; lit "--no-index"; lit "pre"; lit "post"]
          (lit "/tmp/subagent_repo_janitor_7");
      WriteText (delta_file Sample.paths) (lit "utf-8") []])
  /\ endswith [] [LF] = false.
Proof. split; reflexivity. Qed.

(* ------------------------------------------------------------------ *)
(** * Trimming and the newline rule *)

Lemma rstrip_by_idem (f : char -> bool) (s : str) :
  rstrip_by f (rstrip_by f s) = rstrip_by f s.
Proof.
  induction s as [|c r IH]; [reflexivity|].
  simpl. destruct (rstrip_by f r) as [|y r'] eqn:E.
  - destruct (f c) eqn:F; [reflexivity|]. simpl. now rewrite F.
  - rewrite rstrip_by_cons; rewrite IH; [reflexivity | discriminate].
Qed.



(** X1.  [write_text] is stable: text it has terminated is written back as it
    is, so writing an artifact again never grows it. *)
Theorem write_text_stable (world : World) (path : Path) (content : str)
        (log : list event) :
  written (written content) = written content
  /\ snd (write_text world path (written content) log)
     = log ++ [WriteText path (lit "utf-8") (written content)].
Proof.
  assert (S : written (written content) = written content).
  { destruct content as [|c r]; [reflexivity|].
    destruct (written_newline_terminated (c :: r)) as [_ H].
    destruct (H ltac:(discriminate)) as [He _].
    unfold written at 1. rewrite He. rewrite andb_false_r. apply app_nil_r. }
  split; [exact S|].
  unfold write_text. fold (written (written content)). rewrite S.
  destruct (write_goes_through world log path); reflexivity.
Qed.


(* ------------------------------------------------------------------ *)
(** * [quote_if_needed] against the tokeniser *)

(** Inside double quotes the tokeniser reads escaped text back. *)
Lemma read_tokens_escaped (v : str) :
  forall quoted token rest,
    Shlex.read_tokens (Shlex.Quote DQUOTE) quoted token
      (replace DQUOTE [BACKSLASH; DQUOTE]
         (replace BACKSLASH [BACKSLASH; BACKSLASH] v) ++ DQUOTE :: rest)
    = Shlex.read_tokens Shlex.Word true (token ++ v) rest.
Proof.
  induction v as [|c v IH]; intros quoted token rest.
  - simpl. now rewrite app_nil_r.
  - change (c :: v) with ([c] ++ v) at 1.
    rewrite (replace_app BACKSLASH), (replace_app DQUOTE), <- app_assoc.
    replace (token ++ c :: v) with ((token ++ [c]) ++ v)
      by (now rewrite <- app_assoc).
    destruct (N.eqb_spec c BACKSLASH) as [->|Hb].
    + simpl. apply IH.
    + destruct (N.eqb_spec c DQUOTE) as [->|Hq].
      * simpl. apply IH.
      * apply N.eqb_neq in Hb, Hq.
        unfold replace at 2. simpl flat_map. rewrite Hb.
        unfold replace at 1. simpl flat_map. rewrite Hq. simpl app.
        cbn [Shlex.read_tokens]. rewrite Hq.
        unfold Shlex.escape. rewrite Hb. simpl andb. cbv iota.
        apply IH.
Qed.

(** X3.  A token with a blank survives [quote_if_needed]: read back with
    [shlex.split], the quoted text is the token again. *)
Theorem quote_if_needed_read_back (v : str) :
  existsb isspace v = true ->
  Shlex.split (quote_if_needed v) = Some [v].
Proof.
  intros Hv. unfold quote_if_needed. rewrite Hv.
  unfold Shlex.split. simpl app. cbn [Shlex.read_tokens].
  change (Shlex.whitespace DQUOTE) with false.
  change (Shlex.escape DQUOTE) with false.
  change (Shlex.quotes DQUOTE) with true. cbv iota.
  rewrite (read_tokens_escaped v false [] []). simpl.
  unfold Shlex.emit. now rewrite orb_true_r.
Qed.

Lemma quote_if_needed_read_back_witness :
  Shlex.split
    (quote_if_needed (lit "a/my " ++ [DQUOTE] ++ lit "odd dir\name"))
  = Some [lit "a/my " ++ [DQUOTE] ++ lit "odd dir\name"].
Proof.
  apply quote_if_needed_read_back. reflexivity.
Defined.

(* ------------------------------------------------------------------ *)
(** * Paths under the worktree layout *)

Lemma join_snoc (sep : str) (parts : list str) (s : str) :
  join sep (parts ++ [s])
  = match parts with
    | [] => s
    | _ => join sep parts ++ sep ++ s
    end.
Proof.
  induction parts as [|p parts IH]; [reflexivity|].
  destruct parts as [|q parts]; [reflexivity|].
  change ((p :: q :: parts) ++ [s]) with (p :: ((q :: parts) ++ [s])).
  change (join sep (p :: (q :: parts) ++ [s]))
    with (p ++ sep ++ join sep ((q :: parts) ++ [s])).
  rewrite IH.
  change (join sep (p :: q :: parts)) with (p ++ sep ++ join sep (q :: parts)).
  now rewrite <- !app_assoc.
Qed.

(** The text of a child is the stem of its parent and its own name. *)
Lemma as_posix_joinpath (base : Path) (s : str) :
  as_posix (joinpath base s) = child_stem base ++ s.
Proof.
  unfold as_posix, joinpath, child_stem. simpl.
  destruct (tail base) as [|t ts] eqn:E.
  - simpl. now rewrite app_nil_r.
  - replace (match (t :: ts) ++ [s] with
             | [] => if truthy (root base) then root base else lit "."
             | _ :: _ => root base ++ join (lit "/") ((t :: ts) ++ [s])
             end)
      with (root base ++ join (lit "/") ((t :: ts) ++ [s])) by reflexivity.
    rewrite join_snoc. now rewrite <- !app_assoc.
Qed.

Lemma startswith_app_both (b s t : str) :
  startswith (b ++ s) (b ++ t) = startswith s t.
Proof.
  induction b as [|c b IH]; [reflexivity|].
  simpl. now rewrite N.eqb_refl, IH.
Qed.

Lemma str_eqb_app_both (b s t : str) :
  str_eqb (b ++ s) (b ++ t) = str_eqb s t.
Proof.
  induction b as [|c b IH]; [reflexivity|].
  simpl. now rewrite N.eqb_refl, IH.
Qed.

Lemma strip_by_fixed_right (f : char -> bool) (p : str) :
  strip_by f p = p -> rstrip_by f p = p.
Proof.
  intros H. rewrite <- H at 1. unfold strip_by.
  rewrite rstrip_by_idem. exact H.
Qed.

Lemma plain_base_stem (base : Path) :
  is_plain_base base = true ->
  (exists b, child_stem base = SLASH :: b)
  /\ ~ In BACKSLASH (child_stem base).
Proof.
  unfold is_plain_base. intros H. apply andb_true_iff in H as [Hr Hb].
  apply negb_true_iff in Hb. split.
  - apply startswith_iff in Hr as [t Ht]. unfold child_stem. rewrite Ht.
    eexists. reflexivity.
  - intros Hin. apply mem_char_In in Hin. congruence.
Qed.

Lemma canonical_parts (pre post : Path) (p : str) :
  is_canonical pre post p = true ->
  rstrip_by isspace p = p
  /\ rstrip_by (fun c => mem_char c [DQUOTE]) p = p
  /\ ~ In BACKSLASH p
  /\ strip_root_prefix p (as_posix pre) = p
  /\ strip_root_prefix p (as_posix post) = p
  /\ startswith p (lit "pre/") = false
  /\ startswith p (lit "post/") = false.
Proof.
  intros H. destruct (is_canonical_settled pre post p H) as [Hb Hs].
  unfold is_settled in Hs.
  repeat (apply andb_true_iff in Hs as [Hs ?]).
  repeat match goal with
         | E : negb _ = true |- _ => apply negb_true_iff in E
         | E : str_eqb _ _ = true |- _ => apply str_eqb_eq in E
         end.
  repeat split; try assumption.
  - now apply strip_by_fixed_right.
  - now apply strip_by_fixed_right.
  - now apply strip_root_prefix_id.
  - now apply strip_root_prefix_id.
Qed.

(** Cleaning leaves [h/p] alone when [h] begins with a character that is
    neither blank nor a double quote, [p] is trimmed, and neither holds a
    backslash. *)
Lemma cleaned_fixed (x : char) (h p : str) :
  isspace x = false -> N.eqb x DQUOTE = false ->
  ~ In BACKSLASH (x :: h) -> ~ In BACKSLASH p ->
  rstrip_by isspace p = p ->
  rstrip_by (fun c => mem_char c [DQUOTE]) p = p ->
  replace BACKSLASH (lit "/")
    (strip_chars [DQUOTE] (strip ((x :: h) ++ SLASH :: p)))
  = (x :: h) ++ SLASH :: p.
Proof.
  intros Hx Hq Hbh Hbp Hs Hd.
  unfold strip, strip_chars, strip_by.
  change ((x :: h) ++ SLASH :: p) with (x :: (h ++ SLASH :: p)).
  rewrite (lstrip_by_keep isspace x _ Hx).
  change (x :: (h ++ SLASH :: p)) with ((x :: h) ++ SLASH :: p).
  rewrite (rstrip_by_app_keep isspace (x :: h) SLASH p eq_refl), Hs.
  change ((x :: h) ++ SLASH :: p) with (x :: (h ++ SLASH :: p)).
  rewrite lstrip_by_keep
    by (unfold mem_char; simpl; now rewrite Hq).
  change (x :: (h ++ SLASH :: p)) with ((x :: h) ++ SLASH :: p).
  rewrite (rstrip_by_app_keep _ (x :: h) SLASH p eq_refl), Hd.
  apply replace_absent. intros Hin.
  apply in_app_or in Hin as [Hin|[Hin|Hin]]; [tauto | discriminate | tauto].
Qed.

Lemma strip_root_prefix_hit (prefix p : str) :
  strip_root_prefix (prefix ++ SLASH :: p) prefix = p.
Proof.
  unfold strip_root_prefix.
  replace (prefix ++ SLASH :: p) with ((prefix ++ lit "/") ++ p)
    by (now rewrite <- app_assoc).
  rewrite startswith_app.
  replace (List.length prefix + 1) with (List.length (prefix ++ lit "/"))
    by (rewrite length_app; reflexivity).
  apply slice_from_app.
Qed.

Lemma strip_root_prefix_miss (stem s t rest : str) :
  startswith (s ++ SLASH :: rest) (t ++ lit "/") = false ->
  str_eqb (s ++ SLASH :: rest) t = false ->
  strip_root_prefix ((stem ++ s) ++ SLASH :: rest) (stem ++ t)
  = (stem ++ s) ++ SLASH :: rest.
Proof.
  intros H1 H2. apply strip_root_prefix_id.
  - rewrite <- !app_assoc. now rewrite startswith_app_both.
  - rewrite <- app_assoc. now rewrite str_eqb_app_both.
Qed.

(** A relative path is no child of an absolute root. *)
Lemma strip_root_prefix_relative (x : char) (v b : str) :
  N.eqb x SLASH = false ->
  strip_root_prefix (x :: v) (SLASH :: b) = x :: v.
Proof.
  intros H. unfold strip_root_prefix. simpl. now rewrite H.
Qed.

(** Under an absolute scratch area, a canonical path behind the segment
    [pre/] or [post/] comes back without the segment. *)
Lemma normalize_path_value_segment (ho : bool) (base : Path) (p : str) :
  let pre := joinpath base (lit "pre") in
  let post := joinpath base (lit "post") in
  is_plain_base base = true ->
  is_canonical pre post p = true ->
  normalize_path_value ho (lit "pre/" ++ p) pre post = p
  /\ normalize_path_value ho (lit "post/" ++ p) pre post = p.
Proof.
  intros pre post Hbase Hc.
  destruct (canonical_parts pre post p Hc)
    as [Hs [Hd [Hb [Hpre [Hpost [Hn1 Hn2]]]]]].
  destruct (plain_base_stem base Hbase) as [[b Hstem] Hbs].
  unfold pre, post in *. unfold normalize_path_value, set_iter.
  rewrite !(as_posix_joinpath base (lit "pre")).
  rewrite !(as_posix_joinpath base (lit "post")).
  set (stem := child_stem base) in *.
  assert (Hne : str_eqb (stem ++ lit "pre") (stem ++ lit "post") = false)
    by (now rewrite str_eqb_app_both).
  rewrite Hne. split.
  - assert (E : replace BACKSLASH (lit "/")
                  (strip_chars [DQUOTE] (strip (lit "pre/" ++ p)))
                = lit "pre/" ++ p).
    { apply (cleaned_fixed 112%N (lit "re") p eq_refl eq_refl);
        try assumption. simpl. intuition discriminate. }
    rewrite E, Hstem. simpl app.
    destruct ho; simpl fold_left;
      rewrite !strip_root_prefix_relative by reflexivity; reflexivity.
  - assert (E : replace BACKSLASH (lit "/")
                  (strip_chars [DQUOTE] (strip (lit "post/" ++ p)))
                = lit "post/" ++ p).
    { apply (cleaned_fixed 112%N (lit "ost") p eq_refl eq_refl);
        try assumption. simpl. intuition discriminate. }
    rewrite E, Hstem. simpl app.
    destruct ho; simpl fold_left;
      rewrite !strip_root_prefix_relative by reflexivity; reflexivity.
Qed.

(** Under the layout of [build_paths], a canonical path behind the full
    path of either worktree comes back without it. *)
Lemma normalize_path_value_root (ho : bool) (base : Path) (p : str) :
  let pre := joinpath base (lit "pre") in
  let post := joinpath base (lit "post") in
  is_plain_base base = true ->
  is_canonical pre post p = true ->
  normalize_path_value ho (as_posix pre ++ lit "/" ++ p) pre post = p
  /\ normalize_path_value ho (as_posix post ++ lit "/" ++ p) pre post = p.
Proof.
  intros pre post Hbase Hc.
  split;
    destruct (canonical_parts pre post p Hc)
      as [Hs [Hd [Hb [Hpre [Hpost [Hn1 Hn2]]]]]];
    destruct (plain_base_stem base Hbase) as [[b Hstem] Hbs];
    unfold pre, post in *; unfold normalize_path_value, set_iter;
    rewrite (as_posix_joinpath base (lit "pre")) in Hpre;
    rewrite (as_posix_joinpath base (lit "post")) in Hpost;
    rewrite !(as_posix_joinpath base (lit "pre"));
    rewrite !(as_posix_joinpath base (lit "post"));
    set (stem := child_stem base) in *;
    (assert (Hne : str_eqb (stem ++ lit "pre") (stem ++ lit "post") = false)
      by (now rewrite str_eqb_app_both));
    rewrite Hne.
  - assert (Hb1 : ~ In BACKSLASH (SLASH :: b ++ lit "pre")).
    { rewrite app_comm_cons, <- Hstem. intros Hin.
      apply in_app_or in Hin as [Hin|Hin]; [tauto|].
      simpl in Hin. intuition discriminate. }
    replace ((stem ++ lit "pre") ++ lit "/" ++ p)
      with ((SLASH :: b ++ lit "pre") ++ SLASH :: p)
      by (now rewrite Hstem).
    rewrite (cleaned_fixed SLASH (b ++ lit "pre") p eq_refl eq_refl Hb1 Hb Hs Hd).
    rewrite app_comm_cons, <- Hstem.
    assert (M : strip_root_prefix ((stem ++ lit "pre") ++ SLASH :: p)
                  (stem ++ lit "post")
                = (stem ++ lit "pre") ++ SLASH :: p)
      by (apply strip_root_prefix_miss; reflexivity).
    destruct ho; simpl fold_left.
    + rewrite M, strip_root_prefix_hit. now rewrite Hn1, Hn2.
    + rewrite strip_root_prefix_hit, Hpost. now rewrite Hn1, Hn2.
  - assert (Hb2 : ~ In BACKSLASH (SLASH :: b ++ lit "post")).
    { rewrite app_comm_cons, <- Hstem. intros Hin.
      apply in_app_or in Hin as [Hin|Hin]; [tauto|].
      simpl in Hin. intuition discriminate. }
    replace ((stem ++ lit "post") ++ lit "/" ++ p)
      with ((SLASH :: b ++ lit "post") ++ SLASH :: p)
      by (now rewrite Hstem).
    rewrite (cleaned_fixed SLASH (b ++ lit "post") p eq_refl eq_refl Hb2 Hb Hs Hd).
    rewrite app_comm_cons, <- Hstem.
    assert (M : strip_root_prefix ((stem ++ lit "post") ++ SLASH :: p)
                  (stem ++ lit "pre")
                = (stem ++ lit "post") ++ SLASH :: p)
      by (apply strip_root_prefix_miss; reflexivity).
    destruct ho; simpl fold_left.
    + rewrite strip_root_prefix_hit, Hpre. now rewrite Hn1, Hn2.
    + rewrite M, strip_root_prefix_hit. now rewrite Hn1, Hn2.
Qed.

(** X4.  With the layout of [build_paths] (worktrees [pre] and [post] directly
    under an absolute scratch area without backslashes),
    [normalize_path_value] maps a canonical path below either worktree,
    given by the worktree's full path or by the segment [pre/] or [post/],
    back to the canonical path, whatever the iteration order of the set
    of prefixes. *)
Theorem normalize_path_value_strips_worktree
        (ho : bool) (base : Path) (p : str) :
  let pre := joinpath base (lit "pre") in
  let post := joinpath base (lit "post") in
  is_plain_base base = true ->
  is_canonical pre post p = true ->
  normalize_path_value ho (as_posix pre ++ lit "/" ++ p) pre post = p
  /\ normalize_path_value ho (as_posix post ++ lit "/" ++ p) pre post = p
  /\ normalize_path_value ho (lit "pre/" ++ p) pre post = p
  /\ normalize_path_value ho (lit "post/" ++ p) pre post = p.
Proof.
  intros pre post Hbase Hc.
  destruct (normalize_path_value_root ho base p Hbase Hc) as [R1 R2].
  destruct (normalize_path_value_segment ho base p Hbase Hc) as [S1 S2].
  repeat split; assumption.
Qed.

Lemma normalize_path_value_strips_worktree_witness :
  normalize_path_value true
    (lit "/tmp/subagent_repo_janitor_7/post/docs/read me.md")
    Sample.pre Sample.post
  = lit "docs/read me.md".
Proof.
  apply (normalize_path_value_strips_worktree true Sample.scratch
           (lit "docs/read me.md")); reflexivity.
Defined.

(* ------------------------------------------------------------------ *)
(** * Applying [normalize_path_value] twice *)


Lemma rstrip_by_pad (f : char -> bool) (s r : str) :
  forallb f r = true -> rstrip_by f (s ++ r) = rstrip_by f s.
Proof.
  intros Hr. induction s as [|c s IH].
  - simpl. induction r as [|x r IHr]; [reflexivity|].
    simpl in Hr. apply andb_true_iff in Hr as [Hx Hr].
    simpl. now rewrite (IHr Hr), Hx.
  - simpl. now rewrite IH.
Qed.


(** Text between two characters that stay is left alone. *)
Lemma strip_by_between (f : char -> bool) (x : char) (h : str) (c : char)
      (q : str) :
  f x = false -> f c = false -> rstrip_by f q = q ->
  strip_by f ((x :: h ++ [c]) ++ q) = (x :: h ++ [c]) ++ q.
Proof.
  intros Hx Hc Hq. unfold strip_by.
  change ((x :: h ++ [c]) ++ q) with (x :: ((h ++ [c]) ++ q)).
  rewrite (lstrip_by_keep f x _ Hx).
  change (x :: ((h ++ [c]) ++ q)) with ((x :: h ++ [c]) ++ q).
  destruct q as [|y q].
  - rewrite app_nil_r.
    change (x :: h ++ [c]) with ((x :: h) ++ [c]).
    apply rstrip_by_app_fixed; [discriminate|]. simpl. now rewrite Hc.
  - apply rstrip_by_app_fixed; [discriminate | exact Hq].
Qed.





Lemma canonical_stripped (pre post : Path) (q : str) :
  is_canonical pre post q = true -> strip q = q.
Proof.
  unfold is_canonical. intros H.
  repeat (apply andb_true_iff in H as [H ?]).
  now apply str_eqb_eq.
Qed.





(* ------------------------------------------------------------------ *)
(** * Headers that name canonical paths *)

Lemma simple_char_classes (c : char) :
  simple_char c = true -> Shlex.quotes c = false /\ Shlex.escape c = false.
Proof.
  unfold simple_char. intros H. apply andb_true_iff in H as [Hq He].
  now apply negb_true_iff in Hq, He.
Qed.

Lemma emit_app (token : str) (a b : list str) :
  Shlex.emit false token (a ++ b) = Shlex.emit false token a ++ b.
Proof. unfold Shlex.emit. now destruct (truthy token || false). Qed.

(** On text without quote characters and backslashes the tokeniser
    computes [words_go], both up to the end of the input and up to a
    blank that is followed by more input. *)
Lemma read_tokens_simple (s : str) :
  forallb simple_char s = true ->
  forall st token,
    st = Shlex.Word \/ (st = Shlex.Space /\ token = []) ->
    Shlex.read_tokens st false token s = Some (words_go token s)
    /\ forall b rest,
        Shlex.whitespace b = true ->
        Shlex.read_tokens st false token (s ++ b :: rest)
        = option_map (app (words_go token s))
            (Shlex.read_tokens Shlex.Space false [] rest).
Proof.
  induction s as [|c s IH]; intros Hs st token Hst.
  - split.
    + destruct Hst as [->|[-> ->]]; reflexivity.
    + intros b rest Hb.
      destruct Hst as [->|[-> ->]]; cbn [app Shlex.read_tokens words_go];
        rewrite Hb;
        destruct (Shlex.read_tokens Shlex.Space false [] rest);
        cbn [option_map]; try reflexivity.
      now rewrite <- emit_app.
  - cbn [forallb] in Hs. apply andb_true_iff in Hs as [Hc Hs].
    destruct (simple_char_classes c Hc) as [Hq He].
    cbn [words_go]. destruct (Shlex.whitespace c) eqn:W.
    + destruct (IH Hs Shlex.Space [] (or_intror (conj eq_refl eq_refl)))
        as [I1 I2].
      split.
      * destruct Hst as [->|[-> ->]]; cbn [Shlex.read_tokens];
          rewrite W, I1; reflexivity.
      * intros b rest Hb.
        destruct Hst as [->|[-> ->]]; cbn [app Shlex.read_tokens];
          rewrite W, (I2 b rest Hb);
          destruct (Shlex.read_tokens Shlex.Space false [] rest);
          cbn [option_map]; try reflexivity;
          now rewrite emit_app.
    + destruct (IH Hs Shlex.Word (token ++ [c]) (or_introl eq_refl))
        as [I1 I2].
      split.
      * destruct Hst as [->|[-> ->]]; cbn [Shlex.read_tokens];
          rewrite W, Hq, He; exact I1.
      * intros b rest Hb.
        destruct Hst as [->|[-> ->]]; cbn [app Shlex.read_tokens];
          rewrite W, Hq, He; exact (I2 b rest Hb).
Qed.

Lemma words_go_no_blank (s : str) :
  existsb Shlex.whitespace s = false ->
  forall token, truthy (token ++ s) = true -> words_go token s = [token ++ s].
Proof.
  induction s as [|c s IH]; intros H token T.
  - rewrite app_nil_r in *. cbn [words_go]. unfold Shlex.emit. now rewrite T.
  - cbn [existsb] in H. apply orb_false_iff in H as [W H].
    cbn [words_go]. rewrite W. rewrite (IH H).
    + now rewrite <- app_assoc.
    + destruct token; reflexivity.
Qed.

Lemma words_go_last (s : str) (y : char) :
  Shlex.whitespace y = false ->
  forall token, words_go token (s ++ [y]) <> [].
Proof.
  intros Hy. induction s as [|c s IH]; intros token.
  - cbn [app words_go]. rewrite Hy. cbn [words_go]. unfold Shlex.emit.
    destruct token; discriminate.
  - cbn [app words_go]. destruct (Shlex.whitespace c); [|apply IH].
    unfold Shlex.emit. destruct (truthy token || false); [discriminate|].
    apply IH.
Qed.

(** A blank inside text that ends in a word gives a second token. *)
Lemma words_go_blank (s : str) (y : char) :
  Shlex.whitespace y = false ->
  existsb Shlex.whitespace s = true ->
  forall token, token <> [] -> 2 <= List.length (words_go token (s ++ [y])).
Proof.
  intros Hy. induction s as [|c s IH]; intros B token Ht; [discriminate|].
  cbn [app words_go]. destruct (Shlex.whitespace c) eqn:W.
  - unfold Shlex.emit. destruct token as [|t ts]; [contradiction|].
    cbn [truthy orb].
    pose proof (words_go_last s y Hy []) as L.
    destruct (words_go [] (s ++ [y])); [contradiction|]. simpl. lia.
  - cbn [existsb] in B. rewrite W in B. apply IH; [exact B|].
    destruct token; discriminate.
Qed.

Lemma rstrip_by_shorter (f : char -> bool) (s : str) :
  List.length (rstrip_by f s) <= List.length s.
Proof.
  induction s as [|c s IH]; [reflexivity|].
  simpl. destruct (rstrip_by f s); [destruct (f c)|]; simpl in *; lia.
Qed.

(** Text that [strip] leaves alone begins and ends with characters that
    stay. *)
Lemma strip_by_fixed_head (f : char -> bool) (x : char) (r : str) :
  strip_by f (x :: r) = x :: r -> f x = false.
Proof.
  unfold strip_by. intros H. destruct (f x) eqn:X; [|reflexivity].
  exfalso. simpl in H. rewrite X in H.
  assert (L : List.length (rstrip_by f (lstrip_by f r)) <= List.length r).
  { etransitivity; [apply rstrip_by_shorter|].
    clear. induction r as [|c r IH]; [reflexivity|].
    simpl. destruct (f c); simpl; lia. }
  rewrite H in L. simpl in L. lia.
Qed.

Lemma strip_by_fixed_last (f : char -> bool) (r : str) (y : char) :
  strip_by f (r ++ [y]) = r ++ [y] -> f y = false.
Proof.
  intros H. apply strip_by_fixed_right in H.
  destruct (f y) eqn:Y; [|reflexivity]. exfalso.
  rewrite (rstrip_by_pad f r [y]) in H by (simpl; now rewrite Y).
  pose proof (rstrip_by_shorter f r) as L. rewrite H in L.
  rewrite length_app in L. simpl in L. lia.
Qed.

(** Two texts without blanks at their ends, one blank between them. *)
Lemma strip_pair (a b : str) :
  a <> [] -> b <> [] -> strip a = a -> strip b = b ->
  strip (a ++ lit " " ++ b) = a ++ lit " " ++ b.
Proof.
  intros Ha Hb Sa Sb. destruct a as [|x a]; [contradiction|].
  pose proof (strip_by_fixed_head isspace x a Sa) as Hx.
  unfold strip, strip_by.
  change ((x :: a) ++ lit " " ++ b) with (x :: (a ++ lit " " ++ b)).
  rewrite (lstrip_by_keep isspace x _ Hx).
  change (x :: (a ++ lit " " ++ b)) with ((x :: a) ++ lit " " ++ b).
  rewrite app_assoc. apply rstrip_by_app_fixed; [exact Hb|].
  now apply (strip_by_fixed_right isspace).
Qed.

Lemma diff_lead_cases (d p : str) :
  is_diff_lead_for d p = true -> d = lit "a/" \/ d = lit "b/" \/ d = [].
Proof.
  unfold is_diff_lead_for. intros H.
  apply orb_true_iff in H as [H|H]; [apply orb_true_iff in H as [H|H]|].
  - left. now apply str_eqb_eq.
  - right. left. now apply str_eqb_eq.
  - right. right. apply andb_true_iff in H as [H _].
    apply andb_true_iff in H as [H _]. now apply str_eqb_eq.
Qed.

Lemma not_excluded_nonempty (p : str) : is_excluded_path p = false -> p <> [].
Proof. intros H ->. discriminate. Qed.

(** The facts of a stable side. *)
Lemma stable_side_parts (pre post : Path) (s : side) :
  is_stable_side pre post s = true ->
  is_diff_lead_for (side_lead s) (side_path s) = true
  /\ is_canonical pre post (side_path s) = true
  /\ is_excluded_path (side_path s) = false
  /\ side_path s <> []
  /\ strip (side_lead s ++ side_path s) = side_lead s ++ side_path s.
Proof.
  unfold is_stable_side. intros H.
  apply andb_true_iff in H as [H _].
  apply andb_true_iff in H as [H He]. apply andb_true_iff in H as [Hd Hc].
  apply negb_true_iff in He.
  pose proof (not_excluded_nonempty _ He) as Hne.
  repeat split; try assumption.
  pose proof (canonical_stripped pre post _ Hc) as Sp.
  destruct (diff_lead_cases _ _ Hd) as [E|[E|E]]; rewrite E.
  - apply (strip_by_between isspace 97%N [] SLASH); try reflexivity.
    now apply (strip_by_fixed_right isspace).
  - apply (strip_by_between isspace 98%N [] SLASH); try reflexivity.
    now apply (strip_by_fixed_right isspace).
  - exact Sp.
Qed.

Lemma side_text_stripped (pre post : Path) (s : side) :
  is_stable_side pre post s = true ->
  side_text s <> [] /\ strip (side_text s) = side_text s.
Proof.
  intros H. destruct (stable_side_parts pre post s H)
    as [Hd [Hc [He [Hne Hs]]]].
  destruct s as [d p|d p]; simpl in *.
  - split; [|exact Hs].
    intros E. apply app_eq_nil in E as [_ E]. contradiction.
  - split; [discriminate|].
    apply (wrapped_is_quoted (d ++ p)).
Qed.

Lemma forallb_weaken {A : Type} (f g : A -> bool) (l : list A) :
  (forall x, f x = true -> g x = true) ->
  forallb f l = true -> forallb g l = true.
Proof.
  intros W. induction l as [|x l IH]; [reflexivity|].
  simpl. intros H. apply andb_true_iff in H as [Hx Hl].
  now rewrite (W x Hx), (IH Hl).
Qed.

Lemma bare_side_simple (d p : str) :
  is_diff_lead_for d p = true -> forallb bare_char p = true ->
  forallb simple_char (d ++ p) = true.
Proof.
  intros Hd Hp. rewrite forallb_app.
  assert (S : forallb simple_char p = true).
  { apply (forallb_weaken bare_char); [|exact Hp].
    intros x Hx. unfold bare_char in Hx.
    now apply andb_true_iff in Hx as [Hx _]. }
  rewrite S. destruct (diff_lead_cases _ _ Hd) as [E|[E|E]]; now rewrite E.
Qed.

(** Inside double quotes, text without double quote and backslash is
    read as it stands. *)
Lemma read_tokens_quoted (v : str) :
  forallb quoted_char v = true ->
  forall token rest,
    Shlex.read_tokens (Shlex.Quote DQUOTE) false token (v ++ DQUOTE :: rest)
    = Shlex.read_tokens Shlex.Word true (token ++ v) rest.
Proof.
  induction v as [|c v IH]; intros Hv token rest.
  - cbn [app Shlex.read_tokens]. rewrite N.eqb_refl. now rewrite app_nil_r.
  - cbn [forallb] in Hv. apply andb_true_iff in Hv as [Hc Hv].
    unfold quoted_char in Hc. apply andb_true_iff in Hc as [Hq He].
    apply negb_true_iff in Hq, He.
    cbn [app Shlex.read_tokens]. rewrite Hq, He. cbn [andb].
    assert (Q : forall token' ,
               Shlex.read_tokens (Shlex.Quote DQUOTE) true token'
                 (v ++ DQUOTE :: rest)
               = Shlex.read_tokens Shlex.Word true (token' ++ v) rest).
    { clear - Hv. revert Hv. induction v as [|x v IHv]; intros Hv token'.
      - cbn [app Shlex.read_tokens]. rewrite N.eqb_refl.
        now rewrite app_nil_r.
      - cbn [forallb] in Hv. apply andb_true_iff in Hv as [Hx Hv].
        unfold quoted_char in Hx. apply andb_true_iff in Hx as [Hq He].
        apply negb_true_iff in Hq, He.
        cbn [app Shlex.read_tokens]. rewrite Hq, He. cbn [andb].
        rewrite (IHv Hv). now rewrite <- app_assoc. }
    rewrite Q. now rewrite <- app_assoc.
Qed.

(** The tokeniser reads a stable side as [side_tokens], at the end of the
    input and in front of a blank. *)
Lemma read_tokens_side (pre post : Path) (s : side) :
  is_stable_side pre post s = true ->
  Shlex.read_tokens Shlex.Space false [] (side_text s) = Some (side_tokens s)
  /\ forall rest,
      Shlex.read_tokens Shlex.Space false [] (side_text s ++ lit " " ++ rest)
      = option_map (app (side_tokens s))
          (Shlex.read_tokens Shlex.Space false [] rest).
Proof.
  intros H. pose proof H as H'. unfold is_stable_side in H'.
  apply andb_true_iff in H' as [H' Hk].
  apply andb_true_iff in H' as [H' _]. apply andb_true_iff in H' as [Hd _].
  destruct s as [d p|d p]; cbn [side_lead side_path side_text side_tokens] in *.
  - pose proof (bare_side_simple d p Hd Hk) as S.
    destruct (read_tokens_simple (d ++ p) S Shlex.Space []
                (or_intror (conj eq_refl eq_refl))) as [I1 I2].
    split; [exact I1|]. intros rest. now apply I2.
  - apply andb_true_iff in Hk as [_ Hq].
    assert (V : forallb quoted_char (d ++ p) = true).
    { rewrite forallb_app, Hq.
      destruct (diff_lead_cases _ _ Hd) as [E|[E|E]]; now rewrite E. }
    split.
    + cbn [app Shlex.read_tokens]. cbn.
      rewrite (read_tokens_quoted (d ++ p) V [] []).
      cbn [app Shlex.read_tokens]. unfold Shlex.emit.
      now rewrite orb_true_r.
    + intros rest. cbn [app Shlex.read_tokens]. cbn.
      rewrite <- app_assoc. cbn [app].
      etransitivity;
        [exact (read_tokens_quoted (d ++ p) V [] (32%N :: rest))|].
      cbn [app Shlex.read_tokens]. cbn.
      destruct (Shlex.read_tokens Shlex.Space false [] rest);
        cbn [option_map]; [|reflexivity].
      unfold Shlex.emit. now rewrite orb_true_r.
Qed.

Lemma bare_char_plain (p : str) :
  forallb bare_char p = true -> existsb Shlex.whitespace p = false ->
  forallb plain_char p = true.
Proof.
  induction p as [|c p IH]; [reflexivity|].
  cbn [forallb existsb]. intros H W.
  apply andb_true_iff in H as [Hc Hp]. apply orb_false_iff in W as [Wc Wp].
  rewrite (IH Hp Wp), andb_true_r.
  unfold bare_char in Hc. apply andb_true_iff in Hc as [Hs Hb].
  destruct (simple_char_classes c Hs) as [Hq He].
  unfold plain_char. rewrite Hq, He. rewrite Wc, orb_false_r in Hb.
  now rewrite Hb.
Qed.

(** The token inside double quotes comes back inside double quotes. *)
Lemma quoted_token_normal (ho : bool) (d p : str) (pre post : Path) :
  is_diff_lead_for d p = true ->
  is_canonical pre post p = true ->
  p <> [] ->
  let token := [DQUOTE] ++ (d ++ p) ++ [DQUOTE] in
  normalize_diff_token ho token pre post = token
  /\ extract_normalized_path ho token pre post = p.
Proof.
  intros Hd Hc Hne token.
  destruct (wrapped_is_quoted (d ++ p)) as [S Q]. fold token in S, Q.
  destruct (is_canonical_settled pre post p Hc) as [Hb Hs].
  pose proof (normalize_path_value_fixed ho p pre post Hb Hs) as Hn.
  pose proof (split_diff_prefix_lead d p Hd) as Hsp.
  assert (I : slice_inner token = d ++ p).
  { unfold token, slice_inner. cbn [app tl]. apply removelast_last. }
  split.
  - rewrite normalize_diff_token_unfold. cbv zeta.
    rewrite S, Q, I, Hsp. cbn [fst snd]. rewrite Hn.
    destruct p; [contradiction | reflexivity].
  - unfold extract_normalized_path. rewrite S, Q, I.
    unfold split_diff_prefix in Hsp.
    set (sa := startswith (d ++ p) (lit "a/")) in *.
    set (sb := startswith (d ++ p) (lit "b/")) in *.
    set (cut := slice_from 2 (d ++ p)) in *.
    destruct sa, sb; simpl orb; cbv iota; injection Hsp as _ E;
      rewrite E; exact Hn.
Qed.

(** A stable side is one token that comes back as the side stands, or it
    is more than one token. *)
Lemma side_single (ho : bool) (pre post : Path) (s : side) :
  is_stable_side pre post s = true ->
  (exists t,
      side_tokens s = [t]
      /\ quote_if_needed t = side_text s
      /\ normalize_diff_token ho (side_text s) pre post = side_text s
      /\ extract_normalized_path ho (side_text s) pre post = side_path s)
  \/ 2 <= List.length (side_tokens s).
Proof.
  intros H.
  destruct (stable_side_parts pre post s H) as [Hd [Hc [He [Hne Hs]]]].
  unfold is_stable_side in H. apply andb_true_iff in H as [_ Hk].
  destruct s as [d p|d p]; cbn [side_lead side_path side_text side_tokens] in *.
  - destruct (existsb Shlex.whitespace p) eqn:W.
    + right.
      destruct (exists_last Hne) as [r [y E]].
      assert (Hy : Shlex.whitespace y = false).
      { destruct (Shlex.whitespace y) eqn:Y; [|reflexivity].
        pose proof (canonical_stripped pre post p Hc) as Sp.
        rewrite E in Sp. apply strip_by_fixed_last in Sp.
        apply shlex_whitespace_isspace in Y. congruence. }
      assert (Wr : existsb Shlex.whitespace r = true).
      { rewrite E, existsb_app in W. simpl in W.
        rewrite Hy in W. simpl in W. now rewrite orb_false_r in W. }
      rewrite E.
      destruct (diff_lead_cases _ _ Hd) as [D|[D|D]]; rewrite D.
      * cbn [app words_go]. cbn.
        apply (words_go_blank r y Hy Wr); discriminate.
      * cbn [app words_go]. cbn.
        apply (words_go_blank r y Hy Wr); discriminate.
      * cbn [app]. destruct r as [|x r]; [discriminate|].
        assert (Hx : Shlex.whitespace x = false).
        { destruct (Shlex.whitespace x) eqn:X; [|reflexivity].
          pose proof (canonical_stripped pre post p Hc) as Sp.
          rewrite E in Sp. apply strip_by_fixed_head in Sp.
          apply shlex_whitespace_isspace in X. congruence. }
        cbn [app words_go]. rewrite Hx.
        cbn [existsb] in Wr. rewrite Hx in Wr.
        apply (words_go_blank r y Hy Wr); discriminate.
    + left. exists (d ++ p).
      pose proof (bare_char_plain p Hk W) as Pp.
      assert (P : is_plain p = true).
      { unfold is_plain. rewrite Pp. destruct p; [contradiction|reflexivity]. }
      destruct (plain_token_normal ho d p pre post Hd P Hc) as [N X].
      pose proof (is_plain_lead d p Hd P) as Pt.
      repeat split; try assumption.
      * apply (words_go_no_blank (d ++ p)) with (token := []).
        -- rewrite existsb_app, W.
           destruct (diff_lead_cases _ _ Hd) as [D|[D|D]]; now rewrite D.
        -- destruct (is_plain_cons _ Pt) as [c [r [E _]]]. now rewrite E.
      * now apply quote_if_needed_plain.
  - left. exists (d ++ p).
    apply andb_true_iff in Hk as [Hw Hq].
    destruct (quoted_token_normal ho d p pre post Hd Hc Hne) as [N X].
    repeat split; try assumption.
    unfold quote_if_needed.
    rewrite existsb_app, Hw, orb_true_r.
    assert (V : forallb quoted_char (d ++ p) = true).
    { rewrite forallb_app, Hq.
      destruct (diff_lead_cases _ _ Hd) as [E|[E|E]]; now rewrite E. }
    assert (B : ~ In BACKSLASH (d ++ p)).
    { intros Hin. rewrite forallb_forall in V. apply V in Hin. discriminate. }
    assert (Q : ~ In DQUOTE (d ++ p)).
    { intros Hin. rewrite forallb_forall in V. apply V in Hin. discriminate. }
    rewrite (replace_absent BACKSLASH _ _ B).
    now rewrite (replace_absent DQUOTE _ _ Q).
Qed.

Lemma side_tokens_nonempty (pre post : Path) (s : side) :
  is_stable_side pre post s = true -> 1 <= List.length (side_tokens s).
Proof.
  intros H. destruct (side_single false pre post s H) as [[t [E _]]|L];
    [rewrite E; simpl|]; lia.
Qed.

(** A header that does not split into two tokens is handed back as it
    is. *)
Lemma handle_diff_header_passthrough (ho : bool) (line : str)
      (pre post : Path) (ts : list str) :
  Shlex.split (strip (slice_from (List.length (lit "diff --git ")) line))
  = Some ts ->
  List.length ts <> 2 ->
  handle_diff_header ho line pre post = (false, Some line).
Proof.
  intros T L. unfold handle_diff_header.
  destruct (negb (startswith line (lit "diff --git "))); [reflexivity|].
  destruct (negb (truthy _)); [reflexivity|].
  rewrite T. destruct ts as [|a [|b [|c r]]]; try reflexivity.
  simpl in L. lia.
Qed.

(** C4 (as the code has it).  A path in canonical form is returned by
    [normalize_path_value] unchanged.  A header [diff --git L R] is
    returned by [handle_diff_header] unchanged, with the skip flag off,
    when each of [L] and [R] names a canonical path that is not excluded,
    behind a diff prefix, either bare, without quote characters,
    backslashes and white space other than the tokeniser's blanks, or
    inside double quotes, with white space in it and without double
    quotes and backslashes. *)
Theorem canonical_path_and_header_unchanged
        (ho : bool) (pre post : Path) :
  (forall p : str,
      is_canonical pre post p = true ->
      normalize_path_value ho p pre post = p)
  /\ (forall left right : side,
        is_stable_side pre post left = true ->
        is_stable_side pre post right = true ->
        let line :=
          lit "diff --git " ++ side_text left ++ lit " " ++ side_text right in
        handle_diff_header ho line pre post = (false, Some line)).
Proof.
  split.
  - intros p Hc. destruct (is_canonical_settled pre post p Hc) as [Hb Hs].
    now apply normalize_path_value_fixed.
  - intros left right Hl Hr line.
    destruct (side_text_stripped pre post left Hl) as [Nl Sl].
    destruct (side_text_stripped pre post right Hr) as [Nr Sr].
    destruct (read_tokens_side pre post left Hl) as [_ Ml].
    destruct (read_tokens_side pre post right Hr) as [Er _].
    assert (S : strip (slice_from (List.length (lit "diff --git ")) line)
                = side_text left ++ lit " " ++ side_text right).
    { unfold line. rewrite slice_from_app. now apply strip_pair. }
    assert (T : Shlex.split (side_text left ++ lit " " ++ side_text right)
                = Some (side_tokens left ++ side_tokens right)).
    { unfold Shlex.split. rewrite Ml, Er. reflexivity. }
    pose proof (side_tokens_nonempty pre post left Hl) as G0.
    pose proof (side_tokens_nonempty pre post right Hr) as G1.
    destruct (side_single ho pre post left Hl)
      as [[t0 [E0 [Q0 [N0 X0]]]]|L0];
      destruct (side_single ho pre post right Hr)
        as [[t1 [E1 [Q1 [N1 X1]]]]|L1];
      try (apply (handle_diff_header_passthrough ho line pre post
                    (side_tokens left ++ side_tokens right));
           [rewrite S; exact T | rewrite length_app; lia]).
    unfold handle_diff_header. rewrite S. unfold line at 1.
    rewrite startswith_app. rewrite T.
    assert (Tr : truthy (side_text left ++ lit " " ++ side_text right) = true)
      by (destruct (side_text left); [contradiction | reflexivity]).
    rewrite Tr. change (negb true) with false. cbv iota.
    rewrite E0, E1. cbn [app]. rewrite Q0, Q1, N0, N1, X0, X1.
    destruct (stable_side_parts pre post left Hl) as [_ [_ [e0 _]]].
    destruct (stable_side_parts pre post right Hr) as [_ [_ [e1 _]]].
    rewrite e0, e1. reflexivity.
Qed.

Lemma canonical_path_and_header_unchanged_witness :
  normalize_path_value true (lit "src/a b.txt") Sample.pre Sample.post
  = lit "src/a b.txt"
  /\ handle_diff_header true (lit "diff --git a/src/lib.rs b/src/lib.rs")
       Sample.pre Sample.post
     = (false, Some (lit "diff --git a/src/lib.rs b/src/lib.rs"))
  /\ handle_diff_header true (lit "diff --git a/my file b/my file")
       Sample.pre Sample.post
     = (false, Some (lit "diff --git a/my file b/my file"))
  /\ handle_diff_header true
       (lit "diff --git " ++ [DQUOTE] ++ lit "a/my file" ++ [DQUOTE]
        ++ lit " " ++ [DQUOTE] ++ lit "b/my file" ++ [DQUOTE])
       Sample.pre Sample.post
     = (false,
        Some (lit "diff --git " ++ [DQUOTE] ++ lit "a/my file" ++ [DQUOTE]
              ++ lit " " ++ [DQUOTE] ++ lit "b/my file" ++ [DQUOTE])).
Proof.
  destruct (canonical_path_and_header_unchanged true Sample.pre Sample.post)
    as [P Hdr].
  split; [apply P; reflexivity|].
  split; [|split].
  - exact (Hdr (Bare (lit "a/") (lit "src/lib.rs"))
               (Bare (lit "b/") (lit "src/lib.rs")) eq_refl eq_refl).
  - exact (Hdr (Bare (lit "a/") (lit "my file"))
               (Bare (lit "b/") (lit "my file")) eq_refl eq_refl).
  - exact (Hdr (Quoted (lit "a/") (lit "my file"))
               (Quoted (lit "b/") (lit "my file")) eq_refl eq_refl).
Defined.

(** C4 fails as stated for headers: the path ['x'] is canonical, yet the
    header that names it loses its quote characters; and a header of
    canonical paths under [.git] is dropped. *)
Lemma handle_diff_header_changes_canonical_header :
  is_canonical Sample.pre Sample.post (lit "'x'") = true
  /\ handle_diff_header false (lit "diff --git a/'x' b/'x'")
       Sample.pre Sample.post
     = (false, Some (lit "diff --git a/x b/x"))
  /\ handle_diff_header false (lit "diff --git a/'x' b/'x'")
       Sample.pre Sample.post
     <> (false, Some (lit "diff --git a/'x' b/'x'"))
  /\ is_canonical Sample.pre Sample.post (lit ".git/config") = true
  /\ handle_diff_header false (lit "diff --git a/.git/config b/.git/config")
       Sample.pre Sample.post
     = (true, None).
Proof.
  repeat split; try reflexivity. vm_compute. discriminate.
Qed.

(** White space that is no blank of the tokeniser, here a form feed,
    stays inside a token, and [quote_if_needed] then wraps the token in
    double quotes: such a bare header is not handed back as it is. *)
Lemma handle_diff_header_quotes_form_feed :
  let p := lit "x" ++ [12%N] ++ lit "y" in
  is_canonical Sample.pre Sample.post p = true
  /\ handle_diff_header false
       (lit "diff --git a/" ++ p ++ lit " b/" ++ p) Sample.pre Sample.post
     = (false,
        Some (lit "diff --git " ++ [DQUOTE] ++ lit "a/" ++ p ++ [DQUOTE]
              ++ lit " " ++ [DQUOTE] ++ lit "b/" ++ p ++ [DQUOTE])).
Proof. split; reflexivity. Qed.

(* ------------------------------------------------------------------ *)
(** * Metadata lines under the worktree layout *)

Lemma strip_fixed (x : char) (h p : str) :
  isspace x = false -> rstrip_by isspace p = p ->
  strip ((x :: h) ++ SLASH :: p) = (x :: h) ++ SLASH :: p.
Proof.
  intros Hx Hp. unfold strip, strip_by.
  change ((x :: h) ++ SLASH :: p) with (x :: (h ++ SLASH :: p)).
  rewrite (lstrip_by_keep isspace x _ Hx).
  change (x :: (h ++ SLASH :: p)) with ((x :: h) ++ SLASH :: p).
  now rewrite (rstrip_by_app_keep isspace (x :: h) SLASH p eq_refl), Hp.
Qed.

(** A token [d w p]: diff prefix [d] (or none), worktree segment [w],
    canonical path [p].  The segment goes, the prefix stays. *)
Lemma normalize_diff_token_segment (ho : bool) (base : Path) (d w p : str) :
  let pre := joinpath base (lit "pre") in
  let post := joinpath base (lit "post") in
  is_plain_base base = true ->
  is_canonical pre post p = true ->
  truthy p = true ->
  d = lit "a/" \/ d = lit "b/" \/ d = [] ->
  w = lit "pre/" \/ w = lit "post/" ->
  strip (d ++ w ++ p) = d ++ w ++ p
  /\ startswith (d ++ w ++ p) (lit "/") = false
  /\ normalize_diff_token ho (d ++ w ++ p) pre post = d ++ p.
Proof.
  intros pre post Hbase Hc Hp Hd Hw.
  destruct (normalize_path_value_segment ho base p Hbase Hc) as [S1 S2].
  destruct (canonical_parts pre post p Hc) as [Hs _].
  fold pre in S1, S2. fold post in S1, S2.
  assert (E : strip (d ++ w ++ p) = d ++ w ++ p).
  { destruct Hd as [-> | [-> | ->]]; destruct Hw as [-> | ->].
    - apply (strip_fixed 97%N (lit "/pre") p eq_refl Hs).
    - apply (strip_fixed 97%N (lit "/post") p eq_refl Hs).
    - apply (strip_fixed 98%N (lit "/pre") p eq_refl Hs).
    - apply (strip_fixed 98%N (lit "/post") p eq_refl Hs).
    - apply (strip_fixed 112%N (lit "re") p eq_refl Hs).
    - apply (strip_fixed 112%N (lit "ost") p eq_refl Hs). }
  split; [exact E|]. split.
  { destruct Hd as [-> | [-> | ->]]; destruct Hw as [-> | ->]; reflexivity. }
  unfold normalize_diff_token. rewrite E.
  assert (Q : startswith (d ++ w ++ p) [DQUOTE] = false)
    by (destruct Hd as [-> | [-> | ->]]; destruct Hw as [-> | ->]; reflexivity).
  rewrite Q. simpl andb. cbv iota.
  assert (Sp : split_diff_prefix (d ++ w ++ p) = (d, w ++ p))
    by (destruct Hd as [-> | [-> | ->]]; destruct Hw as [-> | ->]; reflexivity).
  rewrite Sp.
  assert (Nv : normalize_path_value ho (w ++ p) pre post = p)
    by (destruct Hw as [-> | ->]; assumption).
  rewrite Nv, Hp. reflexivity.
Qed.

(** X5.  On the file markers and rename lines that [git diff --no-index pre
    post] prints, [normalize_patch_metadata_line] removes the worktree
    segment and keeps the marker and the diff prefix; a [/dev/null] marker
    is returned as it is. *)
Theorem normalize_patch_metadata_line_strips_worktree
        (ho : bool) (base : Path) (d w p : str) :
  let pre := joinpath base (lit "pre") in
  let post := joinpath base (lit "post") in
  is_plain_base base = true ->
  is_canonical pre post p = true ->
  truthy p = true ->
  d = lit "a/" \/ d = lit "b/" ->
  w = lit "pre/" \/ w = lit "post/" ->
  normalize_patch_metadata_line ho (lit "--- " ++ d ++ w ++ p) pre post
  = lit "--- " ++ d ++ p
  /\ normalize_patch_metadata_line ho (lit "+++ " ++ d ++ w ++ p) pre post
     = lit "+++ " ++ d ++ p
  /\ normalize_patch_metadata_line ho (lit "rename from " ++ w ++ p) pre post
     = lit "rename from " ++ p
  /\ normalize_patch_metadata_line ho (lit "rename to " ++ w ++ p) pre post
     = lit "rename to " ++ p
  /\ (forall t, strip t = lit "/dev/null" ->
      normalize_patch_metadata_line ho (lit "--- " ++ t) pre post
      = lit "--- " ++ t
      /\ normalize_patch_metadata_line ho (lit "+++ " ++ t) pre post
         = lit "+++ " ++ t).
Proof.
  intros pre post Hbase Hc Hp Hd Hw.
  destruct (normalize_diff_token_segment ho base d w p Hbase Hc Hp
              (match Hd with or_introl e => or_introl e
                           | or_intror e => or_intror (or_introl e) end) Hw)
    as [E1 [F1 T1]].
  destruct (normalize_diff_token_segment ho base [] w p Hbase Hc Hp
              (or_intror (or_intror eq_refl)) Hw)
    as [E2 [F2 T2]].
  fold pre in T1, T2. fold post in T1, T2. simpl app in E2, F2, T2.
  assert (N1 : str_eqb (d ++ w ++ p) (lit "/dev/null") = false).
  { destruct (d ++ w ++ p) as [|c r]; [reflexivity|].
    simpl in F1. apply andb_false_iff in F1 as [F1|F1]; [|discriminate].
    simpl. now rewrite F1. }
  unfold normalize_patch_metadata_line.
  split; [|split; [|split; [|split]]].
  - change (startswith (lit "--- " ++ d ++ w ++ p) (lit "--- ")) with true.
    simpl orb. cbv iota.
    change (slice_from 4 (lit "--- " ++ d ++ w ++ p)) with (d ++ w ++ p).
    change (slice_to 4 (lit "--- " ++ d ++ w ++ p)) with (lit "--- ").
    now rewrite E1, N1, T1.
  - change (startswith (lit "+++ " ++ d ++ w ++ p) (lit "--- ")) with false.
    change (startswith (lit "+++ " ++ d ++ w ++ p) (lit "+++ ")) with true.
    simpl orb. cbv iota.
    change (slice_from 4 (lit "+++ " ++ d ++ w ++ p)) with (d ++ w ++ p).
    change (slice_to 4 (lit "+++ " ++ d ++ w ++ p)) with (lit "+++ ").
    now rewrite E1, N1, T1.
  - change (startswith (lit "rename from " ++ w ++ p) (lit "--- ")) with false.
    change (startswith (lit "rename from " ++ w ++ p) (lit "+++ ")) with false.
    change (startswith (lit "rename from " ++ w ++ p) (lit "rename from "))
      with true.
    simpl orb. cbv iota.
    change (slice_from 12 (lit "rename from " ++ w ++ p)) with (w ++ p).
    now rewrite T2.
  - change (startswith (lit "rename to " ++ w ++ p) (lit "--- ")) with false.
    change (startswith (lit "rename to " ++ w ++ p) (lit "+++ ")) with false.
    change (startswith (lit "rename to " ++ w ++ p) (lit "rename from "))
      with false.
    change (startswith (lit "rename to " ++ w ++ p) (lit "rename to "))
      with true.
    simpl orb. cbv iota.
    change (slice_from 10 (lit "rename to " ++ w ++ p)) with (w ++ p).
    now rewrite T2.
  - intros t Ht. split.
    + change (startswith (lit "--- " ++ t) (lit "--- ")) with true.
      simpl orb. cbv iota.
      change (slice_from 4 (lit "--- " ++ t)) with t.
      now rewrite Ht.
    + change (startswith (lit "+++ " ++ t) (lit "--- ")) with false.
      change (startswith (lit "+++ " ++ t) (lit "+++ ")) with true.
      simpl orb. cbv iota.
      change (slice_from 4 (lit "+++ " ++ t)) with t.
      now rewrite Ht.
Qed.

Lemma normalize_patch_metadata_line_strips_worktree_witness :
  normalize_patch_metadata_line false (lit "rename to post/docs/new name.md")
    Sample.pre Sample.post
  = lit "rename to docs/new name.md"
  /\ normalize_patch_metadata_line false (lit "+++ b/post/docs/new name.md")
       Sample.pre Sample.post
     = lit "+++ b/docs/new name.md".
Proof.
  destruct (normalize_patch_metadata_line_strips_worktree false Sample.scratch
              (lit "b/") (lit "post/") (lit "docs/new name.md")
              eq_refl eq_refl eq_refl (or_intror eq_refl) (or_intror eq_refl))
    as [_ [H1 [_ [H2 _]]]].
  split; [exact H2 | exact H1].
Defined.

(* ------------------------------------------------------------------ *)
(** * Headers and blocks that are kept *)

Lemma handle_diff_header_result (ho : bool) (line : str) (pre post : Path) :
  handle_diff_header ho line pre post = (true, None)
  \/ exists h,
      handle_diff_header ho line pre post = (false, Some h)
      /\ (startswith line (lit "diff --git ") = true ->
          startswith h (lit "diff --git ") = true).
Proof.
  unfold handle_diff_header.
  change (List.length (lit "diff --git ")) with 11.
  set (remainder := strip (slice_from 11 line)).
  destruct (startswith line (lit "diff --git ")) eqn:S;
    [|right; exists line; split; [reflexivity | discriminate]].
  simpl negb. cbv iota.
  destruct (truthy remainder);
    [|right; exists line; split; [reflexivity | now intros _]].
  simpl negb. cbv iota.
  destruct (Shlex.split remainder) as [[|t0 [|t1 [|t2 ts]]]|];
    try (right; exists line; split; [reflexivity | now intros _]).
  destruct (is_excluded_path _ || is_excluded_path _); [now left|].
  right. eexists. split; [reflexivity|]. intros _. apply startswith_app.
Qed.

(** X6.  The outcomes of [handle_diff_header].  A line that is no header, or a
    header that does not split into exactly two tokens (or does not split
    at all), is returned as it is with the skip flag off.  Otherwise the
    header is either dropped with the skip flag on, or returned with the
    skip flag off, and then it still begins with [diff --git ]. *)
Theorem handle_diff_header_outcomes (ho : bool) (line : str) (pre post : Path) :
  (startswith line (lit "diff --git ") = false ->
   handle_diff_header ho line pre post = (false, Some line))
  /\ ((forall t0 t1,
         Shlex.split (strip (slice_from 11 line)) <> Some [t0; t1]) ->
      handle_diff_header ho line pre post = (false, Some line))
  /\ (handle_diff_header ho line pre post = (true, None)
      \/ exists h,
          handle_diff_header ho line pre post = (false, Some h)
          /\ (startswith line (lit "diff --git ") = true ->
              startswith h (lit "diff --git ") = true)).
Proof.
  split; [|split]; [| |apply handle_diff_header_result];
    unfold handle_diff_header;
    change (List.length (lit "diff --git ")) with 11;
    set (remainder := strip (slice_from 11 line)).
  - intros H. now rewrite H.
  - intros H. destruct (startswith line (lit "diff --git ")); [|reflexivity].
    simpl negb. cbv iota.
    destruct (truthy remainder); [|reflexivity]. simpl negb. cbv iota.
    destruct (Shlex.split remainder) as [[|t0 [|t1 [|t2 ts]]]|];
      try reflexivity.
    exfalso. now apply (H t0 t1).
Qed.

Lemma kept_body (ho : bool) (body rest : list str) (pre post : Path) :
  Forall (fun l => startswith l (lit "diff --git ") = false) body ->
  normalize_patch_lines ho false (body ++ rest) pre post
  = List.map (fun l => normalize_patch_metadata_line ho l pre post) body
    ++ normalize_patch_lines ho false rest pre post.
Proof.
  induction 1 as [|l body Hl _ IH]; [reflexivity|].
  simpl app. cbn [normalize_patch_lines]. rewrite Hl. cbv iota.
  simpl List.map. now rewrite IH.
Qed.

(** X7.  A block whose header is kept is kept whole: the normalised header,
    then every line of the block up to the next header, each passed
    through [normalize_patch_metadata_line], in order. *)
Theorem normalize_patch_lines_keeps_block
        (ho : bool) (pre post : Path) (skip : bool)
        (hdr h : str) (body rest : list str) :
  startswith hdr (lit "diff --git ") = true ->
  handle_diff_header ho hdr pre post = (false, Some h) ->
  Forall (fun l => startswith l (lit "diff --git ") = false) body ->
  normalize_patch_lines ho skip (hdr :: body ++ rest) pre post
  = h :: List.map (fun l => normalize_patch_metadata_line ho l pre post) body
      ++ normalize_patch_lines ho false rest pre post.
Proof.
  intros Hh Hd Hb.
  assert (T : truthy h = true).
  { destruct (handle_diff_header_result ho hdr pre post) as [O|O].
    - congruence.
    - destruct O as [h' [E S]]. rewrite Hd in E. injection E as <-.
      specialize (S Hh). destruct h; [discriminate | reflexivity]. }
  cbn [normalize_patch_lines]. rewrite Hh, Hd, T.
  now rewrite kept_body.
Qed.

Lemma normalize_patch_lines_keeps_block_witness :
  normalize_patch_lines false true
    (lit "diff --git a/pre/s b/post/s"
     :: [lit "--- a/pre/s"; lit "+++ /dev/null"; lit "-gone"] ++ [])
    Sample.pre Sample.post
  = [lit "diff --git a/s b/s"; lit "--- a/s"; lit "+++ /dev/null"; lit "-gone"].
Proof.
  rewrite (normalize_patch_lines_keeps_block false Sample.pre Sample.post true
             (lit "diff --git a/pre/s b/post/s") (lit "diff --git a/s b/s")
             [lit "--- a/pre/s"; lit "+++ /dev/null"; lit "-gone"] []).
  - reflexivity.
  - reflexivity.
  - reflexivity.
  - repeat constructor.
Defined.

Lemma flat_map_at_most_one {A B : Type} (f : A -> list B) (l : list A) :
  (forall a, List.length (f a) <= 1) ->
  List.length (flat_map f l) <= List.length l.
Proof.
  intros H. induction l as [|a l IH]; [apply le_n|].
  simpl. rewrite length_app. specialize (H a). lia.
Qed.

(** X8.  The three drivers only pass lines on or drop them: the result never
    has more lines than the input. *)
Theorem normalizers_never_add_lines
        (ho : bool) (lines : list str) (pre post : Path) (skip : bool) :
  List.length (normalize_name_lines ho lines pre post) <= List.length lines
  /\ List.length (normalize_stat_lines ho lines pre post) <= List.length lines
  /\ List.length (normalize_patch_lines ho skip lines pre post)
     <= List.length lines.
Proof.
  split; [|split].
  - apply flat_map_at_most_one. intros line. unfold name_line.
    destruct (negb (truthy (strip line))); [apply le_0_n|].
    destruct (truthy _ && negb _); [apply le_n | apply le_0_n].
  - apply flat_map_at_most_one. intros line. unfold stat_line.
    destruct (negb (truthy (strip line))); [apply le_0_n|].
    destruct (split_once PIPE line) as [[a b]|]; [|apply le_n].
    destruct (negb _ || _); [apply le_0_n | apply le_n].
  - revert skip. induction lines as [|l lines IH]; intros skip; [apply le_n|].
    cbn [normalize_patch_lines].
    destruct (startswith l (lit "diff --git ")).
    + destruct (handle_diff_header ho l pre post) as [s [h|]].
      * destruct (truthy h); simpl; specialize (IH s); lia.
      * simpl; specialize (IH s); lia.
    + destruct skip; simpl; [specialize (IH true) | specialize (IH false)];
        lia.
Qed.

(* ------------------------------------------------------------------ *)
(** * The name list and the count *)

Lemma In_replace (old : char) (new s : str) (c : char) :
  In c (replace old new s) -> In c s \/ In c new.
Proof.
  unfold replace. induction s as [|x s IH]; simpl; [tauto|].
  intros H. apply in_app_or in H as [H|H].
  - destruct (N.eqb x old); [now right|].
    destruct H as [->|[]]. left. now left.
  - destruct (IH H) as [H'|H']; [left; now right | now right].
Qed.

(** [normalize_path_value] invents no character but the slash. *)
Lemma normalize_path_value_chars (ho : bool) (path : str) (pre post : Path)
      (c : char) :
  In c (normalize_path_value ho path pre post) -> In c path \/ c = SLASH.
Proof.
  unfold normalize_path_value. intros H.
  assert (H' : In c
                 (fold_left strip_root_prefix
                    (set_iter ho (as_posix pre) (as_posix post))
                    (replace BACKSLASH (lit "/")
                       (strip_chars [DQUOTE] (strip path))))).
  { destruct (startswith _ (lit "pre/")); [now apply In_slice_from in H|].
    destruct (startswith _ (lit "post/")); [now apply In_slice_from in H|].
    exact H. }
  apply In_fold_strip_root_prefix in H'.
  apply In_replace in H' as [H'|H'].
  - left. unfold strip_chars, strip in H'.
    apply In_strip_by in H'. now apply In_strip_by in H'.
  - right. destruct H' as [E|[]]. now symmetry.
Qed.

Lemma is_one_line_iff (s : str) :
  is_one_line s = true <-> forall c, In c s -> islinebreak c = false.
Proof.
  unfold is_one_line. rewrite forallb_forall. split; intros H c Hc.
  - now apply negb_true_iff, H.
  - now apply negb_true_iff, H.
Qed.

Lemma normalize_path_value_one_line (ho : bool) (path : str)
      (pre post : Path) :
  is_one_line path = true ->
  is_one_line (normalize_path_value ho path pre post) = true.
Proof.
  rewrite !is_one_line_iff. intros H c Hc.
  apply normalize_path_value_chars in Hc as [Hc| ->]; [now apply H|].
  reflexivity.
Qed.

Lemma rev_one_line (cur : str) :
  is_one_line cur = true -> is_one_line (rev cur) = true.
Proof.
  rewrite !is_one_line_iff. intros H c Hc. apply H. now apply in_rev.
Qed.

Lemma splitlines_go_one_line_bounded (n : nat) :
  forall s cur,
    List.length s <= n ->
    is_one_line cur = true ->
    Forall (fun l => is_one_line l = true) (splitlines_go cur s).
Proof.
  induction n as [|n IH]; intros s cur Hn Hcur.
  - destruct s; [|simpl in Hn; lia].
    simpl. destruct cur; [constructor|].
    constructor; [now apply rev_one_line | constructor].
  - destruct s as [|x r].
    + simpl. destruct cur; [constructor|].
      constructor; [now apply rev_one_line | constructor].
    + simpl in Hn. cbn [splitlines_go].
      destruct (N.eqb x CR).
      * destruct r as [|y r'].
        -- constructor; [now apply rev_one_line | constructor].
        -- simpl in Hn.
           destruct (N.eqb y LF);
             (constructor; [now apply rev_one_line|]);
             apply IH; simpl; try reflexivity; lia.
      * destruct (islinebreak x) eqn:L.
        -- constructor; [now apply rev_one_line|].
           apply IH; [lia | reflexivity].
        -- apply IH; [lia|]. simpl. now rewrite L.
Qed.

(** No line of [splitlines] holds a line boundary. *)
Lemma splitlines_one_line (s : str) :
  Forall (fun l => is_one_line l = true) (splitlines s).
Proof.
  apply (splitlines_go_one_line_bounded (List.length s)); [apply le_n|].
  reflexivity.
Qed.

Lemma splitlines_go_app (l rest : str) :
  is_one_line l = true ->
  forall cur, splitlines_go cur (l ++ rest) = splitlines_go (rev l ++ cur) rest.
Proof.
  induction l as [|c l IH]; intros Hl cur; [reflexivity|].
  simpl in Hl. apply andb_true_iff in Hl as [Hc Hl].
  apply negb_true_iff in Hc.
  assert (Hcr : N.eqb c CR = false).
  { destruct (N.eqb_spec c CR) as [->|]; [discriminate Hc | reflexivity]. }
  simpl app. cbn [splitlines_go]. rewrite Hcr, Hc.
  rewrite (IH Hl). simpl rev. now rewrite <- app_assoc.
Qed.

(** Reading joined lines back gives the lines, when none is empty or
    holds a line boundary. *)
Lemma splitlines_join (lines : list str) :
  Forall (fun l => is_one_line l = true /\ l <> []) lines ->
  splitlines (join [LF] lines) = lines.
Proof.
  unfold splitlines. induction 1 as [|l lines [Hl Hne] Hrest IH];
    [reflexivity|].
  destruct lines as [|l2 lines].
  - simpl join. rewrite <- (app_nil_r l) at 1.
    rewrite (splitlines_go_app l [] Hl). rewrite app_nil_r. simpl.
    destruct (rev l) eqn:E.
    + exfalso. apply Hne. rewrite <- (rev_involutive l), E. reflexivity.
    + rewrite <- E. now rewrite rev_involutive.
  - change (join [LF] (l :: l2 :: lines))
      with (l ++ [LF] ++ join [LF] (l2 :: lines)).
    set (following := join [LF] (l2 :: lines)) in *.
    rewrite (splitlines_go_app l _ Hl). rewrite app_nil_r.
    change ([LF] ++ following) with (LF :: following).
    cbn [splitlines_go].
    change (N.eqb LF CR) with false. change (islinebreak LF) with true.
    cbv iota. rewrite rev_involutive. now rewrite IH.
Qed.

Lemma name_line_entry (ho : bool) (line : str) (pre post : Path) (l : str) :
  In l (name_line ho line pre post) ->
  l <> [] /\ is_excluded_path l = false /\ ~ In BACKSLASH l
  /\ (is_one_line line = true -> is_one_line l = true).
Proof.
  unfold name_line. destruct (negb (truthy (strip line))); [intros []|].
  destruct (truthy _ && negb _) eqn:E; [|intros []].
  intros [<-|[]]. apply andb_true_iff in E as [Et Ee].
  apply negb_true_iff in Ee.
  repeat split.
  - intros E0. now rewrite E0 in Et.
  - exact Ee.
  - apply normalize_path_value_no_backslash.
  - apply normalize_path_value_one_line.
Qed.

Lemma name_entries_read_back (ho : bool) (raw : str) (pre post : Path) :
  let entries := normalize_name_lines ho (splitlines raw) pre post in
  Forall (fun l => (l <> [] /\ is_excluded_path l = false
                    /\ ~ In BACKSLASH l)
                   /\ is_one_line l = true) entries
  /\ splitlines (normalize_name_output ho raw pre post) = entries.
Proof.
  intros entries.
  assert (A : Forall (fun l => (l <> [] /\ is_excluded_path l = false
                                /\ ~ In BACKSLASH l)
                               /\ is_one_line l = true) entries).
  { apply Forall_forall. intros l Hl. unfold entries, normalize_name_lines in Hl.
    apply in_flat_map in Hl as [line [Hline Hl]].
    destruct (name_line_entry ho line pre post l Hl) as [H1 [H2 [H3 H4]]].
    repeat split; try assumption. apply H4.
    pose proof (splitlines_one_line raw) as S.
    rewrite Forall_forall in S. now apply S. }
  split; [exact A|].
  unfold normalize_name_output. fold entries. apply splitlines_join.
  eapply Forall_impl; [|exact A]. simpl. tauto.
Qed.

(** X9.  Every entry of the name list is a non-empty path that is not
    excluded and holds no backslash, and the entries can be read back:
    splitting the text of [normalize_name_output] into lines gives exactly
    the entries, so the text is empty only if there is none. *)
Theorem normalize_name_output_entries
        (ho : bool) (raw : str) (pre post : Path) :
  let entries := normalize_name_lines ho (splitlines raw) pre post in
  Forall (fun l => l <> [] /\ is_excluded_path l = false
                   /\ ~ In BACKSLASH l) entries
  /\ splitlines (normalize_name_output ho raw pre post) = entries
  /\ (normalize_name_output ho raw pre post = [] <-> entries = []).
Proof.
  intros entries.
  destruct (name_entries_read_back ho raw pre post) as [A B].
  fold entries in A, B.
  split; [eapply Forall_impl; [|exact A]; simpl; tauto|].
  split; [exact B|]. split.
  - intros E. rewrite E in B. now rewrite <- B.
  - intros E. unfold normalize_name_output. fold entries. now rewrite E.
Qed.

Lemma normalize_name_output_entries_witness :
  splitlines
    (normalize_name_output false
       (lit "post/src/b.txt" ++ [LF] ++ lit "pre/.git/index" ++ [LF]
        ++ lit "   " ++ [LF] ++ lit "post/docs/read me.md")
       Sample.pre Sample.post)
  = [lit "src/b.txt"; lit "docs/read me.md"].
Proof.
  rewrite (proj1 (proj2 (normalize_name_output_entries false _
                           Sample.pre Sample.post))).
  reflexivity.
Defined.

(* ------------------------------------------------------------------ *)
(** * More on [generate_outputs] *)

Lemma extends_log_ret {A : Type} (a : A) : extends_log (ret a).
Proof. intros log. exists []. simpl. now rewrite app_nil_r. Qed.

Lemma extends_log_raise {A : Type} (e : exn) : extends_log (@raise A e).
Proof. intros log. exists []. simpl. now rewrite app_nil_r. Qed.

Lemma extends_log_bind {A B : Type} (m : M A) (k : A -> M B) :
  extends_log m -> (forall a, extends_log (k a)) -> extends_log (bind m k).
Proof.
  intros Hm Hk log. unfold bind.
  destruct (Hm log) as [added Ha].
  destruct (m log) as [[a|e] log1]; simpl in Ha; subst log1.
  - destruct (Hk a (log ++ added)) as [more Hmore].
    exists (added ++ more). now rewrite Hmore, app_assoc.
  - now exists added.
Qed.

Lemma extends_log_run_git (world : World) (args : list str) (cwd : Path)
      (allow : list Z) :
  extends_log (run_git world args cwd allow).
Proof.
  intros log. eexists. unfold run_git.
  destruct (cannot_start world log _ _); [reflexivity|].
  destruct (subprocess_run world log _ _); [|reflexivity].
  destruct (existsb _ _); reflexivity.
Qed.

Lemma extends_log_write_text (world : World) (path : Path) (content : str) :
  extends_log (write_text world path content).
Proof.
  intros log. eexists. unfold write_text.
  destruct (write_goes_through world log path); reflexivity.
Qed.

Lemma run_git_log (world : World) (args : list str) (cwd : Path)
      (allow : list Z) (log : list event) :
  snd (run_git world args cwd allow log)
  = log ++ [Git (lit "git" :: args) (as_posix cwd)].
Proof.
  unfold run_git.
  destruct (cannot_start world log _ _); [reflexivity|].
  destruct (subprocess_run world log _ _); [|reflexivity].
  destruct (existsb _ _); reflexivity.
Qed.

Lemma relative_to_child (base : Path) (s : str) :
  relative_to (joinpath base s) base = Some (mkPath [] [s]).
Proof.
  unfold relative_to, joinpath. simpl. rewrite str_eqb_refl.
  assert (E : strip_parts (tail base ++ [s]) (tail base) = Some [s])
    by (now apply strip_parts_iff).
  now rewrite E.
Qed.

(** What a returning run of [generate_outputs] went through. *)
Lemma generate_outputs_returns (world : World) (ho : bool) (paths : Paths)
      (log log' : list event) (count : nat) :
  generate_outputs world ho paths log = (Ok count, log') ->
  exists pre_rel post_rel names,
    relative_to (pre_dir paths) (work_base paths) = Some pre_rel
    /\ relative_to (post_dir paths) (work_base paths) = Some post_rel
    /\ fst (run_git world
               [lit "diff"; lit "--no-index"; lit "--name-only";
                as_posix pre_rel; as_posix post_rel]
               (work_base paths) [0%Z; 1%Z] log) = Ok names
    /\ count
       = (if truthy (normalize_name_output ho names
                       (pre_dir paths) (post_dir paths))
          then List.length
                 (splitlines (normalize_name_output ho names
                                (pre_dir paths) (post_dir paths)))
          else 0).
Proof.
  unfold generate_outputs. intros H.
  apply bind_ok in H as [pre_rel [l1 [H1 H]]].
  apply relative_to_M_ok in H1 as [R1 ->].
  apply bind_ok in H as [post_rel [l2 [H2 H]]].
  apply relative_to_M_ok in H2 as [R2 ->].
  apply bind_ok in H as [names [l3 [H3 H]]].
  apply bind_ok in H as [stat [l4 [_ H]]].
  apply bind_ok in H as [u1 [l5 [_ H]]].
  apply bind_ok in H as [u2 [l6 [_ H]]].
  apply bind_ok in H as [delta [l7 [_ H]]].
  apply bind_ok in H as [u3 [l8 [_ H]]].
  unfold ret in H. injection H as Hc _.
  exists pre_rel, post_rel, names.
  repeat split; try assumption.
  - now rewrite H3.
  - now symmetry.
Qed.

(** X10.  The count that [generate_outputs] returns is the number of entries of
    the name list it has written: the paths that [git diff --name-only],
    run on the two worktrees relative to the scratch area, reported and
    that survived normalisation. *)
Theorem generate_outputs_counts_entries
        (world : World) (ho : bool) (paths : Paths)
        (log log' : list event) (count : nat) :
  generate_outputs world ho paths log = (Ok count, log') ->
  exists pre_rel post_rel names,
    relative_to (pre_dir paths) (work_base paths) = Some pre_rel
    /\ relative_to (post_dir paths) (work_base paths) = Some post_rel
    /\ fst (run_git world
           [lit "diff"; lit "--no-index"; lit "--name-only";
            as_posix pre_rel; as_posix post_rel]
           (work_base paths) [0%Z; 1%Z] log) = Ok names
    /\ count
       = List.length (normalize_name_lines ho (splitlines names)
                        (pre_dir paths) (post_dir paths))
    /\ In (WriteText (name_file paths) (lit "utf-8")
             (written (join [LF]
                        (normalize_name_lines ho (splitlines names)
                           (pre_dir paths) (post_dir paths))))) log'.
Proof.
  intros H.
  destruct (generate_outputs_returns world ho paths log log' count H)
    as [pre_rel [post_rel [names [R1 [R2 [G C]]]]]].
  exists pre_rel, post_rel, names.
  split; [exact R1|]. split; [exact R2|]. split; [exact G|].
  destruct (name_entries_read_back ho names (pre_dir paths) (post_dir paths))
    as [A B].
  split.
  - rewrite C, B.
    destruct (normalize_name_output ho names (pre_dir paths) (post_dir paths))
      eqn:E; [|reflexivity].
    now rewrite <- B.
  - unfold generate_outputs in H.
    apply bind_ok in H as [pre_rel' [l1 [H1 H]]].
    apply relative_to_M_ok in H1 as [R1' ->].
    apply bind_ok in H as [post_rel' [l2 [H2 H]]].
    apply relative_to_M_ok in H2 as [R2' ->].
    assert (pre_rel' = pre_rel) by congruence.
    assert (post_rel' = post_rel) by congruence. subst.
    apply bind_ok in H as [names' [l3 [H3 H]]].
    assert (names' = names) by (rewrite H3 in G; simpl in G; congruence).
    subst names'.
    apply bind_ok in H as [stat [l4 [_ H]]].
    apply bind_ok in H as [u1 [l5 [H5 H]]].
    apply write_text_ok in H5. subst l5.
    assert (X : exists added, log' = (l4 ++ [WriteText (name_file paths)
                 (lit "utf-8")
                 (written (normalize_name_output ho names
                             (pre_dir paths) (post_dir paths)))]) ++ added).
    { match type of H with
      | bind ?m ?k _ = _ =>
          assert (E : extends_log (bind m k))
      end.
      { apply extends_log_bind; [apply extends_log_write_text|]. intros _.
        apply extends_log_bind; [apply extends_log_run_git|]. intros d.
        apply extends_log_bind; [apply extends_log_write_text|]. intros _.
        apply extends_log_ret. }
      destruct (E (l4 ++ [WriteText (name_file paths) (lit "utf-8")
                   (written (normalize_name_output ho names
                               (pre_dir paths) (post_dir paths)))]))
        as [added Hadd].
      exists added. rewrite H in Hadd. exact Hadd. }
    destruct X as [added ->].
    apply in_or_app. left. apply in_or_app. right. now left.
Qed.

Lemma generate_outputs_counts_entries_witness :
  fst (generate_outputs Sample.busy false Sample.paths []) = Ok 2
  /\ In (WriteText (name_file Sample.paths) (lit "utf-8")
           (lit "src/b.txt" ++ [LF] ++ lit "docs/read me.md" ++ [LF]))
        (snd (generate_outputs Sample.busy false Sample.paths [])).
Proof.
  split; [reflexivity|].
  destruct (generate_outputs_counts_entries Sample.busy false Sample.paths []
              (snd (generate_outputs Sample.busy false Sample.paths []))
              2 eq_refl)
    as [pre_rel [post_rel [names [R1 [R2 [G [_ W]]]]]]].
  injection R1 as <-. injection R2 as <-.
  injection G as <-. exact W.
Defined.

(** X11.  [generate_outputs] needs both worktrees under the scratch area:
    otherwise it fails with [ValueError] before it runs or writes
    anything.  With the worktrees at [pre] and [post] directly under the
    scratch area it first runs [git diff --no-index --name-only pre post]
    in the scratch area, on relative names. *)
Theorem generate_outputs_relative_names
        (world : World) (ho : bool) (paths : Paths) (log : list event) :
  (relative_to (pre_dir paths) (work_base paths) = None
   \/ relative_to (post_dir paths) (work_base paths) = None ->
   generate_outputs world ho paths log = (Raise ValueError, log))
  /\ (pre_dir paths = joinpath (work_base paths) (lit "pre") ->
      post_dir paths = joinpath (work_base paths) (lit "post") ->
      exists rest,
        snd (generate_outputs world ho paths log)
        = log ++ Git [lit "git"; lit "diff"; lit "--no-index";
                      lit "--name-only"; lit "pre"; lit "post"]
                     (as_posix (work_base paths)) :: rest).
Proof.
  split.
  - intros H. unfold generate_outputs, bind, relative_to_M.
    destruct (relative_to (pre_dir paths) (work_base paths)) as [r1|];
      [|reflexivity].
    destruct H as [H|H]; [discriminate|]. rewrite H. reflexivity.
  - intros Hpre Hpost. unfold generate_outputs.
    rewrite Hpre, Hpost. unfold relative_to_M at 1.
    rewrite relative_to_child. unfold bind at 1. unfold ret at 1.
    unfold relative_to_M at 1.
    rewrite relative_to_child. unfold bind at 1. unfold ret at 1.
    match goal with
    | |- exists rest, snd (bind ?m ?k log) = _ =>
        assert (K : forall a, extends_log (k a))
    end.
    { intros names.
      apply extends_log_bind; [apply extends_log_run_git|]. intros stat.
      apply extends_log_bind; [apply extends_log_write_text|]. intros _.
      apply extends_log_bind; [apply extends_log_write_text|]. intros _.
      apply extends_log_bind; [apply extends_log_run_git|]. intros d.
      apply extends_log_bind; [apply extends_log_write_text|]. intros _.
      apply extends_log_ret. }
    unfold bind at 1.
    match goal with
    | |- context [run_git ?w ?a ?c ?al log] =>
        pose proof (run_git_log w a c al log) as L;
        destruct (run_git w a c al log) as [[names|e] l1]
    end; simpl in L; subst l1.
    + match goal with
      | |- exists rest, snd (?k _) = _ =>
          destruct (K names (log ++ [Git (lit "git" ::
                      [lit "diff"; lit "--no-index"; lit "--name-only";
                       as_posix {| root := []; tail := [lit "pre"] |};
                       as_posix {| root := []; tail := [lit "post"] |}])
                      (as_posix (work_base paths))])) as [more Hm]
      end.
      exists more. rewrite Hm. now rewrite <- app_assoc.
    + exists []. reflexivity.
Qed.

(* ------------------------------------------------------------------ *)
(** * SafetyGuard: worktree directories *)

Lemma removelast_fixed {A : Type} (l : list A) : removelast l = l -> l = [].
Proof.
  induction l as [|a l IH]; [reflexivity|].
  simpl. destruct l as [|b l]; [discriminate|].
  intros H. injection H as H. specialize (IH H). discriminate.
Qed.

Lemma is_top_level_path_tail (fs : FileSystem) (path : Path) :
  is_top_level_path fs path = true -> tail (resolve fs path) = [].
Proof.
  unfold is_top_level_path, parent. rewrite path_eqb_eq.
  destruct (resolve fs path) as [r t]. simpl.
  intros H. injection H as H. now apply removelast_fixed.
Qed.

(** X12.  A path is top-level exactly when its resolved form has no component:
    a root alone. *)
Theorem is_top_level_path_iff (fs : FileSystem) (path : Path) :
  is_top_level_path fs path = true <-> tail (resolve fs path) = [].
Proof.
  unfold is_top_level_path, parent. rewrite path_eqb_eq.
  destruct (resolve fs path) as [r t]. simpl. split.
  - intros H. injection H as H. now apply removelast_fixed.
  - intros ->. reflexivity.
Qed.

Lemma joinpath_not_parent (base : Path) (s : str) : joinpath base s <> base.
Proof.
  destruct base as [r t]. unfold joinpath. simpl. intros H.
  injection H as H. apply (f_equal (@List.length str)) in H.
  rewrite length_app in H. simpl in H. lia.
Qed.

(** X13.  [is_safe_worktree_dir] accepts only what lies strictly inside a safe
    scratch area: the scratch area passes [is_safe_work_base_target], and
    the resolved worktree has the resolved scratch area's root and
    components followed by at least one more.  The scratch area itself is
    never accepted. *)
Theorem is_safe_worktree_dir_strictly_inside
        (fs : FileSystem) (worktree_dir : Path) (paths : Paths)
        (repo_root : Path) :
  (is_safe_worktree_dir fs worktree_dir paths repo_root = true ->
   is_safe_work_base_target fs paths repo_root = true
   /\ root (resolve fs worktree_dir) = root (resolve fs (work_base paths))
   /\ exists first rest,
       tail (resolve fs worktree_dir)
       = tail (resolve fs (work_base paths)) ++ first :: rest)
  /\ is_safe_worktree_dir fs (work_base paths) paths repo_root = false.
Proof.
  unfold is_safe_worktree_dir. split.
  - destruct (is_safe_work_base_target fs paths repo_root); [|discriminate].
    simpl negb. cbv iota.
    destruct (is_top_level_path fs (resolve fs worktree_dir)); [discriminate|].
    destruct (path_eqb (resolve fs worktree_dir) (resolve fs (work_base paths)))
      eqn:E; [discriminate|].
    simpl orb. cbv iota. intros H.
    apply is_relative_to_iff in H as [Hr [rest Hrest]].
    split; [reflexivity|]. split; [exact Hr|].
    destruct rest as [|first rest]; [|now exists first, rest].
    exfalso. rewrite app_nil_r in Hrest.
    assert (P : resolve fs worktree_dir = resolve fs (work_base paths)).
    { destruct (resolve fs worktree_dir), (resolve fs (work_base paths)).
      simpl in *. congruence. }
    apply path_eqb_eq in P. congruence.
  - destruct (is_safe_work_base_target fs paths repo_root); [|reflexivity].
    simpl negb. cbv iota.
    assert (P : path_eqb (resolve fs (work_base paths))
                         (resolve fs (work_base paths)) = true)
      by (now apply path_eqb_eq).
    rewrite P. now rewrite orb_true_r.
Qed.

Lemma is_safe_worktree_dir_strictly_inside_witness :
  is_safe_work_base_target Sample.fs Sample.paths Sample.repo = true
  /\ exists first rest,
      tail Sample.pre = tail Sample.scratch ++ first :: rest.
Proof.
  destruct (proj1 (is_safe_worktree_dir_strictly_inside Sample.fs Sample.pre
                     Sample.paths Sample.repo) eq_refl) as [H1 [_ H2]].
  split; [exact H1 | exact H2].
Defined.

(** X14.  With the worktree a child of the scratch area also after resolution,
    the worktree is safe exactly when the scratch area is: nothing more is
    asked of a child in place. *)
Theorem is_safe_worktree_dir_of_child
        (fs : FileSystem) (worktree_dir : Path) (paths : Paths)
        (repo_root : Path) (segment : str) :
  resolve fs worktree_dir
  = joinpath (resolve fs (work_base paths)) segment ->
  resolve fs (resolve fs worktree_dir) = resolve fs worktree_dir ->
  is_safe_worktree_dir fs worktree_dir paths repo_root
  = is_safe_work_base_target fs paths repo_root.
Proof.
  intros Hchild Hidem. unfold is_safe_worktree_dir.
  destruct (is_safe_work_base_target fs paths repo_root); [|reflexivity].
  simpl negb. cbv iota.
  assert (T : is_top_level_path fs (resolve fs worktree_dir) = false).
  { destruct (is_top_level_path fs (resolve fs worktree_dir)) eqn:E;
      [|reflexivity].
    apply is_top_level_path_tail in E. rewrite Hidem, Hchild in E.
    unfold joinpath in E. simpl in E.
    destruct (tail (resolve fs (work_base paths))); discriminate. }
  rewrite T, Hchild.
  assert (N : path_eqb (joinpath (resolve fs (work_base paths)) segment)
                       (resolve fs (work_base paths)) = false).
  { destruct (path_eqb _ _) eqn:E; [|reflexivity].
    apply path_eqb_eq in E. now apply joinpath_not_parent in E. }
  rewrite N. simpl orb. cbv iota.
  unfold is_relative_to. now rewrite relative_to_child.
Qed.

Lemma is_safe_worktree_dir_of_child_witness :
  is_safe_worktree_dir Sample.fs Sample.post Sample.paths Sample.repo = true.
Proof.
  rewrite (is_safe_worktree_dir_of_child Sample.fs Sample.post Sample.paths
             Sample.repo (lit "post") eq_refl eq_refl).
  reflexivity.
Defined.

(* ------------------------------------------------------------------ *)
(** * The host-level functions *)

Lemma removals_allowed_app (ok : list action -> Path -> Prop)
      (a b : list action) :
  forall done,
    removals_allowed ok done (a ++ b)
    <-> removals_allowed ok done a /\ removals_allowed ok (done ++ a) b.
Proof.
  induction a as [|x a IH]; intros done.
  - simpl. rewrite app_nil_r. tauto.
  - simpl. rewrite IH. rewrite <- app_assoc. simpl. tauto.
Qed.

Lemma removals_allowed_did (ok : list action -> Path -> Prop)
      (log : list event) :
  forall done, removals_allowed ok done (List.map Did log).
Proof.
  induction log as [|e log IH]; intros done; simpl; [exact I|].
  split; [exact I | apply IH].
Qed.

Lemma keeps_mkdir ok (h : Host) (path : Path) : keeps_to ok (mkdir h path).
Proof.
  intros done. exists [Mkdir path]. unfold mkdir.
  destruct (host_mkdir h done path); simpl; tauto.
Qed.

Lemma keeps_engine {A : Type} ok (h : Host) (m : World -> M A) :
  keeps_to ok (engine h m).
Proof.
  intros done. unfold engine.
  destruct (m (world_at h done) []) as [[a|e] log];
    exists (List.map Did log); simpl;
    (split; [reflexivity | apply removals_allowed_did]).
Qed.

Lemma keeps_bind {A B : Type} ok (m : H A) (k : A -> H B) :
  keeps_to ok m -> (forall a, keeps_to ok (k a)) -> keeps_to ok (hbind m k).
Proof.
  intros Hm Hk done. unfold hbind.
  destruct (Hm done) as [added [E G]].
  destruct (m done) as [[a|f] done1]; simpl in E; subst done1.
  - destruct (Hk a (done ++ added)) as [more [E2 G2]].
    exists (added ++ more). rewrite E2, app_assoc. split; [reflexivity|].
    apply removals_allowed_app. now split.
  - exists added. now split.
Qed.

Lemma swallow_done (m : H unit) (done : list action) :
  fst (swallow m done) = Done tt.
Proof.
  unfold swallow. destruct (m done) as [[[]|f] d]; reflexivity.
Qed.

(** A turn of the loop raises only when its guard does, and then it has
    done nothing. *)
Lemma cleanup_worktree_outcome (h : Host) (repo_root : Path) (paths : Paths)
      (worktree : Path) (done : list action) :
  match host_refuses h done (AskSafeWorktree worktree paths repo_root) with
  | Some e =>
      cleanup_worktree h repo_root paths worktree done = (Failed (Exn e), done)
  | None => fst (cleanup_worktree h repo_root paths worktree done) = Done tt
  end.
Proof.
  unfold cleanup_worktree, hbind, look.
  destruct (host_refuses h done (AskSafeWorktree worktree paths repo_root));
    [reflexivity|].
  destruct (is_safe_worktree_dir _ _ _ _); simpl; [|reflexivity].
  apply swallow_done.
Qed.

Lemma hbind_done {A B : Type} (m : H A) (k : A -> H B)
      (done done' : list action) (a : A) :
  m done = (Done a, done') -> hbind m k done = k a done'.
Proof. intros E. unfold hbind. now rewrite E. Qed.

Lemma hbind_failed {A B : Type} (m : H A) (k : A -> H B)
      (done done' : list action) (f : failure) :
  m done = (Failed f, done') -> hbind m k done = (Failed f, done').
Proof. intros E. unfold hbind. now rewrite E. Qed.

(** [cleanup] raises only what one of the two guard calls of its loop
    raises, and has done nothing since. *)
Lemma cleanup_raises_from_guard (h : Host) (repo_root : Path) (paths : Paths)
      (keep : bool) (done d : list action) (r : outcome unit) :
  cleanup h repo_root paths keep done = (r, d) ->
  match r with
  | Done _ => True
  | Failed f =>
      exists e worktree,
        (worktree = pre_dir paths \/ worktree = post_dir paths)
        /\ host_refuses h d (AskSafeWorktree worktree paths repo_root) = Some e
        /\ f = Exn e
  end.
Proof.
  unfold cleanup. destruct keep; [intros E; injection E as <- <-; exact I|].
  pose proof (cleanup_worktree_outcome h repo_root paths (pre_dir paths) done)
    as O1.
  destruct (host_refuses h done (AskSafeWorktree (pre_dir paths) paths repo_root))
    as [e1|] eqn:R1.
  { rewrite (hbind_failed _ _ _ _ _ O1). intros E. injection E as <- <-.
    exists e1, (pre_dir paths). now intuition. }
  destruct (cleanup_worktree h repo_root paths (pre_dir paths) done)
    as [r1 d1] eqn:C1. simpl in O1. subst r1.
  rewrite (hbind_done _ _ _ _ _ C1).
  pose proof (cleanup_worktree_outcome h repo_root paths (post_dir paths) d1)
    as O2.
  destruct (host_refuses h d1 (AskSafeWorktree (post_dir paths) paths repo_root))
    as [e2|] eqn:R2.
  { rewrite (hbind_failed _ _ _ _ _ O2). intros E. injection E as <- <-.
    exists e2, (post_dir paths). now intuition. }
  destruct (cleanup_worktree h repo_root paths (post_dir paths) d1)
    as [r2 d2] eqn:C2. simpl in O2. subst r2.
  rewrite (hbind_done _ _ _ _ _ C2).
  intros E.
  match type of E with
  | swallow ?m ?x = _ => pose proof (swallow_done m x) as D
  end.
  rewrite E in D. simpl in D. now subst r.
Qed.

Lemma cleanup_done (h : Host) (repo_root : Path) (paths : Paths)
      (keep : bool) (done : list action) :
  (forall worktree d,
      host_refuses h d (AskSafeWorktree worktree paths repo_root) = None) ->
  fst (cleanup h repo_root paths keep done) = Done tt.
Proof.
  intros Answers.
  destruct (cleanup h repo_root paths keep done) as [r d] eqn:E.
  apply cleanup_raises_from_guard in E.
  destruct r as [[]|f]; [reflexivity|].
  destruct E as [e [worktree [_ [R _]]]]. rewrite Answers in R. discriminate.
Qed.

Lemma actions_allowed_app (ok : list action -> action -> Prop)
      (a b : list action) :
  forall done,
    actions_allowed ok done (a ++ b)
    <-> actions_allowed ok done a /\ actions_allowed ok (done ++ a) b.
Proof.
  induction a as [|x a IH]; intros done.
  - simpl. rewrite app_nil_r. tauto.
  - simpl. rewrite IH. rewrite <- app_assoc. simpl. tauto.
Qed.

Lemma does_nothing {A : Type} ok (m : H A) :
  (forall done, snd (m done) = done) -> does_only ok m.
Proof.
  intros N done. exists []. rewrite N, app_nil_r. now split.
Qed.

Lemma does_bind {A B : Type} ok (m : H A) (k : A -> H B) :
  does_only ok m -> (forall a, does_only ok (k a)) -> does_only ok (hbind m k).
Proof.
  intros Hm Hk done. unfold hbind.
  destruct (Hm done) as [added [E G]].
  destruct (m done) as [[a|f] done1]; simpl in E; subst done1.
  - destruct (Hk a (done ++ added)) as [more [E2 G2]].
    exists (added ++ more). rewrite E2, app_assoc. split; [reflexivity|].
    apply actions_allowed_app. now split.
  - exists added. now split.
Qed.

Lemma does_swallow ok (m : H unit) : does_only ok m -> does_only ok (swallow m).
Proof.
  intros Hm done. unfold swallow. destruct (Hm done) as [added [E G]].
  destruct (m done) as [[a|f] done1]; simpl in E; subst done1;
    exists added; now split.
Qed.

(** One turn of the loop does nothing, or has [git] drop its worktree
    with the guard's consent. *)
Lemma does_cleanup_worktree (h : Host) (repo_root : Path) (paths : Paths)
      (worktree : Path) :
  worktree = pre_dir paths \/ worktree = post_dir paths ->
  does_only (cleanup_action h paths repo_root)
    (cleanup_worktree h repo_root paths worktree).
Proof.
  intros W done.
  assert (N : forall m : outcome unit * list action,
             snd m = done ->
             exists added,
               snd m = done ++ added
               /\ actions_allowed (cleanup_action h paths repo_root) done added).
  { intros m E. exists []. rewrite E, app_nil_r. now split. }
  unfold cleanup_worktree, hbind, look.
  destruct (host_refuses h done (AskSafeWorktree worktree paths repo_root))
    eqn:R1; [now apply N|].
  destruct (is_safe_worktree_dir (host_files h done) worktree paths repo_root)
    eqn:S1;
    [change (negb true) with false | change (negb false) with true];
    cbv beta iota; [|now apply N].
  unfold swallow, remove_worktree, hbind, look.
  destruct (host_refuses h done (AskExists worktree)) eqn:R2; [now apply N|].
  destruct (path_exists (host_files h done) worktree) eqn:E; [|now apply N].
  unfold engine.
  pose proof (run_git_log (world_at h done)
                [lit "worktree"; lit "remove"; lit "-f"; as_posix worktree]
                repo_root [0%Z; 128%Z] []) as L.
  destruct (run_git (world_at h done) _ repo_root _ []) as [[out|e] log];
    simpl in L; subst log;
    exists [Did (Git (git_worktree_remove worktree) (as_posix repo_root))];
    (split; [reflexivity|]);
    (split; [|exact I]);
    (split; [reflexivity|]);
    exists worktree; repeat split; assumption.
Qed.

Lemma does_guarded_rmtree (h : Host) (paths : Paths) (repo_root : Path) :
  does_only (cleanup_action h paths repo_root)
    (hbind (look h (AskSafeBase paths repo_root)
              (fun fs => is_safe_work_base_target fs paths repo_root))
       (fun safe => if safe then rmtree h (work_base paths) else hret tt)).
Proof.
  intros done. unfold hbind, look, rmtree, hret.
  destruct (host_refuses h done (AskSafeBase paths repo_root)) eqn:R;
    [exists []; simpl; now rewrite app_nil_r|].
  destruct (is_safe_work_base_target (host_files h done) paths repo_root)
    eqn:S.
  - exists [Rmtree (work_base paths)].
    destruct (host_rmtree h done (work_base paths)); simpl;
      (split; [reflexivity|]); repeat split; assumption.
  - exists []. simpl. now rewrite app_nil_r.
Qed.

Lemma does_cleanup (h : Host) (repo_root : Path) (paths : Paths)
      (keep : bool) :
  does_only (cleanup_action h paths repo_root) (cleanup h repo_root paths keep).
Proof.
  unfold cleanup. destruct keep; [now apply does_nothing|].
  apply does_bind; [apply does_cleanup_worktree; now left | intros _].
  apply does_bind; [apply does_cleanup_worktree; now right | intros _].
  apply does_swallow, does_guarded_rmtree.
Qed.

(** X15.  [cleanup] is best effort and guarded.  With [keep_worktrees] it
    does nothing at all.  Otherwise all it does is have [git] drop the pre
    or the post worktree, each only while [is_safe_worktree_dir] answers
    and accepts it and it exists, and remove the scratch area as a tree,
    only while [is_safe_work_base_target] answers and accepts it.  It
    swallows every failure of [git], of [rmtree] and of the last guard
    call; the one thing it raises is what a call of [is_safe_worktree_dir]
    in its loop raises, which stands outside the [try], and it stops
    there. *)
Theorem cleanup_best_effort (h : Host) (repo_root : Path) (paths : Paths)
        (keep : bool) (done : list action) :
  cleanup h repo_root paths true done = (Done tt, done)
  /\ exists added,
      snd (cleanup h repo_root paths keep done) = done ++ added
      /\ actions_allowed (cleanup_action h paths repo_root) done added
      /\ match fst (cleanup h repo_root paths keep done) with
         | Done _ => True
         | Failed f =>
             exists e worktree,
               (worktree = pre_dir paths \/ worktree = post_dir paths)
               /\ host_refuses h (done ++ added)
                    (AskSafeWorktree worktree paths repo_root) = Some e
               /\ f = Exn e
         end.
Proof.
  split; [reflexivity|].
  destruct (does_cleanup h repo_root paths keep done) as [added [E G]].
  exists added. split; [exact E|]. split; [exact G|].
  rewrite <- E.
  apply (cleanup_raises_from_guard h repo_root paths keep done).
  now destruct (cleanup h repo_root paths keep done).
Qed.

Lemma cleanup_best_effort_witness :
  cleanup Demo.host Sample.repo Sample.paths false []
  = (Done tt,
     [Did (Git (git_worktree_remove Sample.pre) (lit "/repo"));
      Did (Git (git_worktree_remove Sample.post) (lit "/repo"));
      Rmtree Sample.scratch])
  /\ actions_allowed (cleanup_action Demo.host Sample.paths Sample.repo) []
       [Did (Git (git_worktree_remove Sample.pre) (lit "/repo"));
        Did (Git (git_worktree_remove Sample.post) (lit "/repo"));
        Rmtree Sample.scratch]
  /\ cleanup Demo.locked Sample.repo Sample.paths false []
     = (Failed (Exn OSError), []).
Proof.
  split; [reflexivity|]. split; [|reflexivity].
  destruct (cleanup_best_effort Demo.host Sample.repo Sample.paths false [])
    as [_ [added [E [G _]]]].
  apply (app_inv_head (@nil action)) in E. now subst added.
Defined.

(** X16.  [remove_worktree] raises what the existence test raises.  It runs
    nothing for a directory that does not exist; for one that exists it
    runs [git worktree remove -f] once, takes the exit statuses 0 and 128
    for success, and raises when [git] cannot be started, on a timeout or
    on any other status. *)
Theorem remove_worktree_outcomes (h : Host) (repo_root worktree_dir : Path)
        (done : list action) :
  let cmd := git_worktree_remove worktree_dir in
  match host_refuses h done (AskExists worktree_dir) with
  | Some e =>
      remove_worktree h repo_root worktree_dir done = (Failed (Exn e), done)
  | None =>
  (path_exists (host_files h done) worktree_dir = false ->
   remove_worktree h repo_root worktree_dir done = (Done tt, done))
  /\ (path_exists (host_files h done) worktree_dir = true ->
      snd (remove_worktree h repo_root worktree_dir done)
      = done ++ [Did (Git cmd (as_posix repo_root))]
      /\ if host_cannot_start h done cmd (as_posix repo_root)
         then fst (remove_worktree h repo_root worktree_dir done)
              = Failed (Exn OSError)
         else
         match host_run h done cmd (as_posix repo_root) with
         | Some res =>
             if Z.eqb (returncode res) 0 || Z.eqb (returncode res) 128
             then fst (remove_worktree h repo_root worktree_dir done) = Done tt
             else exists out err,
                 fst (remove_worktree h repo_root worktree_dir done)
                 = Failed (Exn (CalledProcessError (returncode res) cmd out err))
         | None =>
             exists msg,
               fst (remove_worktree h repo_root worktree_dir done)
               = Failed (Exn (RuntimeError msg))
         end)
  end.
Proof.
  intros cmd. unfold remove_worktree, hbind, look.
  destruct (host_refuses h done (AskExists worktree_dir)); [reflexivity|].
  split.
  - intros E. now rewrite E.
  - intros E. rewrite E. unfold engine, run_git.
    simpl cannot_start. simpl subprocess_run.
    rewrite app_nil_r.
    change (lit "git" :: [lit "worktree"; lit "remove"; lit "-f";
                          as_posix worktree_dir]) with cmd.
    destruct (host_cannot_start h done cmd (as_posix repo_root));
      [now split|].
    destruct (host_run h done cmd (as_posix repo_root)) as [res|].
    + simpl existsb. rewrite orb_false_r.
      destruct (Z.eqb (returncode res) 0 || Z.eqb (returncode res) 128);
        simpl; (split; [reflexivity|]); [reflexivity|].
      eexists. eexists. reflexivity.
    + simpl. split; [reflexivity|]. eexists. reflexivity.
Qed.

Lemma remove_worktree_outcomes_witness :
  snd (remove_worktree Demo.host Sample.repo Sample.pre [])
  = [Did (Git (git_worktree_remove Sample.pre) (lit "/repo"))].
Proof.
  exact (proj1 (proj2 (remove_worktree_outcomes Demo.host Sample.repo
                         Sample.pre []) eq_refl)).
Defined.

(* ------------------------------------------------------------------ *)
(** * [prepare_work_base] and [build_paths] *)

Lemma keeps_prepare_work_base (h : Host) (paths : Paths) (repo_root : Path) :
  keeps_to (scratch_removal h paths repo_root)
    (prepare_work_base h paths repo_root).
Proof.
  unfold prepare_work_base.
  apply keeps_bind; [|intros _; apply keeps_bind;
                       [apply keeps_mkdir | intros _; apply keeps_engine]].
  intros done. unfold hbind, look, rmtree, hret, hraise.
  destruct (host_refuses h done (AskExists (work_base paths)));
    [exists []; simpl; now rewrite app_nil_r|].
  destruct (path_exists (host_files h done) (work_base paths));
    [|exists []; simpl; now rewrite app_nil_r].
  destruct (host_refuses h done (AskSafeBase paths repo_root)) eqn:R;
    [exists []; simpl; now rewrite app_nil_r|].
  destruct (is_safe_work_base_target (host_files h done) paths repo_root)
    eqn:S; simpl.
  - exists [Rmtree (work_base paths)].
    destruct (host_rmtree h done (work_base paths)); simpl;
      (split; [reflexivity|]); repeat split; assumption.
  - exists []. simpl. now rewrite app_nil_r.
Qed.

Lemma prepare_work_base_returns (h : Host) (paths : Paths)
      (repo_root : Path) (done done' : list action) :
  prepare_work_base h paths repo_root done = (Done tt, done') ->
  exists before,
    done' = before ++ [Mkdir (work_base paths);
                       Did (WriteText (work_marker paths) (lit "utf-8")
                              (lit "created-by=subagent_diff.py" ++ [LF]))].
Proof.
  unfold prepare_work_base. unfold hbind at 1.
  match goal with
  | |- context [match ?m done with _ => _ end] =>
      destruct (m done) as [[u|f] d1]
  end; [|discriminate].
  unfold hbind, mkdir.
  destruct (host_mkdir h d1 (work_base paths)); [|discriminate].
  unfold engine, write_text. simpl write_goes_through.
  destruct (host_write h _ (work_marker paths)); [|discriminate].
  intros E. injection E as <-. exists d1. simpl.
  rewrite <- ?app_assoc. reflexivity.
Qed.

(** X17.  [prepare_work_base] raises what its two questions to the file
    system raise, and refuses an existing scratch path that the guard does
    not accept, touching nothing in each case; it removes no tree but an
    accepted scratch area; and when it returns, the last things done were
    making the scratch directory and writing the marker,
    newline-terminated. *)
Theorem prepare_work_base_outcomes (h : Host) (paths : Paths)
        (repo_root : Path) (done : list action) :
  match host_refuses h done (AskExists (work_base paths)) with
  | Some e =>
      prepare_work_base h paths repo_root done = (Failed (Exn e), done)
  | None =>
      path_exists (host_files h done) (work_base paths) = true ->
      match host_refuses h done (AskSafeBase paths repo_root) with
      | Some e =>
          prepare_work_base h paths repo_root done = (Failed (Exn e), done)
      | None =>
          is_safe_work_base_target (host_files h done) paths repo_root = false ->
          prepare_work_base h paths repo_root done
          = (Failed (Exn (RuntimeError
                            (lit "Refusing to delete unsafe work_base: "
                             ++ as_posix (work_base paths)
                             ++ lit " (marker missing or outside expected parent)."))),
             done)
      end
  end
  /\ (exists added,
        snd (prepare_work_base h paths repo_root done) = done ++ added
        /\ removals_allowed (scratch_removal h paths repo_root) done added)
  /\ (fst (prepare_work_base h paths repo_root done) = Done tt ->
      exists before,
        snd (prepare_work_base h paths repo_root done)
        = before ++ [Mkdir (work_base paths);
                     Did (WriteText (work_marker paths) (lit "utf-8")
                            (lit "created-by=subagent_diff.py" ++ [LF]))]).
Proof.
  split; [|split].
  - unfold prepare_work_base, hbind, look.
    destruct (host_refuses h done (AskExists (work_base paths)));
      [reflexivity|].
    intros E. rewrite E.
    destruct (host_refuses h done (AskSafeBase paths repo_root));
      [reflexivity|].
    intros S. now rewrite S.
  - apply keeps_prepare_work_base.
  - destruct (prepare_work_base h paths repo_root done) as [r d'] eqn:E.
    simpl. intros ->. now apply prepare_work_base_returns in E.
Qed.

Lemma prepare_work_base_outcomes_witness :
  exists before,
    snd (prepare_work_base Demo.host Sample.paths Sample.repo [])
    = before ++ [Mkdir Sample.scratch;
                 Did (WriteText (work_marker Sample.paths) (lit "utf-8")
                        (lit "created-by=subagent_diff.py" ++ [LF]))].
Proof.
  exact (proj2 (proj2 (prepare_work_base_outcomes Demo.host Sample.paths
                         Sample.repo [])) eq_refl).
Defined.

Lemma div_segment (p : Path) (s : string) :
  truthy (root (parse_path (lit s))) = false ->
  tail (parse_path (lit s)) = [lit s] ->
  div p (lit s) = joinpath p (lit s).
Proof. intros R T. unfold div, joinpath. now rewrite R, T. Qed.

(** X18.  The paths that [build_paths] returns have the worktree layout: the
    two worktrees and the marker are children of the scratch area, named
    [pre], [post] and [.subagent_work_base_marker], so [generate_outputs]
    finds both worktrees relative to the scratch area.  All that
    [build_paths] does is make the output directory. *)
Theorem build_paths_layout (h : Host) (args : Args) (repo_root : Path)
        (done done' : list action) (paths : Paths) :
  build_paths h args repo_root done = (Done paths, done') ->
  pre_dir paths = joinpath (work_base paths) (lit "pre")
  /\ post_dir paths = joinpath (work_base paths) (lit "post")
  /\ work_marker paths = joinpath (work_base paths) WORK_BASE_MARKER_NAME
  /\ relative_to (pre_dir paths) (work_base paths)
     = Some (mkPath [] [lit "pre"])
  /\ relative_to (post_dir paths) (work_base paths)
     = Some (mkPath [] [lit "post"])
  /\ output_dir paths
     = resolve (host_files h done) (div repo_root (arg_output_dir args))
  /\ done' = done ++ [Mkdir (output_dir paths)].
Proof.
  unfold build_paths. unfold hbind at 1. unfold look at 1.
  destruct (host_refuses h done _); [discriminate|].
  unfold hbind at 1. unfold mkdir at 1.
  destruct (host_mkdir h done _); [|discriminate].
  intros E.
  assert (L : exists pp qp wb wp,
             paths
             = {| output_dir :=
                    resolve (host_files h done)
                      (div repo_root (arg_output_dir args));
                  pre_patch := pp; post_patch := qp;
                  work_base := wb; work_base_parent := wp;
                  work_marker := div wb WORK_BASE_MARKER_NAME;
                  pre_dir := div wb (lit "pre");
                  post_dir := div wb (lit "post");
                  delta_file :=
                    div (resolve (host_files h done)
                           (div repo_root (arg_output_dir args)))
                        (lit "delta_" ++ subagent args ++ lit ".patch");
                  stat_file :=
                    div (resolve (host_files h done)
                           (div repo_root (arg_output_dir args)))
                        (lit "delta_stat_" ++ subagent args ++ lit ".txt");
                  name_file :=
                    div (resolve (host_files h done)
                           (div repo_root (arg_output_dir args)))
                        (lit "delta_files_" ++ subagent args ++ lit ".txt") |}
             /\ done' = done ++ [Mkdir (resolve (host_files h done)
                                          (div repo_root (arg_output_dir args)))]).
  { unfold hbind, look, hret in E.
    destruct (truthy (arg_pre_patch args)), (truthy (arg_post_patch args)),
      (truthy (arg_work_base args));
      try destruct (negb (is_absolute (parse_path (arg_work_base args))));
      repeat match type of E with
             | context [host_refuses ?a ?b ?c] =>
                 destruct (host_refuses a b c); [discriminate|]
             end;
      injection E as <- <-; repeat eexists. }
  destruct L as [pp [qp [wb [wp [-> ->]]]]]. simpl.
  rewrite !(div_segment wb "pre" eq_refl eq_refl).
  rewrite !(div_segment wb "post" eq_refl eq_refl).
  change (div wb WORK_BASE_MARKER_NAME)
    with (joinpath wb WORK_BASE_MARKER_NAME).
  rewrite !relative_to_child. repeat split.
Qed.

Lemma build_paths_layout_witness :
  build_paths Demo.host Demo.args Sample.repo [] = (Done Sample.paths, [Mkdir Sample.out])
  /\ relative_to (pre_dir Sample.paths) (work_base Sample.paths)
     = Some (mkPath [] [lit "pre"]).
Proof.
  split; [reflexivity|].
  exact (proj1 (proj2 (proj2 (proj2
           (build_paths_layout Demo.host Demo.args Sample.repo [] _
              Sample.paths eq_refl))))).
Defined.

(* ------------------------------------------------------------------ *)
(** * [main] *)

Lemma actions_allowed_weaken (ok ok' : list action -> action -> Prop)
      (added : list action) :
  (forall d a, ok d a -> ok' d a) ->
  forall done, actions_allowed ok done added -> actions_allowed ok' done added.
Proof.
  intros W. induction added as [|x added IH]; intros done; simpl; [tauto|].
  intros [H1 H2]. split; [now apply W | now apply IH].
Qed.

Lemma does_weaken {A : Type} (ok ok' : list action -> action -> Prop)
      (m : H A) :
  (forall d a, ok d a -> ok' d a) -> does_only ok m -> does_only ok' m.
Proof.
  intros W K done. destruct (K done) as [added [E G]].
  exists added. split; [exact E|]. now apply actions_allowed_weaken with ok.
Qed.

Lemma does_look {A : Type} ok (h : Host) (q : inquiry) (f : FileSystem -> A) :
  does_only ok (look h q f).
Proof.
  apply does_nothing. intros done. unfold look.
  now destruct (host_refuses h done q).
Qed.

Lemma does_mkdir (ok : list action -> action -> Prop) (h : Host) (path : Path) :
  (forall d, ok d (Mkdir path)) -> does_only ok (mkdir h path).
Proof.
  intros W done. exists [Mkdir path]. unfold mkdir.
  destruct (host_mkdir h done path); simpl; (split; [reflexivity|]);
    (split; [apply W | exact I]).
Qed.

Lemma does_print (ok : list action -> action -> Prop) (h : Host) (line : str) :
  (forall d, ok d (Print line)) -> does_only ok (print h line).
Proof.
  intros W done. exists [Print line]. unfold print.
  destruct (host_print h done line); simpl; (split; [reflexivity|]);
    (split; [apply W | exact I]).
Qed.

Lemma does_finally {A : Type} ok (m : H A) (c : H unit) :
  does_only ok m -> does_only ok c -> does_only ok (finally m c).
Proof.
  intros Hm Hc done. unfold finally.
  destruct (Hm done) as [added [E G]].
  destruct (m done) as [r done1]; simpl in E; subst done1.
  destruct (Hc (done ++ added)) as [more [E2 G2]].
  destruct (c (done ++ added)) as [[u|f] done2]; simpl in E2; subst done2;
    exists (added ++ more); rewrite app_assoc;
    (split; [reflexivity | apply actions_allowed_app; now split]).
Qed.

Lemma does_engine {A : Type} (ok : list action -> action -> Prop)
      (allowed : event -> Prop) (h : Host) (m : World -> M A) :
  (forall d e, allowed e -> ok d (Did e)) ->
  (forall w, emits_only allowed (m w)) ->
  does_only ok (engine h m).
Proof.
  intros W E done. unfold engine.
  destruct (E (world_at h done) []) as [added [S F]].
  assert (G : forall d, actions_allowed ok d (List.map Did added)).
  { clear S. induction F as [|e added He F IH]; intros d; simpl; [exact I|].
    split; [now apply W | apply IH]. }
  destruct (m (world_at h done) []) as [[a|e] log]; simpl in S; subst log;
    exists (List.map Did added); simpl; (split; [reflexivity | apply G]).
Qed.

Lemma emits_ret {A : Type} ok (a : A) : emits_only ok (ret a).
Proof. intros log. exists []. simpl. now rewrite app_nil_r. Qed.

Lemma emits_raise {A : Type} ok (e : exn) : emits_only ok (@raise A e).
Proof. intros log. exists []. simpl. now rewrite app_nil_r. Qed.

Lemma emits_bind {A B : Type} ok (m : M A) (k : A -> M B) :
  emits_only ok m -> (forall a, emits_only ok (k a)) -> emits_only ok (bind m k).
Proof.
  intros Hm Hk log. unfold bind.
  destruct (Hm log) as [added [E F]].
  destruct (m log) as [[a|e] log1]; simpl in E; subst log1.
  - destruct (Hk a (log ++ added)) as [more [E2 F2]].
    exists (added ++ more). rewrite E2, app_assoc. split; [reflexivity|].
    apply Forall_app. now split.
  - exists added. now split.
Qed.

Lemma emits_try_except {A : Type} ok (m : M A) (handler : exn -> M A) :
  emits_only ok m -> (forall e, emits_only ok (handler e)) ->
  emits_only ok (try_except m handler).
Proof.
  intros Hm Hh log. unfold try_except.
  destruct (Hm log) as [added [E F]].
  destruct (m log) as [[a|e] log1]; simpl in E; subst log1.
  - exists added. now split.
  - destruct (Hh e (log ++ added)) as [more [E2 F2]].
    exists (added ++ more). rewrite E2, app_assoc. split; [reflexivity|].
    apply Forall_app. now split.
Qed.

Lemma emits_run_git (ok : event -> Prop) (world : World) (args : list str)
      (cwd : Path) (allow : list Z) :
  ok (Git (lit "git" :: args) (as_posix cwd)) ->
  emits_only ok (run_git world args cwd allow).
Proof.
  intros W log. exists [Git (lit "git" :: args) (as_posix cwd)].
  split; [apply run_git_log | now constructor].
Qed.

Lemma emits_write_text (ok : event -> Prop) (world : World) (path : Path)
      (content : str) :
  (forall data, ok (WriteText path (lit "utf-8") data)) ->
  emits_only ok (write_text world path content).
Proof.
  intros W log. eexists. unfold write_text.
  destruct (write_goes_through world log path); simpl;
    (split; [reflexivity | constructor; [apply W | constructor]]).
Qed.

(** [apply_patch] drops no worktree but its own. *)
Lemma emits_apply_patch (world : World) (repo_root worktree_dir patch_path : Path) :
  emits_only (drops_only repo_root worktree_dir)
    (apply_patch world repo_root worktree_dir patch_path).
Proof.
  unfold apply_patch.
  apply emits_bind; [apply emits_run_git; simpl; discriminate | intros _].
  apply emits_try_except.
  - apply emits_bind; [apply emits_run_git; simpl; discriminate | intros _].
    apply emits_ret.
  - intros exc. destruct exc; try apply emits_raise.
    apply emits_bind; [|intros _; apply emits_raise].
    apply emits_try_except.
    + apply emits_bind; [|intros _; apply emits_ret].
      apply emits_run_git. simpl. intros _. now split.
    + intros exc'. destruct exc'; first [apply emits_ret | apply emits_raise].
Qed.

(** [generate_outputs] drops no worktree. *)
Lemma emits_generate_outputs (world : World) (ho : bool) (paths : Paths)
      (repo_root worktree : Path) :
  emits_only (drops_only repo_root worktree) (generate_outputs world ho paths).
Proof.
  unfold generate_outputs, relative_to_M.
  apply emits_bind;
    [destruct (relative_to _ _); [apply emits_ret | apply emits_raise]
    | intros pre_rel].
  apply emits_bind;
    [destruct (relative_to _ _); [apply emits_ret | apply emits_raise]
    | intros post_rel].
  apply emits_bind; [apply emits_run_git; simpl; discriminate | intros names].
  apply emits_bind; [apply emits_run_git; simpl; discriminate | intros stat].
  apply emits_bind; [apply emits_write_text; intros; exact I | intros _].
  apply emits_bind; [apply emits_write_text; intros; exact I | intros _].
  apply emits_bind; [apply emits_run_git; simpl; discriminate | intros delta].
  apply emits_bind; [apply emits_write_text; intros; exact I | intros _].
  apply emits_ret.
Qed.

Lemma does_ensure_repo_root (h : Host) (given : option Path) :
  does_only no_removal_action (ensure_repo_root h given).
Proof.
  unfold ensure_repo_root. destruct given; [apply does_look|].
  apply does_bind; [apply does_look | intros cwd].
  apply does_bind.
  - apply (does_engine _ (fun e => no_removal_action [] (Did e)));
      [intros d e He; exact He|].
    intros w. apply emits_run_git. reflexivity.
  - intros top. destruct (negb (truthy top)); [|apply does_look].
    apply does_nothing. reflexivity.
Qed.

Lemma does_build_paths (h : Host) (args : Args) (repo_root : Path) :
  does_only no_removal_action (build_paths h args repo_root).
Proof.
  unfold build_paths.
  assert (R : forall (A : Type) (a : A),
             does_only no_removal_action (hret a))
    by (intros A a; apply does_nothing; reflexivity).
  apply does_bind; [apply does_look | intros output].
  apply does_bind; [apply does_mkdir; intros d; exact I | intros _].
  apply does_bind;
    [destruct (truthy (arg_pre_patch args)); [apply does_look | apply R]
    | intros pp].
  apply does_bind;
    [destruct (truthy (arg_post_patch args)); [apply does_look | apply R]
    | intros qp].
  assert (T : forall k : str -> H Path,
             (forall tmp, does_only no_removal_action (k tmp)) ->
             does_only no_removal_action
               (hbind (look h AskTempDir (fun _ => host_tmp h)) k))
    by (intros k Hk; apply does_bind; [apply does_look | exact Hk]).
  apply does_bind;
    [destruct (truthy (arg_work_base args));
       [destruct (negb _); apply does_look
       | apply T; intros tmp; apply does_look] | intros wb].
  apply does_bind;
    [destruct (truthy (arg_work_base args));
       [apply does_look | apply T; intros tmp; apply does_look]
    | intros wp].
  apply R.
Qed.

Lemma does_ensure_patches_exist ok (h : Host) (paths : Paths) :
  does_only ok (ensure_patches_exist h paths).
Proof.
  unfold ensure_patches_exist.
  apply does_bind; [apply does_look | intros a].
  destruct (negb a); [apply does_nothing; reflexivity|].
  apply does_bind; [apply does_look | intros b].
  destruct (negb b); apply does_nothing; reflexivity.
Qed.

Lemma does_prepare_work_base (h : Host) (paths : Paths) (repo_root : Path) :
  does_only (main_action h paths repo_root)
    (prepare_work_base h paths repo_root).
Proof.
  unfold prepare_work_base.
  apply does_bind;
    [|intros _; apply does_bind;
        [apply does_mkdir; intros d; exact I | intros _]].
  - intros done. unfold hbind, look, rmtree, hret, hraise.
    destruct (host_refuses h done (AskExists (work_base paths)));
      [exists []; simpl; now rewrite app_nil_r|].
    destruct (path_exists (host_files h done) (work_base paths));
      [|exists []; simpl; now rewrite app_nil_r].
    destruct (host_refuses h done (AskSafeBase paths repo_root)) eqn:R;
      [exists []; simpl; now rewrite app_nil_r|].
    destruct (is_safe_work_base_target (host_files h done) paths repo_root)
      eqn:S; simpl.
    + exists [Rmtree (work_base paths)].
      destruct (host_rmtree h done (work_base paths)); simpl;
        (split; [reflexivity|]); repeat split; assumption.
    + exists []. simpl. now rewrite app_nil_r.
  - apply (does_engine _ (fun e => is_write e = true)).
    + intros d [cmd cwd|path enc data] He; [discriminate | exact I].
    + intros w. apply emits_write_text. reflexivity.
Qed.

Lemma does_apply_patch (h : Host) (paths : Paths)
      (repo_root worktree_dir patch_path : Path) :
  worktree_dir = pre_dir paths \/ worktree_dir = post_dir paths ->
  does_only (main_action h paths repo_root)
    (engine h (fun w => apply_patch w repo_root worktree_dir patch_path)).
Proof.
  intros W.
  apply (does_engine _ (drops_only repo_root worktree_dir));
    [|intros w; apply emits_apply_patch].
  intros d [cmd cwd|path enc data] He; [|exact I].
  simpl in *. intros R. destruct (He R) as [-> ->].
  split; [reflexivity|]. destruct W as [->| ->]; [now left | now right].
Qed.

Lemma does_generate_outputs (h : Host) (ho : bool) (paths : Paths)
      (repo_root : Path) :
  does_only (main_action h paths repo_root)
    (engine h (fun w => generate_outputs w ho paths)).
Proof.
  apply (does_engine _ (drops_only repo_root (pre_dir paths)));
    [|intros w; apply emits_generate_outputs].
  intros d [cmd cwd|path enc data] He; [|exact I].
  simpl in *. intros R. destruct (He R) as [-> ->].
  split; [reflexivity | now left].
Qed.

Lemma does_print_summary ok (h : Host) (agent : str) (n : nat)
      (paths : Paths) :
  (forall d line, ok d (Print line)) ->
  does_only ok (print_summary h agent n paths).
Proof.
  intros W. unfold print_summary.
  repeat (apply does_bind; [apply does_print; intros d; apply W | intros _]).
  apply does_print. intros d. apply W.
Qed.

Lemma cleanup_action_main (h : Host) (paths : Paths) (repo_root : Path)
      (d : list action) (a : action) :
  cleanup_action h paths repo_root d a -> main_action h paths repo_root d a.
Proof.
  destruct a as [[cmd cwd|path enc data]|p|p|l]; simpl; try tauto.
  intros [-> [worktree [W [-> _]]]] _. split; [reflexivity|].
  destruct W as [->| ->]; [now left | now right].
Qed.

Lemma no_removal_action_main (h : Host) (paths : Paths) (repo_root : Path)
      (d : list action) (a : action) :
  no_removal_action d a -> main_action h paths repo_root d a.
Proof.
  destruct a as [[cmd cwd|path enc data]|p|p|l]; simpl; try tauto.
  intros E R. congruence.
Qed.

(** X19.  Whatever the command line, [git] and the file system: the only
    tree that [main] removes with [shutil.rmtree] is the scratch area of
    the very paths that [build_paths] returned to it for the repository
    root that [ensure_repo_root] returned, and that only in a state in
    which [is_safe_work_base_target] answers and accepts this scratch
    area for this root; and the only worktrees that [main] has [git]
    drop are the two worktrees of these paths, from this root.  When
    [ensure_repo_root] or [build_paths] fails, [main] removes no tree and
    drops no worktree. *)
Theorem main_removes_only_guarded_scratch
        (h : Host) (ho : bool) (args : Args) (done : list action) :
  exists added,
    snd (main h ho args done) = done ++ added
    /\ match ensure_repo_root h
               (if truthy (arg_repo_root args)
                then Some (parse_path (arg_repo_root args)) else None) done
       with
       | (Done repo_root, d1) =>
           match build_paths h args repo_root d1 with
           | (Done paths, _) =>
               actions_allowed (main_action h paths repo_root) done added
           | (Failed _, _) => actions_allowed no_removal_action done added
           end
       | (Failed _, _) => actions_allowed no_removal_action done added
       end.
Proof.
  unfold main.
  set (given := if truthy (arg_repo_root args)
                then Some (parse_path (arg_repo_root args)) else None).
  destruct (does_ensure_repo_root h given done) as [a1 [E1 G1]].
  destruct (ensure_repo_root h given done) as [[repo_root|f1] d1] eqn:R1;
    simpl in E1; subst d1.
  2:{ exists a1. rewrite (hbind_failed _ _ _ _ _ R1). now split. }
  rewrite (hbind_done _ _ _ _ _ R1).
  destruct (does_build_paths h args repo_root (done ++ a1))
    as [a2 [E2 G2]].
  destruct (build_paths h args repo_root (done ++ a1)) as [[paths|f2] d2] eqn:R2;
    simpl in E2; subst d2.
  2:{ exists (a1 ++ a2). rewrite (hbind_failed _ _ _ _ _ R2), app_assoc.
      split; [reflexivity|]. apply actions_allowed_app. now split. }
  rewrite (hbind_done _ _ _ _ _ R2).
  assert (K : does_only (main_action h paths repo_root)
                (ensure_patches_exist h paths ~>>
                 prepare_work_base h paths repo_root ~>>
                 finally
                   (engine h (fun w =>
                      apply_patch w repo_root (pre_dir paths) (pre_patch paths)) ~>>
                    engine h (fun w =>
                      apply_patch w repo_root (post_dir paths) (post_patch paths)) ~>>
                    files_changed <~ engine h (fun w =>
                                       generate_outputs w ho paths) ;;
                    print_summary h (subagent args) files_changed paths)
                   (cleanup h repo_root paths (keep_worktrees args)) ~>>
                 hret 0)).
  { apply does_bind; [apply does_ensure_patches_exist | intros _].
    apply does_bind; [apply does_prepare_work_base | intros _].
    apply does_bind; [|intros _; apply does_nothing; reflexivity].
    apply does_finally.
    - apply does_bind; [apply does_apply_patch; now left | intros _].
      apply does_bind; [apply does_apply_patch; now right | intros _].
      apply does_bind; [apply does_generate_outputs | intros n].
      apply does_print_summary. intros d line. exact I.
    - apply (does_weaken (cleanup_action h paths repo_root));
        [apply cleanup_action_main | apply does_cleanup]. }
  destruct (K ((done ++ a1) ++ a2)) as [a3 [E3 G3]].
  exists (a1 ++ a2 ++ a3). rewrite E3, <- !app_assoc.
  split; [reflexivity|].
  apply actions_allowed_app.
  split; [apply actions_allowed_weaken with no_removal_action;
          [apply no_removal_action_main | exact G1]|].
  apply actions_allowed_app.
  split; [apply actions_allowed_weaken with no_removal_action;
          [apply no_removal_action_main | exact G2]|].
  exact G3.
Qed.

Lemma silent_ret {A : Type} (a : A) : stays_silent (hret a).
Proof. intros done. exists []. simpl. now rewrite app_nil_r. Qed.

Lemma silent_look {A : Type} (h : Host) (q : inquiry)
      (f : FileSystem -> A) :
  stays_silent (look h q f).
Proof.
  intros done. exists []. unfold look.
  destruct (host_refuses h done q); simpl; now rewrite app_nil_r.
Qed.

Lemma silent_bind {A B : Type} (m : H A) (k : A -> H B) :
  stays_silent m -> (forall a, stays_silent (k a)) -> stays_silent (hbind m k).
Proof.
  intros Hm Hk done. unfold hbind.
  destruct (Hm done) as [added [E G]].
  destruct (m done) as [[a|f] done1]; simpl in E; subst done1.
  - destruct (Hk a (done ++ added)) as [more [E2 G2]].
    exists (added ++ more). rewrite E2, app_assoc. split; [reflexivity|].
    rewrite forallb_app. now rewrite G, G2.
  - exists added. now split.
Qed.

Lemma silent_swallow (m : H unit) : stays_silent m -> stays_silent (swallow m).
Proof.
  intros Hm done. unfold swallow. destruct (Hm done) as [added [E G]].
  destruct (m done) as [[a|f] done1]; simpl in E; subst done1;
    exists added; now split.
Qed.

Lemma silent_rmtree (h : Host) (path : Path) : stays_silent (rmtree h path).
Proof.
  intros done. exists [Rmtree path]. unfold rmtree.
  destruct (host_rmtree h done path); now split.
Qed.

Lemma silent_run_git (h : Host) (args : list str) (cwd : Path)
      (allow : list Z) :
  stays_silent (engine h (fun w => run_git w args cwd allow)).
Proof.
  intros done. unfold engine.
  pose proof (run_git_log (world_at h done) args cwd allow []) as L.
  destruct (run_git (world_at h done) args cwd allow []) as [[a|e] log];
    simpl in L; subst log; eexists; (split; [reflexivity | reflexivity]).
Qed.

Lemma silent_events (log : list event) :
  existsb is_write log = false ->
  forallb is_silent (List.map Did log) = true.
Proof.
  induction log as [|e log IH]; [reflexivity|].
  simpl. intros H. apply orb_false_iff in H as [He Hl].
  rewrite (IH Hl). destruct e; [reflexivity | discriminate].
Qed.

Lemma silent_apply_patch (h : Host) (repo_root worktree_dir patch_path : Path) :
  stays_silent
    (engine h (fun w => apply_patch w repo_root worktree_dir patch_path)).
Proof.
  intros done. unfold engine.
  destruct (apply_patch_only_runs_git (world_at h done) repo_root
              worktree_dir patch_path []) as [added [E G]].
  destruct (apply_patch (world_at h done) repo_root worktree_dir patch_path [])
    as [[a|e] log]; simpl in E; subst log;
    exists (List.map Did added);
    (split; [reflexivity | now apply silent_events]).
Qed.

Lemma silent_cleanup (h : Host) (repo_root : Path) (paths : Paths)
      (keep : bool) :
  stays_silent (cleanup h repo_root paths keep).
Proof.
  assert (W : forall worktree,
             stays_silent (cleanup_worktree h repo_root paths worktree)).
  { intros worktree. unfold cleanup_worktree.
    apply silent_bind; [apply silent_look | intros safe].
    destruct (negb safe); [apply silent_ret|].
    apply silent_swallow. unfold remove_worktree.
    apply silent_bind; [apply silent_look | intros present].
    destruct present; [|apply silent_ret].
    apply silent_bind; [apply silent_run_git | intros _; apply silent_ret]. }
  unfold cleanup. destruct keep; [apply silent_ret|].
  apply silent_bind; [apply W | intros _].
  apply silent_bind; [apply W | intros _].
  apply silent_swallow.
  apply silent_bind; [apply silent_look | intros safe].
  destruct safe; [apply silent_rmtree | apply silent_ret].
Qed.

(** X20.  When the post patch fails to apply, [main] runs [cleanup] and
    then hands on that very failure, unless [cleanup] itself raises: then
    what [cleanup] raised leaves [main] in its place.  When the guard
    calls in the loop of [cleanup] answer, it is the failure of the patch
    that leaves [main].  In each case, from the moment the scratch area
    was prepared nothing is written and nothing is printed, so no
    artifact is created or overwritten; and the removals of the cleanup
    are guarded. *)
Theorem main_failed_post_patch
        (h : Host) (ho : bool) (args : Args) (repo_root : Path)
        (paths : Paths) (f : failure)
        (done d1 d2 d3 d4 d5 : list action) :
  ensure_repo_root h
    (if truthy (arg_repo_root args)
     then Some (parse_path (arg_repo_root args)) else None) done
  = (Done repo_root, d1) ->
  build_paths h args repo_root d1 = (Done paths, d2) ->
  ensure_patches_exist h paths d2 = (Done tt, d2) ->
  prepare_work_base h paths repo_root d2 = (Done tt, d3) ->
  engine h (fun w => apply_patch w repo_root (pre_dir paths) (pre_patch paths))
    d3 = (Done tt, d4) ->
  engine h (fun w => apply_patch w repo_root (post_dir paths) (post_patch paths))
    d4 = (Failed f, d5) ->
  exists after cleaned,
    snd (cleanup h repo_root paths (keep_worktrees args) d5) = d5 ++ cleaned
    /\ main h ho args done
       = (match fst (cleanup h repo_root paths (keep_worktrees args) d5) with
          | Done _ => Failed f
          | Failed raised => Failed raised
          end, d5 ++ cleaned)
    /\ ((forall worktree d,
            host_refuses h d (AskSafeWorktree worktree paths repo_root) = None) ->
        main h ho args done = (Failed f, d5 ++ cleaned))
    /\ d5 ++ cleaned = d3 ++ after
    /\ forallb is_silent after = true
    /\ actions_allowed (cleanup_action h paths repo_root) d5 cleaned.
Proof.
  intros E1 E2 E3 E4 E5 E6.
  destruct (silent_apply_patch h repo_root (pre_dir paths) (pre_patch paths) d3)
    as [a1 [S1 Q1]].
  rewrite E5 in S1. simpl in S1.
  destruct (silent_apply_patch h repo_root (post_dir paths) (post_patch paths) d4)
    as [a2 [S2 Q2]].
  rewrite E6 in S2. simpl in S2.
  destruct (silent_cleanup h repo_root paths (keep_worktrees args) d5)
    as [cleaned [S3 Q3]].
  destruct (does_cleanup h repo_root paths (keep_worktrees args) d5)
    as [cleaned' [S3' G3]].
  assert (cleaned' = cleaned)
    by (apply (app_inv_head d5); congruence). subst cleaned'.
  assert (M : main h ho args done
              = (match fst (cleanup h repo_root paths (keep_worktrees args) d5)
                 with
                 | Done _ => Failed f
                 | Failed raised => Failed raised
                 end, d5 ++ cleaned)).
  { unfold main.
    rewrite (hbind_done _ _ _ _ _ E1), (hbind_done _ _ _ _ _ E2),
      (hbind_done _ _ _ _ _ E3), (hbind_done _ _ _ _ _ E4).
    unfold hbind at 1. unfold finally.
    rewrite (hbind_done _ _ _ _ _ E5), (hbind_failed _ _ _ _ _ E6).
    destruct (cleanup h repo_root paths (keep_worktrees args) d5) as [[u|g] d6];
      simpl in S3; subst d6; reflexivity. }
  exists (a1 ++ a2 ++ cleaned), cleaned.
  split; [exact S3|]. split; [exact M|]. split; [|split; [|split]].
  - intros Answers. rewrite M.
    now rewrite (cleanup_done h repo_root paths (keep_worktrees args) d5 Answers).
  - subst d5 d4. now rewrite <- !app_assoc.
  - rewrite !forallb_app. now rewrite Q1, Q2, Q3.
  - exact G3.
Qed.

Lemma main_failed_post_patch_witness :
  exists after cleaned,
    main Demo.host false Demo.args []
    = (Failed (Exn (RuntimeError
                      (apply_error_message (post_patch Sample.paths)
                         (lit "error: patch does not apply")))),
       snd (engine Demo.host
              (fun w => apply_patch w Sample.repo Sample.post
                          (post_patch Sample.paths))
              (snd (engine Demo.host
                      (fun w => apply_patch w Sample.repo Sample.pre
                                  (pre_patch Sample.paths))
                      (snd (prepare_work_base Demo.host Sample.paths
                              Sample.repo [Mkdir Sample.out])))))
       ++ cleaned)
    /\ forallb is_silent after = true.
Proof.
  destruct (main_failed_post_patch Demo.host false Demo.args Sample.repo
              Sample.paths
              (Exn (RuntimeError
                      (apply_error_message (post_patch Sample.paths)
                         (lit "error: patch does not apply"))))
              [] [] [Mkdir Sample.out]
              (snd (prepare_work_base Demo.host Sample.paths Sample.repo
                      [Mkdir Sample.out]))
              (snd (engine Demo.host
                      (fun w => apply_patch w Sample.repo Sample.pre
                                  (pre_patch Sample.paths))
                      (snd (prepare_work_base Demo.host Sample.paths
                              Sample.repo [Mkdir Sample.out]))))
              (snd (engine Demo.host
                      (fun w => apply_patch w Sample.repo Sample.post
                                  (post_patch Sample.paths))
                      (snd (engine Demo.host
                              (fun w => apply_patch w Sample.repo Sample.pre
                                          (pre_patch Sample.paths))
                              (snd (prepare_work_base Demo.host Sample.paths
                                      Sample.repo [Mkdir Sample.out]))))))
              eq_refl eq_refl eq_refl eq_refl eq_refl eq_refl)
    as [after [cleaned [_ [_ [M [_ [S _]]]]]]].
  exists after, cleaned. split; [exact (M (fun _ _ => eq_refl)) | exact S].
Defined.

(** On the host whose worktree guard raises, what leaves [main] after
    the refused post patch is the error of the guard, not the apply
    error. *)
Lemma main_cleanup_failure_replaces_apply_failure :
  fst (main Demo.locked false Demo.args []) = Failed (Exn OSError).
Proof. reflexivity. Qed.

(** X21.  Without a patch file [main] stops with [FileNotFoundError] naming the
    missing patch, the pre patch first, right after [build_paths]: the
    scratch area is not touched and no worktree is made.  When an
    existence test raises instead of answering, that is what leaves
    [main], at the same point. *)
Theorem main_missing_patch
        (h : Host) (ho : bool) (args : Args) (repo_root : Path)
        (paths : Paths) (done d1 d2 : list action) :
  ensure_repo_root h
    (if truthy (arg_repo_root args)
     then Some (parse_path (arg_repo_root args)) else None) done
  = (Done repo_root, d1) ->
  build_paths h args repo_root d1 = (Done paths, d2) ->
  path_exists (host_files h d2) (pre_patch paths)
  && path_exists (host_files h d2) (post_patch paths) = false ->
  main h ho args done
  = (match host_refuses h d2 (AskExists (pre_patch paths)) with
     | Some e => Failed (Exn e)
     | None =>
         if path_exists (host_files h d2) (pre_patch paths)
         then
           match host_refuses h d2 (AskExists (post_patch paths)) with
           | Some e => Failed (Exn e)
           | None =>
               Failed (FileNotFoundError
                         (lit "Missing post patch: "
                          ++ as_posix (post_patch paths)))
           end
         else Failed (FileNotFoundError
                        (lit "Missing pre patch: "
                         ++ as_posix (pre_patch paths)))
     end, d2).
Proof.
  intros E1 E2 Hm. unfold main.
  rewrite (hbind_done _ _ _ _ _ E1), (hbind_done _ _ _ _ _ E2).
  destruct (host_refuses h d2 (AskExists (pre_patch paths))) eqn:R1.
  { apply hbind_failed. unfold ensure_patches_exist, hbind, look.
    now rewrite R1. }
  destruct (path_exists (host_files h d2) (pre_patch paths)) eqn:P1.
  - simpl in Hm.
    destruct (host_refuses h d2 (AskExists (post_patch paths))) eqn:R2;
      apply hbind_failed; unfold ensure_patches_exist, hbind, look;
      rewrite R1, P1; change (negb true) with false; cbv beta iota;
      rewrite R2; [reflexivity | now rewrite Hm].
  - apply hbind_failed. unfold ensure_patches_exist, hbind, look.
    now rewrite R1, P1.
Qed.

Lemma main_missing_patch_witness :
  main Demo.bare false Demo.args []
  = (Failed (FileNotFoundError
               (lit "Missing pre patch: /repo/.subagent/pre_janitor.patch")),
     [Mkdir Sample.out]).
Proof.
  exact (main_missing_patch Demo.bare false Demo.args Sample.repo Sample.paths
           [] [] [Mkdir Sample.out] eq_refl eq_refl eq_refl).
Defined.

(* ------------------------------------------------------------------ *)
(** * Stat lines with a separator; the bare path of a token *)

Lemma split_once_first (sep : char) (a b : str) :
  contains_char sep a = false ->
  split_once sep (a ++ sep :: b) = Some (a, b).
Proof.
  unfold contains_char, mem_char. induction a as [|c a IH]; simpl.
  - intros _. now rewrite N.eqb_refl.
  - intros H. apply orb_false_iff in H as [Hc Ha].
    rewrite N.eqb_sym in Hc. now rewrite Hc, (IH Ha).
Qed.

(** X22.  A stat line is cut at its first ['|'].  What stands before is
    normalised as a path; the line is dropped when that path is empty or
    excluded, and otherwise rebuilt as the path, [ | ], and what stood
    after the separator, trimmed. *)
Theorem normalize_stat_output_rebuilds_line
        (ho : bool) (path_part rest : str) (pre post : Path) :
  contains_char PIPE path_part = false ->
  is_blank (path_part ++ PIPE :: rest) = false ->
  stat_line ho (path_part ++ PIPE :: rest) pre post
  = let path_clean := normalize_path_value ho path_part pre post in
    if truthy path_clean && negb (is_excluded_path path_clean)
    then [path_clean ++ lit " | " ++ strip rest]
    else [].
Proof.
  intros Hp Hb. unfold stat_line. unfold is_blank in Hb. rewrite Hb.
  rewrite (split_once_first PIPE path_part rest Hp). cbv zeta.
  destruct (truthy (normalize_path_value ho path_part pre post));
    [|reflexivity].
  simpl negb. simpl orb. simpl andb.
  destruct (is_excluded_path (normalize_path_value ho path_part pre post));
    reflexivity.
Qed.

Lemma normalize_stat_output_rebuilds_line_witness :
  stat_line false (lit " post/docs/read me.md " ++ PIPE :: lit "  12 ++--|  ")
    Sample.pre Sample.post
  = [lit "docs/read me.md | 12 ++--|"].
Proof.
  rewrite (normalize_stat_output_rebuilds_line false
             (lit " post/docs/read me.md ") (lit "  12 ++--|  ")
             Sample.pre Sample.post eq_refl eq_refl).
  reflexivity.
Defined.

(** X23.  The path that [handle_diff_header] tests for exclusion is the path it
    puts out: [extract_normalized_path] gives exactly the canonical path
    that [normalize_diff_token] places behind the diff prefix, inside the
    quotes if the token had them. *)
Theorem extract_normalized_path_is_token_path
        (ho : bool) (token : str) (pre post : Path) :
  let text := strip token in
  let quoted := startswith text [DQUOTE] && endswith text [DQUOTE] in
  let inner := if quoted then slice_inner text else text in
  let lead := fst (split_diff_prefix inner) in
  let bare := extract_normalized_path ho token pre post in
  bare = normalize_path_value ho (snd (split_diff_prefix inner)) pre post
  /\ (truthy bare = true ->
      normalize_diff_token ho token pre post
      = if quoted then [DQUOTE] ++ (lead ++ bare) ++ [DQUOTE]
        else lead ++ bare).
Proof.
  intros text quoted inner lead bare.
  assert (E : bare
              = normalize_path_value ho (snd (split_diff_prefix inner))
                  pre post).
  { unfold bare, extract_normalized_path. fold text. fold quoted. fold inner.
    unfold split_diff_prefix.
    destruct (startswith inner (lit "a/")); [reflexivity|].
    destruct (startswith inner (lit "b/")); reflexivity. }
  split; [exact E|]. intros T.
  rewrite normalize_diff_token_unfold. fold text. fold quoted. fold inner.
  fold lead. rewrite <- E. now rewrite T.
Qed.

Lemma extract_normalized_path_is_token_path_witness :
  normalize_diff_token true (DQUOTE :: lit "b/post/my file" ++ [DQUOTE])
    Sample.pre Sample.post
  = [DQUOTE] ++ (lit "b/" ++ lit "my file") ++ [DQUOTE].
Proof.
  exact (proj2 (extract_normalized_path_is_token_path true
                  (DQUOTE :: lit "b/post/my file" ++ [DQUOTE])
                  Sample.pre Sample.post) eq_refl).
Defined.
